(** * The mono-reader reading session (webreader/src/main.ts)

    A shallow embedding of the reader's controller: the label index built
    from the table of contents, the progress percentage, the asynchronous
    [openBook] load sequence, the authorisation gate and the persisted
    session.  The EPUB library (epubjs) and the browser are collaborators:
    their objects live in an explicit world, and what they answer is an
    input of the model. *)

From Stdlib Require Import QArith Qround Lqa DecimalString.
From Stdlib Require Import Floats.SpecFloat.
From stdpp Require Import gmap list strings.

Local Open Scope N_scope.
Local Open Scope list_scope.

(** ** Strings

    A JavaScript string is a sequence of UTF-16 code units. *)

Abbreviation jsstring := (list N).

(** Literals of the source are written [js "..."] (ASCII only). *)
Definition js (s : string) : jsstring :=
  List.map Ascii.N_of_ascii (String.list_ascii_of_string s).

(** [String.prototype.trim] strips WhiteSpace and LineTerminator code
    units: TAB, LF, VT, FF, CR, SP, NBSP, the Zs category, LS, PS, BOM. *)
Definition is_space (c : N) : bool :=
  (9 <=? c) && (c <=? 13) || (c =? 32) || (c =? 160) || (c =? 5760) ||
  (8192 <=? c) && (c <=? 8202) || (c =? 8232) || (c =? 8233) ||
  (c =? 8239) || (c =? 8287) || (c =? 12288) || (c =? 65279).

Fixpoint trimStart (s : jsstring) : jsstring :=
  match s with
  | c :: t => if is_space c then trimStart t else s
  | [] => []
  end.

Definition trimEnd (s : jsstring) : jsstring := rev (trimStart (rev s)).

Definition trim (s : jsstring) : jsstring := trimEnd (trimStart s).

(** [s.split(sep)[0]]: the code units before the first [sep]. *)
Fixpoint split_first (sep : N) (s : jsstring) : jsstring :=
  match s with
  | [] => []
  | c :: t => if c =? sep then [] else c :: split_first sep t
  end.

(** [s.split(sep).pop()]: the code units after the last [sep]; [split] of
    a string is never empty, so [pop] is never undefined. *)
Fixpoint split_pop_from (sep : N) (cur s : jsstring) : jsstring :=
  match s with
  | [] => cur
  | c :: t => if c =? sep then split_pop_from sep [] t
              else split_pop_from sep (cur ++ [c]) t
  end.

Definition split_pop (sep : N) (s : jsstring) : jsstring :=
  split_pop_from sep [] s.

(** [s.replace(/[-_]/g, ' ')] *)
Definition replace_dash_underscore (s : jsstring) : jsstring :=
  List.map (fun c => if (c =? 45) || (c =? 95) then 32 else c) s.

(** [s.replace(/\.[^.]+$/, '')]: the leftmost position holding a dot that
    is followed, up to the end of the string, by one or more code units
    none of which is a dot; that suffix is removed. *)
Fixpoint replace_extension (s : jsstring) : jsstring :=
  match s with
  | [] => []
  | c :: t =>
      if (c =? 46) && negb (forallb (fun _ => false) t)
                   && forallb (fun d => negb (d =? 46)) t
      then []
      else c :: replace_extension t
  end.

(** [const cleanHref = (href) => href.split('#')[0]] *)
Definition cleanHref (href : jsstring) : jsstring := split_first 35 href.

(** [const cleanText = (value) => value.split('/').pop()
      ?.replace(/[-_]/g, ' ').replace(/\.[^.]+$/, '')?.trim() ?? value] *)
Definition cleanText (value : jsstring) : jsstring :=
  trim (replace_extension (replace_dash_underscore (split_pop 47 value))).


Local Close Scope N_scope.

(** ** Numbers

    A Number is an IEEE 754 binary64 value: [spec_float] of the Standard
    Library, with a precision of 53 bits and [emax] 1024.  [multiply] is
    the operator [*] and [divide] the operator [/], both rounding to the
    nearest value, a tie going to the even one. *)

Abbreviation double := spec_float.

Definition Number_of_Z (n : Z) : double := binary_normalize 53 1024 n 0 false.

Definition multiply (x y : double) : double := SFmul 53 1024 x y.

Definition divide (x y : double) : double := SFdiv 53 1024 x y.

(** The real number a finite double stands for, and 0 for the others. *)
Definition real (x : double) : Q :=
  match x with
  | S754_finite s m e =>
      let n := if s then Z.neg m else Z.pos m in
      match e with
      | Z.neg p => n # 2 ^ p
      | _ => inject_Z (n * 2 ^ e)
      end
  | _ => 0
  end.

Definition finite (x : double) : bool :=
  match x with
  | S754_zero _ | S754_finite _ _ _ => true
  | _ => false
  end.

(** The mantissa and the exponent are those of a binary64 value. *)
Definition valid (x : double) : bool := valid_binary 53 1024 x.

(** What [Math.round] returns: NaN, an infinity, or an integral Number,
    given by the integer it stands for.  The zero stands for both signed
    zeros, which the conversion to a string does not tell apart. *)
Inductive Integral :=
| int_NaN
| int_Infinity (negative : bool)
| int (n : Z).

(** [Math.round]: the integral Number closest to [x], the one closer to
    positive infinity when two are as close. *)
Definition Math_round (x : double) : Integral :=
  match x with
  | S754_nan => int_NaN
  | S754_infinity s => int_Infinity s
  | _ => int (Qfloor (real x + (1 # 2)))
  end.

(** The decimal digits of a natural number. *)
Definition decimal (n : Z) : jsstring :=
  js (NilZero.string_of_int (Z.to_int n)).

(** [Number::toString] writes the fewest digits that still denote the
    double: with [k] digits, the candidates are the two multiples of the
    power of ten around [n]; the one that converts to the double of [n]
    is kept, the nearer one when both do, the even one when both are as
    near. *)
Definition candidate (n : Z) (k : nat) : option Z :=
  let j := (Z.of_nat (length (decimal n)) - Z.of_nat k)%Z in
  if (j <=? 0)%Z then Some n
  else
    let u := (10 ^ j)%Z in
    let lo := (n / u * u)%Z in
    let hi := (lo + u)%Z in
    let ordered :=
      match (n - lo ?= hi - n)%Z with
      | Lt => [lo; hi]
      | Gt => [hi; lo]
      | Eq => if Z.even (n / u) then [lo; hi] else [hi; lo]
      end in
    head (filter (fun c => SFeqb (Number_of_Z c) (Number_of_Z n) = true)
                 ordered).

Fixpoint shortest_from (n : Z) (k fuel : nat) : Z :=
  match fuel with
  | O => n
  | S fuel =>
      match candidate n k with
      | Some c => c
      | None => shortest_from n (S k) fuel
      end
  end.

(** Seventeen digits tell any two doubles apart. *)
Definition shortest (n : Z) : Z := shortest_from n 1 17.

Fixpoint strip_zeros (rev_digits : jsstring) : jsstring :=
  match rev_digits with
  | c :: t => if (c =? 48)%N then strip_zeros t else rev_digits
  | [] => []
  end.

(** [`${pct}`]: the digits, followed by zeros up to 21 places, and the
    exponent notation beyond. *)
Definition Number_toString (x : Integral) : jsstring :=
  match x with
  | int_NaN => js "NaN"
  | int_Infinity false => js "Infinity"
  | int_Infinity true => js "-Infinity"
  | int n =>
      let sign := if (n <? 0)%Z then js "-" else [] in
      let digits := decimal (shortest (Z.abs n)) in
      sign ++
      if (length digits <=? 21)%nat then digits
      else
        match rev (strip_zeros (rev digits)) with
        | [] => digits
        | [d] => d :: js "e+" ++ decimal (Z.of_nat (length digits) - 1)
        | d :: ds =>
            d :: js "." ++ ds ++ js "e+" ++
            decimal (Z.of_nat (length digits) - 1)
        end
  end.

(** ** Data of the source and of the collaborators *)

(** [type AuthUser] and [type SessionPayload]. *)
Record AuthUser := {
  user_id : jsstring;
  email : jsstring;
  displayName : jsstring;
  createdAt : option jsstring
}.

Record SessionPayload := {
  token : jsstring;
  user : AuthUser
}.

(** [interface NavItem] of epubjs: [subitems] is optional. *)
Local Unset Elimination Schemes.
Inductive NavItem := mkNavItem {
  nav_id : jsstring;
  href : jsstring;
  label : jsstring;
  subitems : option (list NavItem)
}.
Local Set Elimination Schemes.

(** [type Location]: [start.cfi] and the optional [start.href]. *)
Record Location := {
  start_cfi : jsstring;
  start_href : option jsstring
}.

(** What [book.loaded.metadata] resolves to. *)
Record Metadata := {
  title : option jsstring;
  creator : option jsstring
}.

(** The bytes of a file are opaque to the controller; they are modelled by
    what the EPUB library does with them: which calls return, which
    promises fulfil and with what.  [None] is a rejected promise, [false]
    a call that throws or a promise that rejects.  [locations_generate] is
    the number of locations a fulfilled [generate] leaves. *)
Record Epub := {
  ePub_returns : bool;
  ready : bool;
  renderTo_returns : bool;
  themes_default_returns : bool;
  on_rendered_returns : bool;
  on_relocated_returns : bool;
  loaded_navigation : option (option (list NavItem));
  display_resolves : bool;
  loaded_metadata : option Metadata;
  locations_generate : option nat;
  locations_percentageFromCfi : jsstring -> double
}.

(** A [File]: its name and what [file.arrayBuffer()] settles to. *)
Record File := {
  name : jsstring;
  arrayBuffer : option Epub
}.

(** Objects of the EPUB library are referred to by handle: their index in
    the world's tables, which only grow. *)
Abbreviation handle := nat.

Inductive Call :=
| CallDisplay (target : option jsstring)
| CallPrev
| CallNext.

(** A book object: [bk_locations_length] is what [locations.length()]
    answers, [bk_generating] says that [locations.generate] has been
    called and its promise has not settled. *)
Record BookObj := {
  bk_epub : Epub;
  bk_destroyed : bool;
  bk_locations_length : nat;
  bk_generating : bool
}.

Record RenditionObj := {
  rd_book : handle;
  rd_destroyed : bool;
  rd_theme : bool;
  rd_on_rendered : bool;
  rd_on_relocated : bool;
  rd_calls : list Call
}.

(** What the catch blocks receive. *)
Inductive Exn :=
| Rejected (what : string)
| Thrown (what : string)
| TypeError (what : string).

Inductive LogEntry :=
| console_error (e : Exn)
| console_warn (msg : jsstring) (e : Exn).

Inductive TocChild :=
| TocEmpty (textContent : jsstring)
| TocLink (indent : nat) (textContent : jsstring) (target : jsstring).

(** The elements of the page the controller writes to. *)
Record Dom := {
  statusEl : jsstring;
  metaEl : jsstring;
  authMessage : jsstring;
  userGreeting : jsstring;
  authShell_authed : bool;
  controls_disabled : bool;
  dropHint : jsstring;
  dropHint_visible : bool;
  tocEl : list TocChild;
  viewerEl : list handle;
  fileInput_value : jsstring
}.

(** The module-level variables, the page, the browser storage and console,
    and the objects of the EPUB library. *)
Record State := {
  session : option SessionPayload;
  book : option handle;
  rendition : option handle;
  navLabels : gmap jsstring jsstring;
  currentLabel : jsstring;
  dom : Dom;
  localStorage : gmap jsstring jsstring;
  console : list LogEntry;
  books : list BookObj;
  renditions : list RenditionObj
}.

Definition set_session v (s : State) : State :=
  {| session := v; book := book s; rendition := rendition s;
     navLabels := navLabels s; currentLabel := currentLabel s; dom := dom s;
     localStorage := localStorage s; console := console s;
     books := books s; renditions := renditions s |}.
Definition set_book v (s : State) : State :=
  {| session := session s; book := v; rendition := rendition s;
     navLabels := navLabels s; currentLabel := currentLabel s; dom := dom s;
     localStorage := localStorage s; console := console s;
     books := books s; renditions := renditions s |}.
Definition set_rendition v (s : State) : State :=
  {| session := session s; book := book s; rendition := v;
     navLabels := navLabels s; currentLabel := currentLabel s; dom := dom s;
     localStorage := localStorage s; console := console s;
     books := books s; renditions := renditions s |}.
Definition set_navLabels v (s : State) : State :=
  {| session := session s; book := book s; rendition := rendition s;
     navLabels := v; currentLabel := currentLabel s; dom := dom s;
     localStorage := localStorage s; console := console s;
     books := books s; renditions := renditions s |}.
Definition set_currentLabel v (s : State) : State :=
  {| session := session s; book := book s; rendition := rendition s;
     navLabels := navLabels s; currentLabel := v; dom := dom s;
     localStorage := localStorage s; console := console s;
     books := books s; renditions := renditions s |}.
Definition set_dom v (s : State) : State :=
  {| session := session s; book := book s; rendition := rendition s;
     navLabels := navLabels s; currentLabel := currentLabel s; dom := v;
     localStorage := localStorage s; console := console s;
     books := books s; renditions := renditions s |}.
Definition set_localStorage v (s : State) : State :=
  {| session := session s; book := book s; rendition := rendition s;
     navLabels := navLabels s; currentLabel := currentLabel s; dom := dom s;
     localStorage := v; console := console s;
     books := books s; renditions := renditions s |}.
Definition set_console v (s : State) : State :=
  {| session := session s; book := book s; rendition := rendition s;
     navLabels := navLabels s; currentLabel := currentLabel s; dom := dom s;
     localStorage := localStorage s; console := v;
     books := books s; renditions := renditions s |}.
Definition set_books v (s : State) : State :=
  {| session := session s; book := book s; rendition := rendition s;
     navLabels := navLabels s; currentLabel := currentLabel s; dom := dom s;
     localStorage := localStorage s; console := console s;
     books := v; renditions := renditions s |}.
Definition set_renditions v (s : State) : State :=
  {| session := session s; book := book s; rendition := rendition s;
     navLabels := navLabels s; currentLabel := currentLabel s; dom := dom s;
     localStorage := localStorage s; console := console s;
     books := books s; renditions := v |}.

Definition set_statusEl v (d : Dom) : Dom :=
  {| statusEl := v; metaEl := metaEl d; authMessage := authMessage d;
     userGreeting := userGreeting d; authShell_authed := authShell_authed d;
     controls_disabled := controls_disabled d; dropHint := dropHint d;
     dropHint_visible := dropHint_visible d; tocEl := tocEl d;
     viewerEl := viewerEl d; fileInput_value := fileInput_value d |}.
Definition set_metaEl v (d : Dom) : Dom :=
  {| statusEl := statusEl d; metaEl := v; authMessage := authMessage d;
     userGreeting := userGreeting d; authShell_authed := authShell_authed d;
     controls_disabled := controls_disabled d; dropHint := dropHint d;
     dropHint_visible := dropHint_visible d; tocEl := tocEl d;
     viewerEl := viewerEl d; fileInput_value := fileInput_value d |}.
Definition set_authMessage v (d : Dom) : Dom :=
  {| statusEl := statusEl d; metaEl := metaEl d; authMessage := v;
     userGreeting := userGreeting d; authShell_authed := authShell_authed d;
     controls_disabled := controls_disabled d; dropHint := dropHint d;
     dropHint_visible := dropHint_visible d; tocEl := tocEl d;
     viewerEl := viewerEl d; fileInput_value := fileInput_value d |}.
Definition set_dropHint_visible v (d : Dom) : Dom :=
  {| statusEl := statusEl d; metaEl := metaEl d; authMessage := authMessage d;
     userGreeting := userGreeting d; authShell_authed := authShell_authed d;
     controls_disabled := controls_disabled d; dropHint := dropHint d;
     dropHint_visible := v; tocEl := tocEl d;
     viewerEl := viewerEl d; fileInput_value := fileInput_value d |}.
Definition set_tocEl v (d : Dom) : Dom :=
  {| statusEl := statusEl d; metaEl := metaEl d; authMessage := authMessage d;
     userGreeting := userGreeting d; authShell_authed := authShell_authed d;
     controls_disabled := controls_disabled d; dropHint := dropHint d;
     dropHint_visible := dropHint_visible d; tocEl := v;
     viewerEl := viewerEl d; fileInput_value := fileInput_value d |}.
Definition set_viewerEl v (d : Dom) : Dom :=
  {| statusEl := statusEl d; metaEl := metaEl d; authMessage := authMessage d;
     userGreeting := userGreeting d; authShell_authed := authShell_authed d;
     controls_disabled := controls_disabled d; dropHint := dropHint d;
     dropHint_visible := dropHint_visible d; tocEl := tocEl d;
     viewerEl := v; fileInput_value := fileInput_value d |}.
Definition set_fileInput_value v (d : Dom) : Dom :=
  {| statusEl := statusEl d; metaEl := metaEl d; authMessage := authMessage d;
     userGreeting := userGreeting d; authShell_authed := authShell_authed d;
     controls_disabled := controls_disabled d; dropHint := dropHint d;
     dropHint_visible := dropHint_visible d; tocEl := tocEl d;
     viewerEl := viewerEl d; fileInput_value := v |}.

(** The page and the module variables as the script leaves them when it
    is loaded (the markup of [root.innerHTML] and the [let] initialisers). *)
Definition initial_dom : Dom :=
  {| statusEl := js "idle"; metaEl := js "no book loaded";
     authMessage := js "sign in to unlock the reader";
     userGreeting := js "guest mode"; authShell_authed := false;
     controls_disabled := false;
     dropHint := js "sign in to drop your .epub anywhere";
     dropHint_visible := false; tocEl := []; viewerEl := [];
     fileInput_value := [] |}.

Definition initial_state (stored : gmap jsstring jsstring) : State :=
  {| session := None; book := None; rendition := None; navLabels := ∅;
     currentLabel := js "idle"; dom := initial_dom; localStorage := stored;
     console := []; books := []; renditions := [] |}.

(** ** The display helpers *)

(** [const setStatus = (text) => { statusEl.textContent = text }] *)
Definition setStatus (text : jsstring) (s : State) : State :=
  set_dom (set_statusEl text (dom s)) s.

(** [metaEl.textContent = author && author.trim().length > 0
      ? `${title} / ${author}` : title] *)
Definition setMeta (title : jsstring) (author : option jsstring) (s : State)
  : State :=
  let text :=
    match author with
    | Some a =>
        match a, trim a with
        | [], _ => title
        | _, [] => title
        | _, _ => title ++ js " / " ++ a
        end
    | None => title
    end in
  set_dom (set_metaEl text (dom s)) s.

Definition log (e : LogEntry) (s : State) : State :=
  set_console (console s ++ [e]) s.

(** ** The EPUB library's side of the calls the controller makes *)

Definition update_book (f : BookObj -> BookObj) (b : handle) (s : State)
  : State :=
  set_books (alter f b (books s)) s.

Definition destroy_book : handle -> State -> State :=
  update_book
    (fun o => {| bk_epub := bk_epub o; bk_destroyed := true;
                 bk_locations_length := bk_locations_length o;
                 bk_generating := bk_generating o |}).

Definition update_rendition (f : RenditionObj -> RenditionObj) (r : handle)
  (s : State) : State :=
  set_renditions (alter f r (renditions s)) s.

Definition destroy_rendition : handle -> State -> State :=
  update_rendition
    (fun o => {| rd_book := rd_book o; rd_destroyed := true;
                 rd_theme := rd_theme o; rd_on_rendered := rd_on_rendered o;
                 rd_on_relocated := rd_on_relocated o;
                 rd_calls := rd_calls o |}).

Definition call_rendition (c : Call) : handle -> State -> State :=
  update_rendition
    (fun o => {| rd_book := rd_book o; rd_destroyed := rd_destroyed o;
                 rd_theme := rd_theme o; rd_on_rendered := rd_on_rendered o;
                 rd_on_relocated := rd_on_relocated o;
                 rd_calls := rd_calls o ++ [c] |}).

Definition theme_rendition : handle -> State -> State :=
  update_rendition
    (fun o => {| rd_book := rd_book o; rd_destroyed := rd_destroyed o;
                 rd_theme := true; rd_on_rendered := rd_on_rendered o;
                 rd_on_relocated := rd_on_relocated o;
                 rd_calls := rd_calls o |}).

Definition listen_rendered : handle -> State -> State :=
  update_rendition
    (fun o => {| rd_book := rd_book o; rd_destroyed := rd_destroyed o;
                 rd_theme := rd_theme o; rd_on_rendered := true;
                 rd_on_relocated := rd_on_relocated o;
                 rd_calls := rd_calls o |}).

Definition listen_relocated : handle -> State -> State :=
  update_rendition
    (fun o => {| rd_book := rd_book o; rd_destroyed := rd_destroyed o;
                 rd_theme := rd_theme o; rd_on_rendered := rd_on_rendered o;
                 rd_on_relocated := true;
                 rd_calls := rd_calls o |}).

(** [ePub(buffer)]: a new book object, with an empty location index. *)
Definition new_book (buffer : Epub) (s : State) : handle * State :=
  (length (books s),
   set_books (books s ++ [{| bk_epub := buffer; bk_destroyed := false;
                             bk_locations_length := 0;
                             bk_generating := false |}]) s).

(** [book.renderTo(viewerEl, ...)]: a new rendition attached to the viewer. *)
Definition new_rendition (b : handle) (s : State) : handle * State :=
  let r := length (renditions s) in
  (r,
   set_dom (set_viewerEl (viewerEl (dom s) ++ [r]) (dom s))
     (set_renditions
        (renditions s ++ [{| rd_book := b; rd_destroyed := false;
                             rd_theme := false; rd_on_rendered := false;
                             rd_on_relocated := false; rd_calls := [] |}]) s)).

(** [book.locations.generate(1400)] is called: the library starts to
    fill the location index. *)
Definition generate : handle -> State -> State :=
  update_book
    (fun o => {| bk_epub := bk_epub o; bk_destroyed := bk_destroyed o;
                 bk_locations_length := bk_locations_length o;
                 bk_generating := true |}).

(** While the promise of [generate] is pending the library fills the
    index section by section: [length()] then answers [n]. *)
Definition fill (n : nat) : handle -> State -> State :=
  update_book
    (fun o => if bk_generating o
              then {| bk_epub := bk_epub o; bk_destroyed := bk_destroyed o;
                      bk_locations_length := n; bk_generating := true |}
              else o).

(** The promise of [generate] is fulfilled: the index holds [n]
    locations. *)
Definition generated (n : nat) : handle -> State -> State :=
  update_book
    (fun o => {| bk_epub := bk_epub o; bk_destroyed := bk_destroyed o;
                 bk_locations_length := n; bk_generating := false |}).

(** The promise of [generate] is rejected: the index stays as the library
    has left it. *)
Definition generate_failed : handle -> State -> State :=
  update_book
    (fun o => {| bk_epub := bk_epub o; bk_destroyed := bk_destroyed o;
                 bk_locations_length := bk_locations_length o;
                 bk_generating := false |}).

(** The epub a book object was made from; [None] for an unknown handle. *)
Definition epub_of (b : handle) (s : State) : option Epub :=
  bk_epub <$> books s !! b.

(** ** resetBook *)

Definition resetBook (s : State) : State :=
  let s := set_navLabels ∅ s in
  let s := set_currentLabel (js "idle") s in
  let s := set_dom (set_tocEl [] (dom s)) s in
  let s := set_dom (set_viewerEl [] (dom s)) s in
  let s := match rendition s with
           | Some r => set_rendition None (destroy_rendition r s)
           | None => s
           end in
  match book s with
  | Some b => set_book None (destroy_book b s)
  | None => s
  end.

(** ** renderToc *)

(** The inner [paint(list, depth)]: for each item, in order, the label is
    stored under the item's href without fragment, a button is appended,
    and a non-empty [subitems] is painted one level deeper. *)
Fixpoint paint_item (depth : nat) (item : NavItem)
  (acc : gmap jsstring jsstring * list TocChild)
  : gmap jsstring jsstring * list TocChild :=
  match item with
  | mkNavItem _ h l sub =>
      let acc1 := (<[cleanHref h := trim l]> (fst acc),
                   snd acc ++ [TocLink depth l h]) in
      match sub with
      | Some ((_ :: _) as items) =>
          fold_left (fun a i => paint_item (S depth) i a) items acc1
      | _ => acc1
      end
  end.

Definition paint (items : list NavItem) (depth : nat)
  (acc : gmap jsstring jsstring * list TocChild)
  : gmap jsstring jsstring * list TocChild :=
  fold_left (fun a i => paint_item depth i a) items acc.

Definition renderToc (items : list NavItem) (s : State) : State :=
  let s := set_dom (set_tocEl [] (dom s)) s in
  match items with
  | [] =>
      set_dom
        (set_tocEl [TocEmpty (js "continuous scroll / no markers yet")]
                   (dom s)) s
  | _ =>
      let '(labels, fragment) := paint items 0 (navLabels s, []) in
      set_dom (set_tocEl (tocEl (dom s) ++ fragment) (dom s))
        (set_navLabels labels s)
  end.

(** The lookup the "rendered" listener makes: [navLabels.get(cleanHref(h))]. *)
Definition resolve (s : State) (reference : jsstring) : option jsstring :=
  navLabels s !! cleanHref reference.

(** ** updateProgress *)

(** The percentage [updateProgress] computes,
    [Math.round(book.locations.percentageFromCfi(location.start.cfi) * 100)],
    or [None] where it returns early: no book, or a location index whose
    [length()] is 0. *)
Definition percent (location : Location) (s : State) : option Integral :=
  match book s with
  | None => None
  | Some b =>
      match books s !! b with
      | None => None
      | Some o =>
          if Nat.eqb (bk_locations_length o) 0 then None
          else Some (Math_round
                       (multiply
                          (locations_percentageFromCfi (bk_epub o)
                             (start_cfi location))
                          (Number_of_Z 100)))
      end
  end.

Definition updateProgress (location : Location) (s : State) : State :=
  match percent location s with
  | None => s
  | Some pct =>
      let label := match currentLabel s with
                   | [] => js "reading"
                   | l => l
                   end in
      setStatus (label ++ js " / " ++ Number_toString pct ++ js "%") s
  end.

(** ** The listeners openBook registers *)

Inductive RenditionEvent :=
| rendered (section_href : jsstring)
| relocated (location : Location).

(** [rendition.on('rendered', (section) => { ... })] *)
Definition on_rendered (section_href : jsstring) (s : State) : State :=
  let normalized := cleanHref section_href in
  let l := match navLabels s !! normalized with
           | Some l => l
           | None => cleanText normalized
           end in
  setStatus l (set_currentLabel l s).

(** [rendition.on('relocated', (location) => { updateProgress(location) })] *)
Definition on_relocated (location : Location) (s : State) : State :=
  updateProgress location s.

(** The rendition [r] emits [ev]: the listener registered on [r] for that
    event runs.  The listeners test nothing about [r] themselves. *)
Definition emit (r : handle) (ev : RenditionEvent) (s : State) : State :=
  match renditions s !! r with
  | None => s
  | Some o =>
      match ev with
      | rendered h => if rd_on_rendered o then on_rendered h s else s
      | relocated l => if rd_on_relocated o then on_relocated l s else s
      end
  end.

(** What the library does on its own between two steps of the page: a
    rendition emits an event, or the location index of a book that is
    being generated grows. *)
Inductive LibraryEvent :=
| emitted (r : handle) (ev : RenditionEvent)
| filled (b : handle) (n : nat).

Definition occur (e : LibraryEvent) (s : State) : State :=
  match e with
  | emitted r ev => emit r ev s
  | filled b n => fill n b s
  end.

Definition occur_all (evs : list LibraryEvent) (s : State) : State :=
  fold_left (fun s e => occur e s) evs s.

(** ** openBook

    [openBook] is an [async] function: it runs until an [await], and is
    resumed when the awaited promise settles.  [Await] says where a call is
    suspended and what its promise settles to; a [Task] is a suspended
    call with its [file]. *)

Inductive Await :=
| AwaitArrayBuffer (p : option Epub)
| AwaitReady (p : bool)
| AwaitNavigation (p : option (option (list NavItem)))
| AwaitDisplay (p : bool)
| AwaitMetadata (p : option Metadata)
| AwaitGenerate (b : handle) (p : option nat).

Record Task := {
  task_file : File;
  task_await : Await
}.

(** [finally { fileInput.value = '' }] *)
Definition finally (s : State) : State :=
  set_dom (set_fileInput_value [] (dom s)) s.

(** [catch (error) { console.error(error); setStatus('unable to load epub') }]
    and then the [finally] block. *)
Definition catch (e : Exn) (s : State) : State :=
  finally (setStatus (js "unable to load epub") (log (console_error e) s)).

(** The end of the [try] block, and then the [finally] block. *)
Definition complete (s : State) : State :=
  finally (setStatus (js "use arrows, nav, or scroll freely") s).

(** [applyTheme]: nothing without a rendition; [None] when
    [rendition.themes.default] throws. *)
Definition applyTheme (s : State) : option State :=
  match rendition s with
  | None => Some s
  | Some r =>
      match renditions s !! r with
      | None => None
      | Some o =>
          match epub_of (rd_book o) s with
          | Some e => if themes_default_returns e
                      then Some (theme_rendition r s) else None
          | None => None
          end
      end
  end.

(** The call itself, up to [await file.arrayBuffer()]. *)
Definition openBook (file : File) (s : State) : State * Task :=
  let s := resetBook s in
  let s := setMeta (name file) None s in
  let s := setStatus (js "loading epub...") s in
  (s, {| task_file := file; task_await := AwaitArrayBuffer (arrayBuffer file) |}).

(** From [rendition = book.renderTo(...)] to [await book.loaded.navigation]. *)
Definition resume_ready (file : File) (s : State) : State * option Task :=
  match book s with
  | None => (catch (TypeError "book.renderTo") s, None)
  | Some b =>
      match epub_of b s with
      | None => (catch (TypeError "book.renderTo") s, None)
      | Some e =>
          if renderTo_returns e then
            let '(r, s) := new_rendition b s in
            let s := set_rendition (Some r) s in
            match applyTheme s with
            | None => (catch (Thrown "rendition.themes.default") s, None)
            | Some s =>
                if on_rendered_returns e then
                  let s := listen_rendered r s in
                  if on_relocated_returns e then
                    let s := listen_relocated r s in
                    (s, Some {| task_file := file;
                                task_await :=
                                  AwaitNavigation (loaded_navigation e) |})
                  else (catch (Thrown "rendition.on") s, None)
                else (catch (Thrown "rendition.on") s, None)
            end
          else (catch (Thrown "book.renderTo") s, None)
      end
  end.

(** One resumption: from the settled [await] to the next one, or to the
    end of the call ([None]). *)
Definition resume (t : Task) (s : State) : State * option Task :=
  let file := task_file t in
  match task_await t with
  | AwaitArrayBuffer None => (catch (Rejected "file.arrayBuffer") s, None)
  | AwaitArrayBuffer (Some buffer) =>
      if ePub_returns buffer then
        let '(b, s) := new_book buffer s in
        let s := set_book (Some b) s in
        (s, Some {| task_file := file; task_await := AwaitReady (ready buffer) |})
      else (catch (Thrown "ePub") s, None)
  | AwaitReady false => (catch (Rejected "book.ready") s, None)
  | AwaitReady true => resume_ready file s
  | AwaitNavigation None => (catch (Rejected "book.loaded.navigation") s, None)
  | AwaitNavigation (Some toc) =>
      let s := renderToc (default [] toc) s in
      match rendition s with
      | None => (catch (TypeError "rendition.display") s, None)
      | Some r =>
          match renditions s !! r with
          | None => (catch (TypeError "rendition.display") s, None)
          | Some o =>
              match epub_of (rd_book o) s with
              | None => (catch (TypeError "rendition.display") s, None)
              | Some e =>
                  (call_rendition (CallDisplay None) r s,
                   Some {| task_file := file;
                           task_await := AwaitDisplay (display_resolves e) |})
              end
          end
      end
  | AwaitDisplay false => (catch (Rejected "rendition.display") s, None)
  | AwaitDisplay true =>
      match book s with
      | None => (catch (TypeError "book.loaded") s, None)
      | Some b =>
          match epub_of b s with
          | None => (catch (TypeError "book.loaded") s, None)
          | Some e =>
              (s, Some {| task_file := file;
                          task_await := AwaitMetadata (loaded_metadata e) |})
          end
      end
  | AwaitMetadata None => (catch (Rejected "book.loaded.metadata") s, None)
  | AwaitMetadata (Some metadata) =>
      let t := match trim <$> title metadata with
               | Some ((_ :: _) as t) => t
               | _ => cleanText (name file)
               end in
      let s := setMeta t (trim <$> creator metadata) s in
      let unavailable :=
        (complete (log (console_warn (js "locations unavailable")
                          (TypeError "book.locations")) s), None) in
      match book s with
      | None => unavailable
      | Some b =>
          match epub_of b s with
          | None => unavailable
          | Some e =>
              (generate b s,
               Some {| task_file := file;
                       task_await := AwaitGenerate b (locations_generate e) |})
          end
      end
  | AwaitGenerate b None =>
      (complete (log (console_warn (js "locations unavailable")
                        (Rejected "book.locations.generate"))
                   (generate_failed b s)), None)
  | AwaitGenerate b (Some n) => (complete (generated n b s), None)
  end.

(** A call running on its own: before each resumption the library may
    emit events and fill location indexes ([sched] lists what it does,
    one list per resumption). *)
Fixpoint settle (t : Task) (sched : list (list LibraryEvent))
  (s : State) : State * option Task :=
  match sched with
  | [] => (s, Some t)
  | evs :: sched =>
      match resume t (occur_all evs s) with
      | (s, Some t) => settle t sched s
      | (s, None) => (s, None)
      end
  end.

Definition load (file : File) (sched : list (list LibraryEvent))
  (s : State) : State * option Task :=
  let '(s, t) := openBook file s in settle t sched s.

(** ** The entry points of the page *)

(** [const guardAuth = () => { if (!session) { ... return false } return true }] *)
Definition guardAuth (s : State) : bool * State :=
  match session s with
  | None =>
      let s := set_dom (set_authMessage (js "sign in first - then import")
                                        (dom s)) s in
      (false, setStatus (js "login required to open books") s)
  | Some _ => (true, s)
  end.

(** [toLowerCase], on the letters A-Z; the other code units matter to the
    caller only through the comparison with ".epub". *)
Definition toLowerCase (s : jsstring) : jsstring :=
  List.map (fun c => if (65 <=? c)%N && (c <=? 90)%N then (c + 32)%N else c) s.

Definition endsWith (s suffix : jsstring) : bool :=
  bool_decide (drop (length s - length suffix) s = suffix).

(** [pickAndOpen(files)]: the call of [openBook] is the only one of the
    source; [void openBook(match)] leaves the call suspended. *)
Definition pickAndOpen (files : option (list File)) (s : State)
  : State * option Task :=
  let '(ok, s) := guardAuth s in
  if ok then
    match files with
    | Some ((first :: _) as files) =>
        let candidate :=
          default first
            (List.find (fun f => endsWith (toLowerCase (name f)) (js ".epub"))
                       files) in
        let '(s, t) := openBook candidate s in (s, Some t)
    | _ => (s, None)
    end
  else (s, None).

(** [prevBtn] and [nextBtn]: [void rendition?.prev()], [void rendition?.next()]. *)
Definition step_button (c : Call) (s : State) : State :=
  let '(ok, s) := guardAuth s in
  if ok then
    match rendition s with
    | Some r => call_rendition c r s
    | None => s
    end
  else s.

(** The [keydown] listener of the window. *)
Definition keydown (key : jsstring) (s : State) : State :=
  match rendition s, session s with
  | Some r, Some _ =>
      let s := if bool_decide (key ∈ [js "ArrowLeft"; js "ArrowUp"; js "PageUp"])
               then call_rendition CallPrev r s else s in
      if bool_decide (key ∈ [js "ArrowRight"; js "ArrowDown"; js "PageDown";
                              js " "])
      then call_rendition CallNext r s else s
  | _, _ => s
  end.

(** The click listener of a button of the table of contents:
    [rendition?.display(item.href)]. *)
Definition toc_link_click (target : jsstring) (s : State) : State :=
  match rendition s with
  | Some r => call_rendition (CallDisplay (Some target)) r s
  | None => s
  end.

Definition showDropState (s : State) : State :=
  match session s with
  | None =>
      let s := set_dom (set_authMessage (js "sign in before dropping files")
                                        (dom s)) s in
      setStatus (js "login required to drop files") s
  | Some _ => set_dom (set_dropHint_visible true (dom s)) s
  end.

Definition hideDropState (s : State) : State :=
  set_dom (set_dropHint_visible false (dom s)) s.

(** ** The page as a whole: the state and the suspended calls of openBook *)

Record Config := {
  st : State;
  pending : list Task
}.

Inductive Action :=
| fileInput_change (files : option (list File))
| document_drop (files : option (list File))
| document_dragenter
| document_dragleave
| prevBtn_click
| nextBtn_click
| window_keydown (key : jsstring)
| toc_click (target : jsstring)
| settles (i : nat)
| emits (r : handle) (ev : RenditionEvent)
| fills (b : handle) (n : nat).

Definition spawn (c : Config) (r : State * option Task) : Config :=
  {| st := fst r; pending := pending c ++ option_list (snd r) |}.

Definition step (a : Action) (c : Config) : Config :=
  let only s := {| st := s; pending := pending c |} in
  match a with
  | fileInput_change files => spawn c (pickAndOpen files (st c))
  | document_drop files => spawn c (pickAndOpen files (hideDropState (st c)))
  | document_dragenter => only (showDropState (st c))
  | document_dragleave => only (hideDropState (st c))
  | prevBtn_click => only (step_button CallPrev (st c))
  | nextBtn_click => only (step_button CallNext (st c))
  | window_keydown key => only (keydown key (st c))
  | toc_click target => only (toc_link_click target (st c))
  | settles i =>
      match pending c !! i with
      | None => c
      | Some t =>
          match resume t (st c) with
          | (s, Some t') => {| st := s; pending := <[i := t']> (pending c) |}
          | (s, None) => {| st := s; pending := delete i (pending c) |}
          end
      end
  | emits r ev => only (emit r ev (st c))
  | fills b n => only (fill n b (st c))
  end.

Definition steps (l : list Action) (c : Config) : Config :=
  fold_left (fun c a => step a c) l c.

(** ** The session and its copy in localStorage

    [JSON.stringify] and [JSON.parse] belong to the browser.  [JSON_parse]
    answers [None] where the code that reads the stored entry throws:
    where parsing throws, and where the value parsed makes
    [updateAuthUI] throw (a value that is not falsy and has no
    [user.displayName]); [Some None] is the value null, [Some (Some p)] a
    session. *)

Definition SESSION_KEY : jsstring := js "mono-reader-session".

Definition updateAuthUI (s : State) : State :=
  let d := dom s in
  let authed := bool_decide (is_Some (session s)) in
  set_dom
    {| statusEl := statusEl d; metaEl := metaEl d;
       authMessage := if authed then js "reader unlocked"
                      else js "sign in to unlock the reader";
       userGreeting := match session s with
                       | Some p => js "hello, " ++ displayName (user p)
                       | None => js "guest mode"
                       end;
       authShell_authed := authed;
       controls_disabled := negb authed;
       dropHint := if authed then js "drop your .epub anywhere"
                   else js "sign in to drop your .epub anywhere";
       dropHint_visible := dropHint_visible d; tocEl := tocEl d;
       viewerEl := viewerEl d; fileInput_value := fileInput_value d |} s.

Section Auth.

Variable JSON_stringify : SessionPayload -> jsstring.
Variable JSON_parse : jsstring -> option (option SessionPayload).

Definition persistSession (payload : option SessionPayload) (s : State)
  : State :=
  let s := set_session payload s in
  let s := match payload with
           | Some p =>
               set_localStorage
                 (<[SESSION_KEY := JSON_stringify p]> (localStorage s)) s
           | None =>
               set_localStorage (delete SESSION_KEY (localStorage s)) s
           end in
  updateAuthUI s.

(** [bootstrapSession] up to [await callApi('/api/auth/me')]; the result
    holds [parsed] when the call is suspended there. *)
Definition bootstrapSession (s : State)
  : State * option (option SessionPayload) :=
  match localStorage s !! SESSION_KEY with
  | None | Some [] => (updateAuthUI s, None)
  | Some stored =>
      match JSON_parse stored with
      | Some parsed => (updateAuthUI (set_session parsed s), Some parsed)
      | None => (persistSession None s, None)
      end
  end.

(** The rest of [bootstrapSession]: [response] is [None] when [callApi]
    rejects; [parsed.token] throws when [parsed] is null. *)
Definition bootstrapSession_resume (parsed : option SessionPayload)
  (response : option AuthUser) (s : State) : State :=
  match response, parsed with
  | Some u, Some p => persistSession (Some {| token := token p; user := u |}) s
  | _, _ => persistSession None s
  end.

(** The click listener of [logoutBtn]. *)
Definition logout (s : State) : State :=
  let s := persistSession None s in
  let s := resetBook s in
  let s := setMeta (js "no book loaded") None s in
  setStatus (js "signed out") s.

(** The [then] and [catch] callbacks of the login and register forms. *)
Definition auth_settled (done : jsstring)
  (result : SessionPayload + jsstring) (s : State) : State :=
  match result with
  | inl data =>
      let s := persistSession (Some data) s in
      set_dom (set_authMessage done (dom s)) s
  | inr message =>
      let s := set_dom (set_authMessage message (dom s)) s in
      setStatus message s
  end.

(** The stored entry mirrors the variable [session]. *)
Definition session_persisted (s : State) : Prop :=
  localStorage s !! SESSION_KEY = JSON_stringify <$> session s.

End Auth.

(** ** Notions the properties are stated with *)

(** The nodes of a table of contents in depth-first pre-order: a node,
    then the nodes below it, then its next sibling. *)
Fixpoint preorder_item (item : NavItem) : list NavItem :=
  match item with
  | mkNavItem _ _ _ sub =>
      item :: match sub with
              | Some items => flat_map preorder_item items
              | None => []
              end
  end.

Definition preorder (items : list NavItem) : list NavItem :=
  flat_map preorder_item items.

(** The last node, in that order, whose href without fragment is [key]. *)
Definition last_visit (key : jsstring) (items : list NavItem) : option NavItem :=
  last (filter (fun n => cleanHref (href n) = key) (preorder items)).

(** No white space at either end. *)
Definition trimmed (s : jsstring) : Prop :=
  (∀ c, head s = Some c → is_space c = false) ∧
  (∀ c, last s = Some c → is_space c = false).

(** [v] is [text] without the white space at its ends: what the words
    "the trimmed text" mean, stated without [trim]. *)
Definition trimmed_of (text v : jsstring) : Prop :=
  ∃ before after,
    text = before ++ v ++ after ∧
    forallb is_space before = true ∧ forallb is_space after = true ∧
    trimmed v.

(** [d] is [c] with a '-' or a '_' turned into a space: what the words
    "replaces '-' and '_' with spaces" mean for one code unit. *)
Definition spaced (c d : N) : Prop :=
  d = if bool_decide (c = 45%N ∨ c = 95%N) then 32%N else c.

(** The handles of the objects on which [destroy()] has not been called. *)
Definition live_books (s : State) : list handle :=
  filter (fun b => bk_destroyed <$> books s !! b = Some false)
         (seq 0 (length (books s))).

Definition live_renditions (s : State) : list handle :=
  filter (fun r => rd_destroyed <$> renditions s !! r = Some false)
         (seq 0 (length (renditions s))).

(** Every live object is the one the variables [book] and [rendition]
    refer to, so that [resetBook] reaches it.  Two calls of [openBook]
    that overlap can leave a live object that no variable refers to. *)
Definition owned (s : State) : Prop :=
  Forall (fun b => book s = Some b) (live_books s) ∧
  Forall (fun r => rendition s = Some r) (live_renditions s).

(** The state called Idle: no handle held. *)
Definition idle (s : State) : Prop :=
  book s = None ∧ rendition s = None.

(** The file is one for which steps 3 to 10 of the load all succeed. *)
Definition loads (file : File) : bool :=
  match arrayBuffer file with
  | None => false
  | Some e =>
      ePub_returns e && ready e && renderTo_returns e &&
      themes_default_returns e && on_rendered_returns e &&
      on_relocated_returns e &&
      match loaded_navigation e with Some _ => true | None => false end &&
      display_resolves e &&
      match loaded_metadata e with Some _ => true | None => false end
  end.

(** Modelled on the words of the specification, to compare [Math_round]
    with: rounding to the nearest integer, a tie going away from zero. *)
Definition round_half_away_from_zero (x : Q) : Z :=
  if Qle_bool 0 x then Qfloor (x + (1 # 2)) else Qceiling (x - (1 # 2)).

(** What is displayed: the current label, the status and the meta line. *)
Definition displayed (s : State) : jsstring * jsstring * jsstring :=
  (currentLabel s, statusEl (dom s), metaEl (dom s)).

(** [book?.locations.length()], 0 without a book. *)
Definition locations_length (s : State) : nat :=
  match book s with
  | Some b => default 0 (bk_locations_length <$> books s !! b)
  | None => 0
  end.

(** The epub behind the variable [book], and behind [rendition]. *)
Definition book_epub (s : State) : option Epub :=
  book s ≫= fun b => epub_of b s.

Definition rendition_epub (s : State) : option Epub :=
  rendition s ≫= fun r => renditions s !! r ≫= fun o => epub_of (rd_book o) s.

(** What [paint] does to the map for one node. *)
Definition store (m : gmap jsstring jsstring) (n : NavItem)
  : gmap jsstring jsstring :=
  <[cleanHref (href n) := trim (label n)]> m.

(** *** Examples to evaluate the model on *)

Definition demo_toc : list NavItem :=
  [ mkNavItem (js "n1") (js "ch1.xhtml") (js " Chapter 1 ")
      (Some [ mkNavItem (js "n2") (js "ch1.xhtml#s1") (js "  Section 1.1 ")
                None ]);
    mkNavItem (js "n3") (js "ch2.xhtml#top") (js "Chapter 2") (Some []) ].

Definition demo_metadata : Metadata :=
  {| title := Some (js " A Book "); creator := Some (js "Ann") |}.

(** The positions the examples report: [5005 / 10000] is the double that
    the literal 0.5005 denotes, and so on. *)
Definition position (numerator denominator : Z) : double :=
  divide (Number_of_Z numerator) (Number_of_Z denominator).

(** A well-formed book whose every position is reported as 0.5005. *)
Definition demo_epub : Epub :=
  {| ePub_returns := true; ready := true; renderTo_returns := true;
     themes_default_returns := true; on_rendered_returns := true;
     on_relocated_returns := true;
     loaded_navigation := Some (Some demo_toc);
     display_resolves := true;
     loaded_metadata := Some demo_metadata;
     locations_generate := Some 12;
     locations_percentageFromCfi := fun _ => position 5005 10000 |}.

(** The same book when building its location index fails. *)
Definition unindexed_epub : Epub :=
  {| ePub_returns := true; ready := true; renderTo_returns := true;
     themes_default_returns := true; on_rendered_returns := true;
     on_relocated_returns := true;
     loaded_navigation := Some (Some demo_toc);
     display_resolves := true;
     loaded_metadata := Some demo_metadata;
     locations_generate := None;
     locations_percentageFromCfi := fun _ => position 5005 10000 |}.

(** Another book, without table of contents, whose positions are
    reported as 0. *)
Definition other_epub : Epub :=
  {| ePub_returns := true; ready := true; renderTo_returns := true;
     themes_default_returns := true; on_rendered_returns := true;
     on_relocated_returns := true;
     loaded_navigation := Some None;
     display_resolves := true;
     loaded_metadata :=
       Some {| title := Some (js "Other"); creator := None |};
     locations_generate := Some 3;
     locations_percentageFromCfi := fun _ => Number_of_Z 0 |}.

(** A book of which the first display fails: the book object and the
    rendition are made, the table of contents arrives, and
    [rendition.display()] rejects. *)
Definition failing_epub : Epub :=
  {| ePub_returns := true; ready := true; renderTo_returns := true;
     themes_default_returns := true; on_rendered_returns := true;
     on_relocated_returns := true;
     loaded_navigation := Some (Some demo_toc);
     display_resolves := false;
     loaded_metadata := None;
     locations_generate := None;
     locations_percentageFromCfi := fun _ => Number_of_Z 0 |}.

Definition demo_file : File :=
  {| name := js "demo-book.epub"; arrayBuffer := Some demo_epub |}.

Definition unindexed_file : File :=
  {| name := js "other_book.epub"; arrayBuffer := Some unindexed_epub |}.

Definition other_file : File :=
  {| name := js "other.epub"; arrayBuffer := Some other_epub |}.

Definition failing_file : File :=
  {| name := js "broken.epub"; arrayBuffer := Some failing_epub |}.

Definition demo_location : Location :=
  {| start_cfi := js "epubcfi(/6/4!/4/2)"; start_href := Some (js "ch1.xhtml") |}.

Definition demo_session : SessionPayload :=
  {| token := js "t0k3n";
     user := {| user_id := js "u1"; email := js "a@b.com";
                displayName := js "ab"; createdAt := None |} |}.

(** The page of a signed-in user, before any book is opened. *)
Definition signed_in : State :=
  updateAuthUI (set_session (Some demo_session) (initial_state ∅)).

(** The library does nothing between the resumptions of a load. *)
Definition quiet : list (list LibraryEvent) :=
  [[]; []; []; []; []; []].

(** *** The invariant of a load that runs on its own

    [s0] is the state in which [openBook] was called.  The objects are
    told by their [destroyed] flags, in the order of their handles. *)
Definition book_flags (s : State) : list bool := bk_destroyed <$> books s.

Definition rendition_flags (s : State) : list bool :=
  rd_destroyed <$> renditions s.

(** [found] are the flags of the objects the call has found, as
    [resetBook] has left them.  Either the call has made no object and
    the variable is null, or it has made one, which is live and which the
    variable refers to. *)
Definition held (found flags : list bool) (var : option handle) : Prop :=
  (flags = found ∧ var = None) ∨
  (flags = found ++ [false] ∧ var = Some (length found)).

(** While the call is suspended, and when it has returned: the objects it
    has found are as [resetBook] has left them, the ones it has made are
    live and held. *)
Definition holding (s0 s : State) : Prop :=
  held (book_flags (resetBook s0)) (book_flags s) (book s) ∧
  held (rendition_flags (resetBook s0)) (rendition_flags s) (rendition s).

(** While the call is suspended nothing has been logged either. *)
Definition loading (s0 s : State) : Prop :=
  holding s0 s ∧ console s = console s0.

(** The location index of the book held has not been touched:
    [generate] has not been called on it. *)
Definition unindexed (s : State) : Prop :=
  ∀ b o, book s = Some b → books s !! b = Some o →
         bk_locations_length o = 0 ∧ bk_generating o = false.

(** The library calls made by the part of [openBook] that follows
    [await book.ready] all return. *)
Definition renders (e : Epub) : bool :=
  renderTo_returns e && themes_default_returns e &&
  on_rendered_returns e && on_relocated_returns e.

(** What is known at each [await]: the steps before it succeeded on the
    epub of the file, the promise awaited is that epub's, and the variables
    refer to the objects made from it. *)
Definition stage (file : File) (a : Await) (s : State) : Prop :=
  match a with
  | AwaitArrayBuffer p =>
      p = arrayBuffer file ∧ book s = None ∧ rendition s = None
  | AwaitReady p =>
      ∃ e, arrayBuffer file = Some e ∧ ePub_returns e = true ∧
           p = ready e ∧ book_epub s = Some e ∧ rendition s = None ∧
           unindexed s
  | AwaitNavigation p =>
      ∃ e, arrayBuffer file = Some e ∧ ePub_returns e = true ∧
           ready e = true ∧ renders e = true ∧
           p = loaded_navigation e ∧
           book_epub s = Some e ∧ rendition_epub s = Some e ∧
           unindexed s
  | AwaitDisplay p =>
      ∃ e, arrayBuffer file = Some e ∧ ePub_returns e = true ∧
           ready e = true ∧ renders e = true ∧
           is_Some (loaded_navigation e) ∧
           p = display_resolves e ∧
           book_epub s = Some e ∧ rendition_epub s = Some e ∧
           unindexed s
  | AwaitMetadata p =>
      ∃ e, arrayBuffer file = Some e ∧ ePub_returns e = true ∧
           ready e = true ∧ renders e = true ∧
           is_Some (loaded_navigation e) ∧ display_resolves e = true ∧
           p = loaded_metadata e ∧
           book_epub s = Some e ∧ rendition_epub s = Some e ∧
           unindexed s
  | AwaitGenerate b p =>
      ∃ e, arrayBuffer file = Some e ∧ loads file = true ∧
           p = locations_generate e ∧
           book s = Some b ∧ epub_of b s = Some e ∧
           rendition_epub s = Some e
  end.

(** How far a suspended call is. *)
Definition rank (a : Await) : nat :=
  match a with
  | AwaitArrayBuffer _ => 0
  | AwaitReady _ => 1
  | AwaitNavigation _ => 2
  | AwaitDisplay _ => 3
  | AwaitMetadata _ => 4
  | AwaitGenerate _ _ => 5
  end.

(** The file reaches the construction of a book object. *)
Definition constructs (file : File) : bool :=
  match arrayBuffer file with
  | Some e => ePub_returns e
  | None => false
  end.

(** What is known when the call has returned. *)
Definition settled (s0 : State) (file : File) (s : State) : Prop :=
  holding s0 s ∧
  if loads file then
    statusEl (dom s) = js "use arrows, nav, or scroll freely" ∧
    is_Some (book s) ∧ is_Some (rendition s) ∧
    match arrayBuffer file ≫= locations_generate with
    | Some n => console s = console s0 ∧ locations_length s = n
    | None =>
        console s = console s0 ++
                    [console_warn (js "locations unavailable")
                                  (Rejected "book.locations.generate")]
    end
  else
    statusEl (dom s) = js "unable to load epub" ∧
    (∃ e, console s = console s0 ++ [console_error e]) ∧
    (constructs file = false → idle s) ∧
    (constructs file = true → is_Some (book s)).

(** What one resumption of a load that runs on its own establishes. *)
Definition resumed (s0 : State) (file : File) (a : Await)
  (r : State * option Task) : Prop :=
  match r with
  | (s', Some t') =>
      task_file t' = file ∧ loading s0 s' ∧ stage file (task_await t') s' ∧
      rank (task_await t') = S (rank a)
  | (s', None) => settled s0 file s' ∧ (loads file = true → rank a = 5)
  end.

(** The invariant, with the epub the variables [book] and [rendition]
    stand for. *)
Definition kept {s0 : State} (e : Epub) (s : State) : Prop :=
  loading s0 s ∧ rendition_epub s = Some e ∧ book_epub s = Some e ∧
  unindexed s.


(** The page once [demo_file] has been loaded, with no event on the way. *)
Definition demo_ready : State := fst (load demo_file quiet signed_in).

Definition demo_book : BookObj :=
  {| bk_epub := demo_epub; bk_destroyed := false; bk_locations_length := 12;
     bk_generating := false |}.

Definition demo_rendition : RenditionObj :=
  {| rd_book := 0; rd_destroyed := false; rd_theme := true;
     rd_on_rendered := true; rd_on_relocated := true;
     rd_calls := [CallDisplay None] |}.

(** The load of [demo_file] when it is suspended on the generation of the
    location index, and the page then. *)
Definition demo_generating : Task :=
  {| task_file := demo_file; task_await := AwaitGenerate 0 (Some 12) |}.

Definition generating : State :=
  fst (load demo_file (replicate 5 []) signed_in).

(** The page after the failed load of [failing_file], and after the load
    of [unindexed_file]. *)
Definition after_failure : State := fst (load failing_file quiet signed_in).

Definition unindexed_ready : State := fst (load unindexed_file quiet signed_in).

(** The load of [other_file] when it is suspended on the generation of
    the location index. *)
Definition other_generating : State :=
  fst (load other_file (replicate 5 []) signed_in).


(** Two calls of [openBook] that overlap.  [demo_file] is chosen, and
    [other_file] before the bytes of [demo_file] have been read; the load
    of [other_file] runs to its end; then the bytes of [demo_file]
    arrive and the first call, superseded, runs to its end in turn. *)
Definition overlap_trace : list Action :=
  [ fileInput_change (Some [demo_file]);
    fileInput_change (Some [other_file]);
    settles 1; settles 1; settles 1; settles 1; settles 1; settles 1 ].

Definition superseding : Config :=
  steps overlap_trace {| st := signed_in; pending := [] |}.

Definition superseded : Config :=
  steps [settles 0; settles 0; settles 0; settles 0; settles 0; settles 0]
        superseding.

(** *** The rest of the page: requests, forms *)

(** [const API_BASE = import.meta.env.VITE_API_BASE ?? 'http://localhost:4000'] *)
Definition API_BASE (VITE_API_BASE : option jsstring) : jsstring :=
  default (js "http://localhost:4000") VITE_API_BASE.

(** The [init] argument of [callApi].  A [Headers] object holds one value
    per header name and compares names without case: it is a map keyed by
    the name in lower case. *)
Record RequestInit := {
  init_method : option jsstring;
  init_body : option jsstring;
  init_headers : gmap jsstring jsstring
}.

(** What [callApi] hands to [fetch]. *)
Record Request := {
  req_url : jsstring;
  req_method : option jsstring;
  req_body : option jsstring;
  req_headers : gmap jsstring jsstring
}.

(** A string in a condition: undefined and the empty string are false. *)
Definition truthy (v : option jsstring) : bool :=
  match v with
  | Some (_ :: _) => true
  | _ => false
  end.

(** [headers.set(name, value)] for one of the two names [callApi] sets.
    The value becomes a byte string, which fails with a TypeError when a
    code unit is above 255; HTTP white space (tab, line feed, carriage
    return, space) is removed at both ends; what is left is refused with
    a TypeError when it holds NUL, a line feed or a carriage return. *)
Definition is_http_space (c : N) : bool :=
  ((c =? 9) || (c =? 10) || (c =? 13) || (c =? 32))%N.

Fixpoint strip_start (s : jsstring) : jsstring :=
  match s with
  | c :: t => if is_http_space c then strip_start t else s
  | [] => []
  end.

Definition normalize (value : jsstring) : jsstring :=
  rev (strip_start (rev (strip_start value))).

Definition is_byte_string (value : jsstring) : bool :=
  forallb (fun c => (c <=? 255)%N) value.

Definition is_header_value (value : jsstring) : bool :=
  forallb (fun c => negb ((c =? 0) || (c =? 10) || (c =? 13))%N) value.

Definition Headers_set (name value : jsstring)
  (headers : gmap jsstring jsstring) : option (gmap jsstring jsstring) :=
  if is_byte_string value && is_header_value (normalize value)
  then Some (<[name := normalize value]> headers)
  else None.

(** [callApi] up to [await fetch(...)]: the request handed to [fetch], or
    [None] when [headers.set] throws, which rejects the promise of
    [callApi] before [fetch] is called. *)
Definition callApi_request (VITE_API_BASE : option jsstring)
  (path : jsstring) (init : RequestInit) (s : State) : option Request :=
  let headers := init_headers init in
  headers ←
    (if truthy (init_body init) &&
        negb (bool_decide (is_Some (headers !! js "content-type")))
     then Headers_set (js "content-type") (js "application/json") headers
     else Some headers);
  headers ←
    (if truthy (token <$> session s)
     then Headers_set (js "authorization")
            (js "Bearer " ++ default [] (token <$> session s)) headers
     else Some headers);
  Some {| req_url := API_BASE VITE_API_BASE ++ path;
          req_method := init_method init;
          req_body := init_body init;
          req_headers := headers |}.

(** What [response.json()] gives: a rejection (the body is not JSON), the
    value null, or another value, of which [callApi] reads the property
    [message] ([Some] when it is a string). *)
Inductive Body (T : Type) :=
| body_unparseable
| body_null
| body_value (message : option jsstring) (value : T).
Arguments body_unparseable {T}.
Arguments body_null {T}.
Arguments body_value {T} message value.

Record Response (T : Type) := {
  ok : bool;
  body : Body T
}.
Arguments ok {T} r.
Arguments body {T} r.

(** What [callApi] returns: [{}] after [catch(() => ({}))], null, or the
    parsed body. *)
Inductive Parsed (T : Type) :=
| parsed_empty
| parsed_null
| parsed_value (value : T).
Arguments parsed_empty {T}.
Arguments parsed_null {T}.
Arguments parsed_value {T} value.

(** What it throws: [new Error(message)], the TypeError of reading
    [message] of null, or the error [fetch] rejected with. *)
Inductive ApiError :=
| api_Error (message : jsstring)
| api_TypeError
| api_fetch (error : jsstring).

(** [callApi] from the settled [fetch] on; [inl] is a rejected [fetch]. *)
Definition callApi_settle {T} (fetched : jsstring + Response T)
  : ApiError + Parsed T :=
  match fetched with
  | inl error => inl (api_fetch error)
  | inr response =>
      if ok response then
        inr match body response with
            | body_unparseable => parsed_empty
            | body_null => parsed_null
            | body_value _ v => parsed_value v
            end
      else
        inl match body response with
            | body_unparseable => api_Error (js "request failed")
            | body_null => api_TypeError
            | body_value (Some message) _ => api_Error message
            | body_value None _ => api_Error (js "request failed")
            end
  end.

(** [formToPayload]: the entries of the form, in order, each value
    trimmed and stored under its name.  [payload] is a plain object: an
    assignment to the name [__proto__] goes to the setter inherited from
    [Object.prototype], which ignores a string, and adds no property. *)
Definition formToPayload (entries : list (jsstring * jsstring))
  : gmap jsstring jsstring :=
  fold_left
    (fun payload e =>
       if bool_decide (fst e = js "__proto__") then payload
       else <[fst e := trim (snd e)]> payload)
    entries ∅.

(** *** Notions for the further properties *)

(** The nodes of a table of contents in pre-order, each with its depth. *)
Fixpoint preorder_item_at (depth : nat) (item : NavItem)
  : list (nat * NavItem) :=
  match item with
  | mkNavItem _ _ _ sub =>
      (depth, item) ::
      match sub with
      | Some items => flat_map (preorder_item_at (S depth)) items
      | None => []
      end
  end.

Definition preorder_at (depth : nat) (items : list NavItem)
  : list (nat * NavItem) :=
  flat_map (preorder_item_at depth) items.

(** The button [paint] makes for a node. *)
Definition toc_link (dn : nat * NavItem) : TocChild :=
  TocLink (fst dn) (label (snd dn)) (href (snd dn)).

(** The name of the file ends in ".epub", whatever the case. *)
Definition is_epub (f : File) : bool :=
  endsWith (toLowerCase (name f)) (js ".epub").

(** The table of contents of an epub, [[]] when [navigation.toc] is
    missing. *)
Definition toc_of (e : Epub) : list NavItem :=
  match loaded_navigation e with
  | Some (Some items) => items
  | _ => []
  end.

(** The meta line of a loaded book: the trimmed title, or the humanized
    file name when the title is missing or blank; then the trimmed
    creator, unless missing or blank. *)
Definition meta_text (file : File) (metadata : Metadata) : jsstring :=
  let t := match trim <$> title metadata with
           | Some ((_ :: _) as t) => t
           | _ => cleanText (name file)
           end in
  match trim <$> creator metadata with
  | Some ((_ :: _) as a) => t ++ js " / " ++ a
  | _ => t
  end.

(** What a load that runs on its own has put in place when its call is
    suspended at the await of rank [n]. *)
Definition progress (file : File) (e : Epub) (n : nat) (s : State) : Prop :=
  (1 ≤ n → ∃ b o, book s = Some b ∧ books s !! b = Some o ∧
                  bk_epub o = e ∧ bk_destroyed o = false) ∧
  (2 ≤ n → ∃ b r o, book s = Some b ∧ rendition s = Some r ∧
                    renditions s !! r = Some o ∧ rd_book o = b ∧
                    rd_destroyed o = false ∧ rd_theme o = true ∧
                    rd_on_rendered o = true ∧ rd_on_relocated o = true) ∧
  (n ≤ 2 → navLabels s = ∅) ∧
  (3 ≤ n → navLabels s = fold_left store (preorder (toc_of e)) ∅ ∧
           ∃ r o, rendition s = Some r ∧ renditions s !! r = Some o ∧
                  CallDisplay None ∈ rd_calls o) ∧
  (5 ≤ n → ∀ metadata, loaded_metadata e = Some metadata →
           metaEl (dom s) = meta_text file metadata).

(** Projections of a state built by the setters. *)
Ltac project :=
  cbn [task_await task_file fst snd
       session book rendition navLabels currentLabel dom localStorage
       console books renditions
       set_session set_book set_rendition set_navLabels set_currentLabel
       set_dom set_localStorage set_console set_books set_renditions] in *.

(** *** Examples for the further properties *)

(** A file that is no epub, by its name. *)
Definition notes_file : File :=
  {| name := js "notes.txt"; arrayBuffer := None |}.

(** The page of [demo_ready] before the table of contents is rendered. *)
Definition unpainted : State := set_navLabels ∅ demo_ready.

(** The page at start, with a session left in the storage by an earlier
    visit. *)
Definition returning : State :=
  initial_state {[ SESSION_KEY := js "stored" ]}.

(** * Properties *)

(** ** Trimming *)

Lemma rev_is_reverse {A} (l : list A) : rev l = reverse l.
Proof. unfold reverse. apply rev_alt. Qed.

Lemma trimStart_split s :
  ∃ p, s = p ++ trimStart s ∧ forallb is_space p = true.
Proof.
  induction s as [|c t (p & Hp & Hsp)]; [by exists []|]. simpl.
  destruct (is_space c) eqn:Hc.
  - exists (c :: p). simpl. rewrite Hc, Hsp. by rewrite Hp at 1.
  - by exists [].
Qed.

Lemma trimStart_head s c : head (trimStart s) = Some c → is_space c = false.
Proof.
  induction s as [|d t IH]; simpl; [done|].
  destruct (is_space d) eqn:Hd; [done|]. simpl. by intros [= <-].
Qed.

Lemma trimStart_id s :
  (∀ c, head s = Some c → is_space c = false) → trimStart s = s.
Proof.
  destruct s as [|c t]; [done|]. intros H. simpl. by rewrite (H c).
Qed.

Lemma trimStart_nil s : trimStart s = [] ↔ forallb is_space s = true.
Proof.
  induction s as [|c t IH]; simpl; [done|].
  destruct (is_space c); simpl; [done|]. split; done.
Qed.

Lemma trimEnd_split s :
  ∃ q, s = trimEnd s ++ q ∧ forallb is_space q = true.
Proof.
  unfold trimEnd. destruct (trimStart_split (rev s)) as (p & Hp & Hsp).
  exists (rev p). split.
  - rewrite <- rev_app_distr, <- Hp. by rewrite rev_involutive.
  - rewrite forallb_forall in *. intros x Hx. apply Hsp. by apply in_rev.
Qed.

Lemma trimEnd_last s c : last (trimEnd s) = Some c → is_space c = false.
Proof.
  unfold trimEnd. rewrite rev_is_reverse, last_reverse. apply trimStart_head.
Qed.

Lemma trimEnd_id s :
  (∀ c, last s = Some c → is_space c = false) → trimEnd s = s.
Proof.
  intros H. unfold trimEnd. rewrite trimStart_id; [apply rev_involutive|].
  intros c. rewrite rev_is_reverse, head_reverse. apply H.
Qed.

Lemma trimEnd_head s c :
  head s = Some c → is_space c = false → head (trimEnd s) = Some c.
Proof.
  intros Hh Hc. destruct (trimEnd_split s) as (q & Hs & Hq).
  destruct (trimEnd s) as [|d t]; [|by rewrite Hs in Hh].
  simpl in Hs. subst q. destruct s as [|d t]; [done|].
  simpl in Hh, Hq. injection Hh as ->. by rewrite Hc in Hq.
Qed.

Lemma trim_trimmed s : trimmed (trim s).
Proof.
  unfold trim. split; [|apply trimEnd_last].
  intros c Hc. destruct (trimStart s) as [|d t] eqn:E; [done|].
  assert (is_space d = false) as Hd by (apply (trimStart_head s); by rewrite E).
  rewrite (trimEnd_head (d :: t) d eq_refl Hd) in Hc. by injection Hc as <-.
Qed.

Lemma trim_id s : trimmed s → trim s = s.
Proof.
  intros [Hh Hl]. unfold trim. rewrite trimStart_id by done.
  by apply trimEnd_id.
Qed.

Lemma trim_idem s : trim (trim s) = trim s.
Proof. apply trim_id, trim_trimmed. Qed.

Lemma trim_nil s : trim s = [] ↔ forallb is_space s = true.
Proof.
  unfold trim. split.
  - intros H. destruct (trimEnd_split (trimStart s)) as (q & Hq & Hsp).
    rewrite H in Hq. simpl in Hq. rewrite <- Hq in Hsp.
    destruct (trimStart_split s) as (p & Hp & Hspp).
    rewrite Hp, forallb_app, Hspp. exact Hsp.
  - intros H. apply trimStart_nil in H. by rewrite H.
Qed.

Lemma trim_elem s c : c ∈ trim s → c ∈ s.
Proof.
  unfold trim. intros H.
  destruct (trimEnd_split (trimStart s)) as (q & Hq & _).
  destruct (trimStart_split s) as (p & Hp & _).
  rewrite Hp, Hq. rewrite !elem_of_app. auto.
Qed.

Lemma trim_trimmed_of s : trimmed_of s (trim s).
Proof.
  destruct (trimStart_split s) as (p & Hp & Hsp).
  destruct (trimEnd_split (trimStart s)) as (q & Hq & Hsq).
  exists p, q. split; [|split; [done|split; [done|apply trim_trimmed]]].
  unfold trim. by rewrite <- Hq.
Qed.

(** ** cleanHref and cleanText *)

Lemma split_first_idem sep s :
  split_first sep (split_first sep s) = split_first sep s.
Proof.
  induction s as [|c t IH]; simpl; [done|].
  destruct (N.eqb_spec c sep) as [->|Hne]; simpl; [done|].
  destruct (N.eqb_spec c sep); [done|]. by rewrite IH.
Qed.

Lemma cleanHref_idem h : cleanHref (cleanHref h) = cleanHref h.
Proof. apply split_first_idem. Qed.

Lemma split_pop_from_no_sep sep cur s :
  sep ∉ s → split_pop_from sep cur s = cur ++ s.
Proof.
  revert cur. induction s as [|c t IH]; intros cur Hs; simpl.
  - by rewrite app_nil_r.
  - apply not_elem_of_cons in Hs as [Hc Ht].
    destruct (N.eqb_spec c sep) as [->|_]; [done|].
    rewrite IH by done. by rewrite <- app_assoc.
Qed.

Lemma split_pop_from_last sep cur a b :
  sep ∉ b → split_pop_from sep cur (a ++ sep :: b) = b.
Proof.
  revert cur. induction a as [|c t IH]; intros cur Hb; simpl.
  - rewrite N.eqb_refl. by apply split_pop_from_no_sep.
  - destruct (c =? sep)%N; by apply IH.
Qed.

Lemma replace_extension_strip stem ext :
  46%N ∉ ext → ext ≠ [] → replace_extension (stem ++ 46%N :: ext) = stem.
Proof.
  intros Hdot Hne. induction stem as [|c t IH]; simpl.
  - replace (forallb (fun _ => false) ext) with false by by destruct ext.
    replace (forallb (fun d => negb (d =? 46)%N) ext) with true; [done|].
    symmetry. apply forallb_forall. intros d Hd.
    apply list_elem_of_In in Hd.
    destruct (N.eqb_spec d 46) as [->|]; [done|done].
  - replace (forallb (fun d => negb (d =? 46)%N) (t ++ 46%N :: ext)) with false.
    + rewrite !andb_false_r. by rewrite IH.
    + symmetry. apply not_true_iff_false. intros H.
      rewrite forallb_forall in H. specialize (H 46%N).
      rewrite N.eqb_refl in H. discriminate H.
      apply in_or_app. right. by left.
Qed.

Lemma replace_dash_underscore_app a b :
  replace_dash_underscore (a ++ b) =
  replace_dash_underscore a ++ replace_dash_underscore b.
Proof. apply List.map_app. Qed.

Lemma replace_dash_underscore_no_dot s :
  46%N ∉ s → 46%N ∉ replace_dash_underscore s.
Proof.
  induction s as [|c t IH]; simpl; [done|].
  intros [Hc Ht]%not_elem_of_cons. apply not_elem_of_cons. split; [|auto].
  destruct ((c =? 45)%N || (c =? 95)%N); [done|done].
Qed.

Lemma replace_dash_underscore_spaced s :
  Forall2 spaced s (replace_dash_underscore s).
Proof.
  induction s as [|c t IH]; simpl; constructor; [|exact IH].
  unfold spaced. destruct (N.eqb_spec c 45) as [->|H1]; [done|].
  destruct (N.eqb_spec c 95) as [->|H2]; [done|]. simpl.
  rewrite bool_decide_eq_false_2; [done|]. by intros [?|?].
Qed.

(** C9. [cleanText] (the spec's humanize) maps "chapters/intro_01.xhtml" to
    "intro 01" and "chapters/ the-first_part .xhtml" to "the first part";
    in general, for a reference [dir/stem.ext] the result is the last path
    segment without its extension, in which every '-' and every '_' has
    become a space and the other code units are as they were, without the
    white space at its two ends. *)
Theorem cleanText_humanize :
  cleanText (js "chapters/intro_01.xhtml") = js "intro 01" ∧
  cleanText (js "chapters/ the-first_part .xhtml") = js "the first part" ∧
  ∀ dir stem ext : jsstring,
    47%N ∉ stem → 47%N ∉ ext → 46%N ∉ ext → ext ≠ [] →
    ∃ replaced,
      Forall2 spaced stem replaced ∧
      trimmed_of replaced
        (cleanText (dir ++ js "/" ++ stem ++ js "." ++ ext)).
Proof.
  split; [vm_compute; reflexivity|]. split; [vm_compute; reflexivity|].
  intros dir stem ext Hs He Hd Hne.
  exists (replace_dash_underscore stem).
  split; [apply replace_dash_underscore_spaced|].
  unfold cleanText, split_pop. simpl.
  rewrite split_pop_from_last.
  - rewrite replace_dash_underscore_app. simpl.
    rewrite replace_extension_strip; [apply trim_trimmed_of| |].
    + by apply replace_dash_underscore_no_dot.
    + by destruct ext.
  - rewrite elem_of_app. intros [H|H]; [done|].
    apply elem_of_cons in H as [H|H]; [discriminate H|done].
Qed.

(** ** The label index *)

Lemma NavItem_ind (P : NavItem → Prop) :
  (∀ i h l sub, Forall P (default [] sub) → P (mkNavItem i h l sub)) →
  ∀ item, P item.
Proof.
  intros step. fix IH 1. intros [i h l sub]. apply step.
  destruct sub as [items|]; simpl; [|constructor].
  induction items as [|x items IHitems]; constructor.
  - apply IH.
  - exact IHitems.
Qed.

Lemma paint_items_labels depth items :
  Forall (fun item => ∀ d acc,
            fst (paint_item d item acc) =
            fold_left store (preorder_item item) (fst acc)) items →
  ∀ acc, fst (fold_left (fun a i => paint_item depth i a) items acc) =
         fold_left store (flat_map preorder_item items) (fst acc).
Proof.
  induction 1 as [|item items Hitem _ IH]; intros acc; simpl; [done|].
  by rewrite IH, fold_left_app, Hitem.
Qed.

Lemma paint_item_labels item :
  ∀ depth acc,
    fst (paint_item depth item acc) =
    fold_left store (preorder_item item) (fst acc).
Proof.
  induction item as [i h l sub IH] using NavItem_ind. intros depth acc.
  destruct sub as [[|x items]|]; try done.
  cbn [paint_item preorder_item].
  by rewrite (paint_items_labels (S depth) (x :: items) IH).
Qed.

Lemma paint_labels items depth acc :
  fst (paint items depth acc) = fold_left store (preorder items) (fst acc).
Proof.
  apply paint_items_labels, Forall_forall. intros item _ d a.
  apply paint_item_labels.
Qed.

Lemma renderToc_navLabels items s :
  navLabels (renderToc items s) = fold_left store (preorder items) (navLabels s).
Proof.
  unfold renderToc. destruct items as [|x items]; [done|].
  destruct (paint (x :: items) 0 _) as [labels fragment] eqn:E.
  simpl. change labels with (fst (labels, fragment)).
  by rewrite <- E, paint_labels.
Qed.

(** After a sequence of stores, a key holds what the last store under it
    wrote, or what it held before when there was none. *)
Lemma fold_store_lookup nodes m key :
  fold_left store nodes m !! key =
  match last (filter (fun n => cleanHref (href n) = key) nodes) with
  | Some w => Some (trim (label w))
  | None => m !! key
  end.
Proof.
  induction nodes as [|n nodes IH] using rev_ind; [done|].
  rewrite fold_left_app, filter_app, last_app. simpl. unfold store at 1.
  rewrite filter_cons, filter_nil.
  destruct (decide (cleanHref (href n) = key)) as [<-|Hne]; simpl.
  - by rewrite lookup_insert_eq.
  - by rewrite lookup_insert_ne, IH.
Qed.

(** C6. Once [renderToc] has built the label index from a table of
    contents, whatever the map held before, every reference of the tree
    (with or without a fragment) resolves, and to the label, without the
    white space at its two ends, of the last node in pre-order whose href
    without fragment is that reference. *)
Theorem label_index_last_writer_wins
  (items : list NavItem) (s : State) (n : NavItem) (reference : jsstring) :
  n ∈ preorder items →
  cleanHref reference = cleanHref (href n) →
  ∃ w v, last_visit (cleanHref (href n)) items = Some w ∧
         resolve (renderToc items s) reference = Some v ∧
         trimmed_of (label w) v.
Proof.
  intros Hn Href. unfold resolve, last_visit.
  rewrite renderToc_navLabels, fold_store_lookup, Href.
  destruct (last _) as [w|] eqn:Hlast.
  { exists w, (trim (label w)). split; [done|]. split; [done|].
    apply trim_trimmed_of. }
  apply last_None in Hlast.
  assert (n ∈ filter (fun x => cleanHref (href x) = cleanHref (href n))
                     (preorder items)) as Hin
    by by apply list_elem_of_filter.
  rewrite Hlast in Hin. by apply elem_of_nil in Hin.
Qed.

(** ** The progress percentage *)

(** *** Rounding to binary64 *)

Local Open Scope Z_scope.

Lemma digits2_pos_size p : digits2_pos p = Pos.size p.
Proof. induction p; simpl; congruence. Qed.

Lemma Zdigits2_log2 p : Zdigits2 (Z.pos p) = Z.log2 (Z.pos p) + 1.
Proof.
  simpl. rewrite digits2_pos_size. destruct p; simpl; lia.
Qed.

(** A positive [m] has [Zdigits2 m] binary digits. *)
Lemma Zdigits2_bounds p :
  2 ^ (Zdigits2 (Z.pos p) - 1) ≤ Z.pos p < 2 ^ Zdigits2 (Z.pos p).
Proof.
  rewrite Zdigits2_log2. replace (Z.log2 (Z.pos p) + 1 - 1) with (Z.log2 (Z.pos p)) by lia.
  pose proof (Z.log2_spec (Z.pos p) ltac:(lia)) as H.
  replace (Z.succ (Z.log2 (Z.pos p))) with (Z.log2 (Z.pos p) + 1) in H by lia.
  exact H.
Qed.

(** What [k] steps of [shr_1] have made of [m]. *)
Definition shifted (m k : Z) (mrs : shr_record) : Prop :=
  shr_m mrs = m / 2 ^ k ∧
  (m mod 2 ^ k = 0 → shr_r mrs = false ∧ shr_s mrs = false).

Lemma shr_1_shifted m k mrs :
  0 ≤ m → 0 ≤ k → shifted m k mrs → shifted m (k + 1) (shr_1 mrs).
Proof.
  intros Hm Hk [Hq Hex].
  assert (0 < 2 ^ k) as Hpos by (apply Z.pow_pos_nonneg; lia).
  assert (0 ≤ m / 2 ^ k) as Hq0 by (apply Z.div_pos; lia).
  assert (2 ^ (k + 1) = 2 ^ k * 2) as Hpow by (rewrite Z.pow_add_r by lia; lia).
  assert (m / 2 ^ (k + 1) = m / 2 ^ k / 2) as Hdiv
    by (rewrite Hpow, Z.div_div by lia; done).
  destruct mrs as [q r s]. simpl in Hq, Hex. subst q.
  assert (m mod 2 ^ (k + 1) = 0 →
          m mod 2 ^ k = 0 ∧ Z.odd (m / 2 ^ k) = false) as Hstep.
  { intros H. rewrite Hpow in H.
    pose proof (Z.div_mod m (2 ^ k * 2) ltac:(lia)) as E. rewrite H in E.
    assert (m = 2 ^ k * (2 * (m / (2 ^ k * 2)))) as E' by lia.
    split.
    - rewrite E'. rewrite Z.mul_comm. apply Z.mod_mul. lia.
    - rewrite E' at 1. rewrite Z.mul_comm, Z.div_mul by lia.
      rewrite Z.odd_mul. done. }
  unfold shifted. rewrite Hdiv.
  destruct (m / 2 ^ k) as [|p|p] eqn:E; [| |lia].
  - simpl. split; [done|]. intros H. destruct (Hstep H) as [H1 _].
    destruct (Hex H1) as [-> ->]. done.
  - destruct p as [p|p|]; simpl.
    + split; [by rewrite Pos2Z.inj_xI, Z.mul_comm, Z.div_add_l by lia|].
      intros H. by destruct (Hstep H) as [_ H2].
    + split; [by rewrite Pos2Z.inj_xO, Z.mul_comm, Z.div_mul by lia|].
      intros H. destruct (Hstep H) as [H1 _]. destruct (Hex H1) as [-> ->]. done.
    + split; [done|]. intros H. by destruct (Hstep H) as [_ H2].
Qed.

Lemma iter_pos_shifted m p :
  0 ≤ m → ∀ k mrs, 0 ≤ k → shifted m k mrs →
  shifted m (k + Z.pos p) (SpecFloat.iter_pos shr_1 p mrs).
Proof.
  intros Hm. induction p as [p IH|p IH|]; intros k mrs Hk H; simpl.
  - replace (k + Z.pos p~1) with (k + 1 + Z.pos p + Z.pos p) by lia.
    apply IH; [lia|]. apply IH; [lia|]. by apply shr_1_shifted.
  - replace (k + Z.pos p~0) with (k + Z.pos p + Z.pos p) by lia.
    apply IH; [lia|]. by apply IH.
  - by apply shr_1_shifted.
Qed.

(** [shr_fexp] of an exact [m]: the quotient by a power of two, and whether
    it is exact. *)
Lemma shr_fexp_exact m e :
  0 ≤ m →
  let n := Z.max 0 (fexp 53 1024 (Zdigits2 m + e) - e) in
  let '(mrs, e') := shr_fexp 53 1024 m e loc_Exact in
  e' = e + n ∧ shr_m mrs = m / 2 ^ n ∧
  (m mod 2 ^ n = 0 → loc_of_shr_record mrs = loc_Exact).
Proof.
  intros Hm n. unfold shr_fexp, shr. subst n.
  destruct (fexp 53 1024 (Zdigits2 m + e) - e) as [|p|p] eqn:E; simpl.
  - rewrite Z.div_1_r. split; [lia|done].
  - pose proof (iter_pos_shifted m p Hm 0
                  {| shr_m := m; shr_r := false; shr_s := false |}
                  ltac:(lia)) as [H1 H2].
    { split; simpl; [by rewrite Z.div_1_r|done]. }
    split; [lia|]. split; [exact H1|]. intros H. destruct (H2 H) as [Hr Hs].
    destruct (SpecFloat.iter_pos shr_1 p _) as [q r s]. simpl in *. by subst.
  - rewrite Z.div_1_r. split; [lia|done].
Qed.

Lemma round_nearest_even_le m l :
  m ≤ round_nearest_even m l ≤ m + 1 ∧
  (l = loc_Exact → round_nearest_even m l = m).
Proof.
  destruct l as [|[]]; simpl; try destruct (Z.even m); split; try done; lia.
Qed.

(** A positive mantissa whose value is at most [2 ^ 7] has few digits. *)
Lemma digits_le m e c :
  0 < m → 0 ≤ c → m ≤ 2 ^ c → Zdigits2 m + e ≤ c + e + 1.
Proof.
  intros Hm Hc Hle. destruct m as [|p|p]; [lia| |lia].
  pose proof (Zdigits2_bounds p) as [H _].
  destruct (Z.le_gt_cases (Zdigits2 (Z.pos p) - 1) c) as [|Hgt]; [lia|].
  assert (2 ^ c < 2 ^ (Zdigits2 (Z.pos p) - 1))
    by (apply Z.pow_lt_mono_r; lia). lia.
Qed.

Lemma fexp_le x : x ≤ 7 → -1074 ≤ fexp 53 1024 x ≤ -46.
Proof. unfold fexp, emin. lia. Qed.

Lemma pow_split a b : 0 ≤ a → 0 ≤ b → 2 ^ (a + b) = 2 ^ a * 2 ^ b.
Proof. intros. by rewrite Z.pow_add_r. Qed.

(** A positive mantissa at most [100 * 2 ^ (- e)] has at most [7 - e]
    digits. *)
Lemma digits_le_100 m e :
  0 < m → e < 0 → m ≤ 100 * 2 ^ (- e) → Zdigits2 m + e ≤ 7.
Proof.
  intros Hm He Hle. destruct m as [|p|p]; [lia| |lia].
  pose proof (Zdigits2_bounds p) as [H _].
  assert (0 < 2 ^ (- e)) as Hpos by (apply Z.pow_pos_nonneg; lia).
  assert (Z.pos p < 2 ^ (7 - e)) as Hlt.
  { replace (7 - e) with (7 + - e) by lia. rewrite pow_split by lia.
    change (2 ^ 7) with 128. lia. }
  destruct (Z.le_gt_cases (Zdigits2 (Z.pos p) - 1) (7 - e - 1)) as [|Hgt]; [lia|].
  assert (2 ^ (7 - e) ≤ 2 ^ (Zdigits2 (Z.pos p) - 1))
    by (apply Z.pow_le_mono_r; lia). lia.
Qed.

(** Rounding to binary64 a positive real [m * 2 ^ e], with [e] negative,
    that is at most 100: the result is finite, not negative, and at most
    100. *)
Lemma binary_round_aux_le_100 (m : positive) (e : Z) :
  e < 0 → Z.pos m ≤ 100 * 2 ^ (- e) →
  let r := binary_round_aux 53 1024 false (Z.pos m) e loc_Exact in
  finite r = true ∧ (0 <= real r)%Q ∧ (real r <= 100)%Q.
Proof.
  intros He Hle r. subst r. unfold binary_round_aux.
  pose proof (shr_fexp_exact (Z.pos m) e (Pos2Z.is_nonneg m)) as H1.
  cbv zeta in H1.
  destruct (shr_fexp 53 1024 (Z.pos m) e loc_Exact) as [mrs1 e1].
  destruct H1 as (He1 & Hm1 & Hx1).
  pose proof (fexp_le _ (digits_le_100 (Z.pos m) e ltac:(lia) He Hle)) as Hf1.
  set (n1 := Z.max 0 (fexp 53 1024 (Zdigits2 (Z.pos m) + e) - e)) in *.
  set (m2 := round_nearest_even (shr_m mrs1) (loc_of_shr_record mrs1)).
  assert (0 ≤ n1) as Hn1 by lia.
  assert (e1 < 0) as He1' by lia.
  assert (0 < 2 ^ n1) as Hp1 by (apply Z.pow_pos_nonneg; lia).
  assert (0 < 2 ^ (- e1)) as Hq1 by (apply Z.pow_pos_nonneg; lia).
  assert (2 ^ (- e) = 2 ^ (- e1) * 2 ^ n1) as Hsplit1
    by (rewrite <- pow_split by lia; f_equal; lia).
  assert (0 ≤ m2 ≤ 100 * 2 ^ (- e1)) as Hm2.
  { pose proof (round_nearest_even_le (shr_m mrs1) (loc_of_shr_record mrs1))
      as [[Hlo Hhi] Hex].
    fold m2 in Hlo, Hhi, Hex. rewrite Hm1 in Hlo, Hhi.
    assert (0 ≤ Z.pos m / 2 ^ n1) by (apply Z.div_pos; lia).
    split; [lia|].
    assert (Z.pos m / 2 ^ n1 ≤ 100 * 2 ^ (- e1)) as Hdiv
      by (apply Z.div_le_upper_bound; [lia|]; nia).
    destruct (Z.eq_dec (Z.pos m mod 2 ^ n1) 0) as [Hmod|Hmod].
    - rewrite (Hex (Hx1 Hmod)), Hm1. exact Hdiv.
    - destruct (Z.eq_dec (Z.pos m / 2 ^ n1) (100 * 2 ^ (- e1))) as [Heq|]; [|lia].
      exfalso. apply Hmod.
      pose proof (Z.div_mod (Z.pos m) (2 ^ n1) ltac:(lia)) as E.
      pose proof (Z.mod_pos_bound (Z.pos m) (2 ^ n1) ltac:(lia)). nia. }
  clearbody m2.
  pose proof (shr_fexp_exact m2 e1 (proj1 Hm2)) as H2. cbv zeta in H2.
  destruct (shr_fexp 53 1024 m2 e1 loc_Exact) as [mrs2 e2].
  destruct H2 as (He2 & Hm3 & _).
  set (n2 := Z.max 0 (fexp 53 1024 (Zdigits2 m2 + e1) - e1)) in *.
  assert (0 ≤ n2) as Hn2 by lia.
  assert (0 < 2 ^ n2) as Hp2 by (apply Z.pow_pos_nonneg; lia).
  rewrite Hm3.
  destruct (m2 / 2 ^ n2) as [|q|q] eqn:Hq.
  - simpl. split; [done|]. split; done.
  - assert (0 < m2) as Hm2pos.
    { destruct (Z.eq_dec m2 0) as [->|]; [|lia]. by rewrite Z.div_0_l in Hq by lia. }
    pose proof (fexp_le _ (digits_le_100 m2 e1 Hm2pos He1' (proj2 Hm2))) as Hf2.
    assert (e2 < 0) as He2' by lia.
    assert (2 ^ (- e1) = 2 ^ (- e2) * 2 ^ n2) as Hsplit2
      by (rewrite <- pow_split by lia; f_equal; lia).
    assert (0 < 2 ^ (- e2)) as Hq2 by (apply Z.pow_pos_nonneg; lia).
    assert (Z.pos q ≤ 100 * 2 ^ (- e2)) as Hle2.
    { rewrite <- Hq. apply Z.div_le_upper_bound; [lia|]. nia. }
    replace (e2 <=? 1024 - 53) with true by (symmetry; apply Z.leb_le; lia).
    destruct e2 as [|p|p]; [lia|lia|].
    simpl. split; [done|]. unfold Qle. simpl.
    split; [lia|]. rewrite Pos2Z.inj_pow. 
    change (- Z.neg p) with (Z.pos p) in Hle2. lia.
  - pose proof (Z.div_pos m2 (2 ^ n2) (proj1 Hm2) Hp2). lia.
Qed.

(** The product with 100 of a position between 0 and 1. *)
Lemma multiply_100_range (x : double) :
  valid x = true → finite x = true → (0 <= real x)%Q → (real x <= 1)%Q →
  let p := multiply x (Number_of_Z 100) in
  finite p = true ∧ (0 <= real p)%Q ∧ (real p <= 100)%Q.
Proof.
  intros Hv Hf H0 H1 p. subst p.
  change (Number_of_Z 100) with (S754_finite false 7036874417766400 (-46)).
  destruct x as [s|s| |s m e]; try done.
  unfold multiply, SFmul.
  assert (s = false) as ->.
  { destruct s; [|done]. exfalso. simpl in H0.
    destruct e; unfold Qle in H0; simpl in H0; lia. }
  assert (e < 0 ∧ Z.pos m ≤ 2 ^ (- e)) as [He Hm].
  { simpl in H1. destruct e as [|q|q].
    - rewrite Z.mul_1_r in H1. unfold Qle in H1. simpl in H1.
      unfold valid, valid_binary, bounded, canonical_mantissa in Hv.
      apply andb_true_iff in Hv as [Hv _]. apply Z.eqb_eq in Hv.
      unfold fexp, emin in Hv. 
      assert (m = 1%positive) as -> by lia. simpl in Hv. lia.
    - exfalso. unfold Qle in H1. simpl in H1.
      assert (0 < 2 ^ Z.pos q) by (apply Z.pow_pos_nonneg; lia). 
      rewrite Z.mul_1_r in H1.
      unfold valid, valid_binary, bounded, canonical_mantissa in Hv.
      apply andb_true_iff in Hv as [Hv _]. apply Z.eqb_eq in Hv.
      unfold fexp, emin in Hv.
      assert (Z.pos m * 2 ^ Z.pos q ≤ 1) as Hle by exact H1.
      assert (m = 1%positive) as -> by nia. simpl in Hv. lia.
    - split; [lia|]. unfold Qle in H1. simpl in H1.
      rewrite Pos2Z.inj_pow in H1. change (- Z.neg q) with (Z.pos q). lia. }
  cbn [xorb].
  apply (binary_round_aux_le_100 (m * 7036874417766400) (e + -46)); [lia|].
  replace (- (e + -46)) with (- e + 46) by lia.
  rewrite pow_split by lia. rewrite Pos2Z.inj_mul.
  change (Z.pos 7036874417766400) with (100 * 2 ^ 46).
  assert (0 < 2 ^ (- e)) by (apply Z.pow_pos_nonneg; lia).
  assert (0 < 2 ^ 46) by done. nia.
Qed.

Local Close Scope Z_scope.

(** *** Math.round *)

Lemma floor_half_nearest x :
  (x - (1 # 2) < inject_Z (Qfloor (x + (1 # 2))) ∧
   inject_Z (Qfloor (x + (1 # 2))) <= x + (1 # 2))%Q.
Proof.
  split.
  - pose proof (Qlt_floor (x + (1 # 2))) as H.
    rewrite inject_Z_plus in H. change (inject_Z 1) with (1 # 1) in H. lra.
  - apply Qfloor_le.
Qed.

Lemma floor_half_away x :
  (0 <= x)%Q → Qfloor (x + (1 # 2)) = round_half_away_from_zero x.
Proof.
  intros H. unfold round_half_away_from_zero.
  apply Qle_bool_iff in H. by rewrite H.
Qed.

Lemma floor_half_range x :
  (0 <= x)%Q → (x <= 100)%Q → (0 ≤ Qfloor (x + (1 # 2)) ≤ 100)%Z.
Proof.
  intros H0 H1. split.
  - apply (Qfloor_resp_le (1 # 2)). lra.
  - apply (Qfloor_resp_le _ (201 # 2)). lra.
Qed.

Lemma Math_round_finite x :
  finite x = true → Math_round x = int (Qfloor (real x + (1 # 2))).
Proof. by destruct x. Qed.

Lemma percent_available location s b o :
  book s = Some b → books s !! b = Some o → bk_locations_length o ≠ 0 →
  percent location s =
  Some (Math_round
          (multiply (locations_percentageFromCfi (bk_epub o)
                       (start_cfi location)) (Number_of_Z 100))).
Proof.
  intros Hb Ho Hlen. unfold percent. rewrite Hb, Ho.
  by destruct (Nat.eqb_spec (bk_locations_length o) 0).
Qed.

Lemma percent_unavailable location s :
  percent location s = None ↔ locations_length s = 0.
Proof.
  unfold locations_length, percent.
  destruct (book s) as [b|]; [|done].
  destruct (books s !! b) as [o|]; [|done]. simpl.
  by destruct (Nat.eqb_spec (bk_locations_length o) 0).
Qed.

(** C5, as the code has it.  With a location index in place, the
    percentage is [Math.round] of the product of the position and 100,
    a product of doubles, rounded to a double before [Math.round] sees
    it.  When the product is finite the percentage is the integer nearest
    to it, a tie going up, which for a product that is not negative is
    rounding half away from zero.  A position in [0,1] gives a percentage
    in [0,100].  The position 0.5005 gives 50 and 0.505 gives 51; the
    position 0.075, a double below 0.075, gives 8, its product with 100
    being the double 7.5, where the exact product would give 7. *)
Theorem percent_rounds_to_nearest
  (location : Location) (s : State) (b : handle) (o : BookObj) :
  book s = Some b → books s !! b = Some o → bk_locations_length o ≠ 0 →
  let x := locations_percentageFromCfi (bk_epub o) (start_cfi location) in
  let product := multiply x (Number_of_Z 100) in
  percent location s = Some (Math_round product) ∧
  (finite product = true →
   ∃ pct : Z,
     Math_round product = int pct ∧
     (real product - (1 # 2) < inject_Z pct ∧
      inject_Z pct <= real product + (1 # 2))%Q ∧
     ((0 <= real product)%Q →
      pct = round_half_away_from_zero (real product))) ∧
  (valid x = true → finite x = true → (0 <= real x)%Q → (real x <= 1)%Q →
   ∃ pct : Z, Math_round product = int pct ∧ (0 ≤ pct ≤ 100)%Z) ∧
  (x = position 5005 10000 → Math_round product = int 50) ∧
  (x = position 505 1000 → Math_round product = int 51) ∧
  (x = position 75 1000 →
   Math_round product = int 8 ∧
   Qfloor (real x * 100 + (1 # 2)) = 7%Z).
Proof.
  intros Hb Ho Hlen x product.
  split; [by apply (percent_available _ _ b)|].
  split.
  { intros Hf. eexists. split; [by apply Math_round_finite|].
    split; [apply floor_half_nearest|apply floor_half_away]. }
  split.
  { intros Hv Hf H0 H1.
    destruct (multiply_100_range x Hv Hf H0 H1) as (Hfp & Hp0 & Hp1).
    eexists. split; [by apply Math_round_finite|].
    by apply floor_half_range. }
  subst product.
  split; [intros ->; vm_compute; reflexivity|].
  split; [intros ->; vm_compute; reflexivity|].
  intros ->. split; vm_compute; reflexivity.
Qed.

(** C4, as the code has it.  When the listener of "relocated" runs: if a
    percentage is available the status becomes "{label} / {pct}%", where
    the label is the current label, or "reading" when that is empty, and
    nothing else changes; otherwise nothing changes at all, the status
    included. *)
Theorem relocated_status
  (r : handle) (o : RenditionObj) (location : Location) (s : State) :
  renditions s !! r = Some o → rd_on_relocated o = true →
  match percent location s with
  | Some pct =>
      emit r (relocated location) s =
      setStatus ((if bool_decide (currentLabel s = []) then js "reading"
                  else currentLabel s)
                 ++ js " / " ++ Number_toString pct ++ js "%") s
  | None => emit r (relocated location) s = s
  end.
Proof.
  intros Hr Hon. unfold emit, on_relocated, updateProgress.
  rewrite Hr, Hon. destruct (percent location s) as [pct|]; [|done].
  by destruct (currentLabel s).
Qed.

(** ** The objects of the library *)

Lemma elem_of_live_books s b :
  b ∈ live_books s ↔ bk_destroyed <$> books s !! b = Some false.
Proof.
  unfold live_books. rewrite list_elem_of_filter, elem_of_seq.
  split; [tauto|]. intros H. split; [done|].
  destruct (books s !! b) eqn:E; [|done].
  apply lookup_lt_Some in E. lia.
Qed.

Lemma elem_of_live_renditions s r :
  r ∈ live_renditions s ↔ rd_destroyed <$> renditions s !! r = Some false.
Proof.
  unfold live_renditions. rewrite list_elem_of_filter, elem_of_seq.
  split; [tauto|]. intros H. split; [done|].
  destruct (renditions s !! r) eqn:E; [|done].
  apply lookup_lt_Some in E. lia.
Qed.

Lemma live_books_flags s b : b ∈ live_books s ↔ book_flags s !! b = Some false.
Proof. unfold book_flags. by rewrite elem_of_live_books, list_lookup_fmap. Qed.

Lemma live_renditions_flags s r :
  r ∈ live_renditions s ↔ rendition_flags s !! r = Some false.
Proof.
  unfold rendition_flags. by rewrite elem_of_live_renditions, list_lookup_fmap.
Qed.

Lemma owned_book s b : owned s → b ∈ live_books s → book s = Some b.
Proof. intros [H _] Hb. rewrite Forall_forall in H. by apply H. Qed.

Lemma owned_rendition s r :
  owned s → r ∈ live_renditions s → rendition s = Some r.
Proof. intros [_ H] Hr. rewrite Forall_forall in H. by apply H. Qed.

Lemma owned_intro s :
  (∀ b, b ∈ live_books s → book s = Some b) →
  (∀ r, r ∈ live_renditions s → rendition s = Some r) →
  owned s.
Proof. intros Hb Hr. split; by apply Forall_forall. Qed.

Lemma live_nil {A} (l : list A) : (∀ x, x ∉ l) → l = [].
Proof.
  destruct l as [|x l]; [done|]. intros H. destruct (H x). by left.
Qed.

(** An update that keeps a field of the objects keeps the list of that
    field. *)
Lemma fmap_alter_same {A B} (g : A → B) (f : A → A) (i : nat) (l : list A) :
  (∀ x, g (f x) = g x) → g <$> alter f i l = g <$> l.
Proof.
  intros H. apply list_eq. intros j. rewrite !list_lookup_fmap.
  destruct (decide (i = j)) as [->|Hne].
  - rewrite list_lookup_alter_eq. destruct (l !! j); simpl; [by rewrite H|done].
  - by rewrite list_lookup_alter_ne.
Qed.

Lemma update_book_flags f b s :
  (∀ o, bk_destroyed (f o) = bk_destroyed o) →
  book_flags (update_book f b s) = book_flags s.
Proof. intros H. by apply fmap_alter_same. Qed.

Lemma update_rendition_flags f r s :
  (∀ o, rd_destroyed (f o) = rd_destroyed o) →
  rendition_flags (update_rendition f r s) = rendition_flags s.
Proof. intros H. by apply fmap_alter_same. Qed.

Lemma update_book_epub_of f b s b' :
  (∀ o, bk_epub (f o) = bk_epub o) →
  epub_of b' (update_book f b s) = epub_of b' s.
Proof.
  intros H. unfold epub_of, update_book. cbn [books set_books].
  change (bk_epub <$> alter f b (books s) !! b')
    with ((fun l : list BookObj => bk_epub <$> l !! b') (alter f b (books s))).
  cbv beta. rewrite <- !list_lookup_fmap. by rewrite fmap_alter_same.
Qed.

Lemma update_book_locations_length f b s :
  (∀ o, bk_locations_length (f o) = bk_locations_length o) →
  locations_length (update_book f b s) = locations_length s.
Proof.
  intros H. unfold locations_length, update_book.
  cbn [book books set_books]. destruct (book s) as [b'|]; [|done].
  rewrite <- !list_lookup_fmap. by rewrite fmap_alter_same.
Qed.

Lemma destroy_book_live b0 s b :
  b ∈ live_books (destroy_book b0 s) ↔ b ∈ live_books s ∧ Some b0 ≠ Some b.
Proof.
  rewrite !elem_of_live_books. unfold destroy_book, update_book.
  cbn [books set_books]. destruct (decide (b = b0)) as [->|Hne].
  - rewrite list_lookup_alter_eq. split; [|by intros [_ ?]].
    by destruct (books s !! b0).
  - rewrite list_lookup_alter_ne by done.
    split; [intros ?; split; [done|congruence]|by intros [? _]].
Qed.

Lemma destroy_rendition_live r0 s r :
  r ∈ live_renditions (destroy_rendition r0 s) ↔
  r ∈ live_renditions s ∧ Some r0 ≠ Some r.
Proof.
  rewrite !elem_of_live_renditions. unfold destroy_rendition, update_rendition.
  cbn [renditions set_renditions]. destruct (decide (r = r0)) as [->|Hne].
  - rewrite list_lookup_alter_eq. split; [|by intros [_ ?]].
    by destruct (renditions s !! r0).
  - rewrite list_lookup_alter_ne by done.
    split; [intros ?; split; [done|congruence]|by intros [? _]].
Qed.

(** [resetBook] destroys the two objects the variables refer to, and no
    other; it leaves the variables null. *)
Lemma resetBook_releases s :
  let s' := resetBook s in
  (∀ b, b ∈ live_books s' ↔ b ∈ live_books s ∧ book s ≠ Some b) ∧
  (∀ r, r ∈ live_renditions s' ↔ r ∈ live_renditions s ∧ rendition s ≠ Some r) ∧
  idle s' ∧
  length (books s') = length (books s) ∧
  length (renditions s') = length (renditions s) ∧
  console s' = console s ∧ session s' = session s ∧
  localStorage s' = localStorage s.
Proof.
  assert (∀ (P : Prop) (x : handle), P ↔ P ∧ None ≠ Some x) as Hnone
    by (intros P x; split; [by intros ?|by intros [? _]]).
  pose (s0 := s).
  destruct s as [se bo re nl cl d ls co bs rs]. unfold resetBook, idle.
  destruct re as [r0|], bo as [b0|]; cbv zeta;
    cbn [book rendition set_rendition set_book set_dom set_navLabels
         set_currentLabel];
    (split; [intros b|split; [intros r|]]).
  - exact (destroy_book_live b0 s0 b).
  - exact (destroy_rendition_live r0 s0 r).
  - simpl. by rewrite !length_alter.
  - apply Hnone.
  - exact (destroy_rendition_live r0 s0 r).
  - simpl. by rewrite !length_alter.
  - exact (destroy_book_live b0 s0 b).
  - apply Hnone.
  - simpl. by rewrite !length_alter.
  - apply Hnone.
  - apply Hnone.
  - done.
Qed.

Lemma resetBook_owned s :
  owned s →
  live_books (resetBook s) = [] ∧ live_renditions (resetBook s) = [].
Proof.
  intros Hown. destruct (resetBook_releases s) as (Hb & Hr & _).
  split; apply live_nil.
  - intros b [H1 H2]%Hb. by apply H2, owned_book.
  - intros r [H1 H2]%Hr. by apply H2, owned_rendition.
Qed.

(** *** The objects a call holds *)

Lemma held_old found flags var b :
  held found flags var → b < length found → flags !! b = found !! b.
Proof.
  intros [[-> _]|[-> _]] Hb; [done|]. by rewrite lookup_app_l.
Qed.

Lemma held_new found flags var b :
  held found flags var → length found ≤ b → b < length flags →
  flags !! b = Some false ∧ var = Some b.
Proof.
  intros [[-> _]|[-> ->]] Hle Hlt; [lia|].
  rewrite length_app in Hlt. simpl in Hlt.
  assert (b = length found) as -> by lia.
  by rewrite lookup_app_r, Nat.sub_diag.
Qed.

Lemma held_var found flags var b :
  held found flags var → var = Some b →
  b = length found ∧ flags !! b = Some false.
Proof.
  intros [[_ ->]|[-> ->]] [= <-].
  by rewrite lookup_app_r, Nat.sub_diag.
Qed.

Lemma held_length found flags var :
  held found flags var → length found ≤ length flags.
Proof. intros [[-> _]|[-> _]]; rewrite ?length_app; simpl; lia. Qed.

Lemma held_make found flags :
  held found flags None → held found (flags ++ [false]) (Some (length flags)).
Proof. intros [[-> _]|[_ ?]]; [by right|done]. Qed.

Lemma resetBook_book_flags s :
  length (book_flags (resetBook s)) = length (books s) ∧
  ∀ b, book_flags (resetBook s) !! b = Some false ↔
       b ∈ live_books s ∧ book s ≠ Some b.
Proof.
  destruct (resetBook_releases s) as (Hb & _ & _ & Hl & _).
  split; [unfold book_flags; by rewrite length_fmap|].
  intros b. by rewrite <- live_books_flags.
Qed.

Lemma resetBook_rendition_flags s :
  length (rendition_flags (resetBook s)) = length (renditions s) ∧
  ∀ r, rendition_flags (resetBook s) !! r = Some false ↔
       r ∈ live_renditions s ∧ rendition s ≠ Some r.
Proof.
  destruct (resetBook_releases s) as (_ & Hr & _ & _ & Hl & _).
  split; [unfold rendition_flags; by rewrite length_fmap|].
  intros r. by rewrite <- live_renditions_flags.
Qed.

(** What [holding] says of the books and of the renditions: the ones
    that were there are live when they were and the variable did not
    refer to them; the ones made since are live and held; the variable
    refers to one made since. *)
Lemma holding_books s0 s :
  holding s0 s →
  length (books s0) ≤ length (books s) ∧
  (∀ b, b < length (books s0) →
        (b ∈ live_books s ↔ b ∈ live_books s0 ∧ book s0 ≠ Some b)) ∧
  (∀ b, length (books s0) ≤ b → b < length (books s) →
        b ∈ live_books s ∧ book s = Some b) ∧
  (∀ b, book s = Some b →
        length (books s0) ≤ b ∧ b < length (books s) ∧ b ∈ live_books s).
Proof.
  intros [H _]. destruct (resetBook_book_flags s0) as [Hlen Hlive].
  assert (length (book_flags s) = length (books s)) as Hlen'
    by (unfold book_flags; by rewrite length_fmap).
  split; [|split; [|split]].
  - rewrite <- Hlen, <- Hlen'. by apply (held_length _ _ (book s)).
  - intros b Hb. rewrite live_books_flags, <- Hlive.
    by rewrite (held_old _ _ _ b H) by lia.
  - intros b Hle Hlt. rewrite live_books_flags.
    apply (held_new _ _ _ b H); lia.
  - intros b Hb. destruct (held_var _ _ _ b H Hb) as [-> Hf].
    rewrite live_books_flags. split; [lia|]. split; [|done].
    apply lookup_lt_Some in Hf. lia.
Qed.

Lemma holding_renditions s0 s :
  holding s0 s →
  length (renditions s0) ≤ length (renditions s) ∧
  (∀ r, r < length (renditions s0) →
        (r ∈ live_renditions s ↔
         r ∈ live_renditions s0 ∧ rendition s0 ≠ Some r)) ∧
  (∀ r, length (renditions s0) ≤ r → r < length (renditions s) →
        r ∈ live_renditions s ∧ rendition s = Some r) ∧
  (∀ r, rendition s = Some r →
        length (renditions s0) ≤ r ∧ r < length (renditions s) ∧
        r ∈ live_renditions s).
Proof.
  intros [_ H]. destruct (resetBook_rendition_flags s0) as [Hlen Hlive].
  assert (length (rendition_flags s) = length (renditions s)) as Hlen'
    by (unfold rendition_flags; by rewrite length_fmap).
  split; [|split; [|split]].
  - rewrite <- Hlen, <- Hlen'. by apply (held_length _ _ (rendition s)).
  - intros r Hr. rewrite live_renditions_flags, <- Hlive.
    by rewrite (held_old _ _ _ r H) by lia.
  - intros r Hle Hlt. rewrite live_renditions_flags.
    apply (held_new _ _ _ r H); lia.
  - intros r Hr. destruct (held_var _ _ _ r H Hr) as [-> Hf].
    rewrite live_renditions_flags. split; [lia|]. split; [|done].
    apply lookup_lt_Some in Hf. lia.
Qed.

(** A state in which every live object is referred to stays so. *)
Lemma holding_owned s0 s : owned s0 → holding s0 s → owned s.
Proof.
  intros Hown H.
  destruct (holding_books s0 s H) as (_ & Hold & Hnew & _).
  destruct (holding_renditions s0 s H) as (_ & Hold' & Hnew' & _).
  apply owned_intro.
  - intros b Hb. destruct (decide (b < length (books s0))) as [Hlt|Hge].
    + apply Hold in Hb as [Hb Hne]; [|done]. by apply owned_book in Hb.
    + apply Hnew; [lia|]. apply elem_of_live_books in Hb.
      destruct (books s !! b) eqn:E; [|done]. by apply lookup_lt_Some in E.
  - intros r Hr. destruct (decide (r < length (renditions s0))) as [Hlt|Hge].
    + apply Hold' in Hr as [Hr Hne]; [|done]. by apply owned_rendition in Hr.
    + apply Hnew'; [lia|]. apply elem_of_live_renditions in Hr.
      destruct (renditions s !! r) eqn:E; [|done].
      by apply lookup_lt_Some in E.
Qed.

(** [openBook], up to its first [await], starts a load. *)
Lemma openBook_loading file s :
  let '(s1, t) := openBook file s in
  task_file t = file ∧ loading s s1 ∧ stage file (task_await t) s1 ∧
  rank (task_await t) = 0 ∧ session s1 = session s ∧
  statusEl (dom s1) = js "loading epub...".
Proof.
  unfold openBook.
  destruct (resetBook_releases s) as (_ & _ & [Hbook Hrend] & _ & _ & Hc & Hs & _).
  split; [done|]. split; [|by simpl].
  split; [|exact Hc]. split; left; by split.
Qed.

(** ** One resumption of openBook *)

Lemma unindexed_length s : unindexed s → locations_length s = 0.
Proof.
  intros H. unfold locations_length. destruct (book s) as [b|] eqn:Hb; [|done].
  destruct (books s !! b) as [o|] eqn:Ho; [|done]. simpl.
  by destruct (H b o Hb Ho).
Qed.

Lemma loads_eq file e :
  arrayBuffer file = Some e →
  loads file =
  ePub_returns e && ready e && renders e &&
  match loaded_navigation e with Some _ => true | None => false end &&
  display_resolves e &&
  match loaded_metadata e with Some _ => true | None => false end.
Proof.
  intros H. unfold loads, renders. rewrite H.
  by rewrite !andb_assoc.
Qed.

Lemma catch_settled s0 file e s :
  loading s0 s → loads file = false → (constructs file = false → idle s) →
  (constructs file = true → is_Some (book s)) →
  settled s0 file (catch e s).
Proof.
  intros [Hh Hc] Hloads Hidle Hbook. unfold settled. rewrite Hloads.
  split; [exact Hh|]. split; [done|]. split; [|by split].
  exists e. simpl. by rewrite Hc.
Qed.

Lemma catch_resumed s0 file a e s :
  loading s0 s → loads file = false → (constructs file = false → idle s) →
  (constructs file = true → is_Some (book s)) →
  resumed s0 file a (catch e s, None).
Proof.
  intros Hl Hloads Hidle Hbook. split; [by apply catch_settled|].
  by rewrite Hloads.
Qed.

Lemma book_epub_inv s e :
  book_epub s = Some e →
  ∃ b o, book s = Some b ∧ books s !! b = Some o ∧ bk_epub o = e ∧
         epub_of b s = Some e.
Proof.
  unfold book_epub, epub_of. destruct (book s) as [b|]; [|done]. simpl.
  destruct (books s !! b) as [o|] eqn:E; [|done]. simpl.
  intros [= <-]. exists b, o. by rewrite E.
Qed.

Lemma rendition_epub_inv s e :
  rendition_epub s = Some e →
  ∃ r o, rendition s = Some r ∧ renditions s !! r = Some o ∧
         epub_of (rd_book o) s = Some e.
Proof.
  unfold rendition_epub. destruct (rendition s) as [r|]; [|done]. simpl.
  destruct (renditions s !! r) as [o|] eqn:E; [|done]. simpl.
  intros H. by exists r, o.
Qed.

Lemma book_epub_intro s b e :
  book s = Some b → epub_of b s = Some e → book_epub s = Some e.
Proof. intros Hb He. unfold book_epub. by rewrite Hb. Qed.

Lemma rendition_epub_intro s r o e :
  rendition s = Some r → renditions s !! r = Some o →
  epub_of (rd_book o) s = Some e → rendition_epub s = Some e.
Proof. intros Hr Ho He. unfold rendition_epub. by rewrite Hr; simpl; rewrite Ho. Qed.

(** With a book held, the file has reached the construction of a book
    object, and the page is not idle. *)
Lemma held_book_settles file s e :
  arrayBuffer file = Some e → ePub_returns e = true → book_epub s = Some e →
  (constructs file = false → idle s) ∧ (constructs file = true → is_Some (book s)).
Proof.
  intros Harr Hret Hbe. unfold constructs. rewrite Harr, Hret.
  split; [done|]. intros _.
  destruct (book_epub_inv s e Hbe) as (b & _ & -> & _). by eexists.
Qed.

Lemma resume_arrayBuffer s0 file p s :
  loading s0 s → stage file (AwaitArrayBuffer p) s →
  resumed s0 file (AwaitArrayBuffer p)
    (resume {| task_file := file; task_await := AwaitArrayBuffer p |} s).
Proof.
  intros Hl (-> & Hbook & Hrend). unfold resume. simpl.
  destruct (arrayBuffer file) as [buffer|] eqn:Harr.
  2:{ apply catch_resumed; [done| |done|].
      - unfold loads. by rewrite Harr.
      - unfold constructs. by rewrite Harr. }
  destruct (ePub_returns buffer) eqn:Hret.
  2:{ apply catch_resumed; [done| |done|].
      - by rewrite (loads_eq _ _ Harr), Hret.
      - unfold constructs. by rewrite Harr, Hret. }
  destruct Hl as [[Hhb Hhr] Hc].
  simpl. split; [done|]. split; [|split; [|done]].
  - split; [|exact Hc]. split; [|exact Hhr].
    rewrite Hbook in Hhb. apply held_make in Hhb.
    unfold book_flags in *. cbn [books set_book set_books book].
    rewrite fmap_app. by rewrite length_fmap in Hhb.
  - exists buffer.
    assert ((books s ++ [{| bk_epub := buffer; bk_destroyed := false;
                            bk_locations_length := 0;
                            bk_generating := false |}]) !! length (books s) =
            Some {| bk_epub := buffer; bk_destroyed := false;
                    bk_locations_length := 0; bk_generating := false |})
      as Hlook by by rewrite lookup_app_r, Nat.sub_diag by lia.
    split; [done|]. split; [done|]. split; [done|]. split; [|split; [done|]].
    + unfold book_epub, epub_of. simpl. by rewrite Hlook.
    + intros b o. cbn [book books set_book set_books]. intros [= <-].
      rewrite Hlook. by intros [= <-].
Qed.

Lemma applyTheme_eq s r e :
  rendition s = Some r → rendition_epub s = Some e →
  applyTheme s =
  if themes_default_returns e then Some (theme_rendition r s) else None.
Proof.
  intros Hr He. unfold applyTheme.
  destruct (rendition_epub_inv s e He) as (r' & o & Hr' & Ho & Hepub).
  rewrite Hr', Ho, Hepub. by replace r' with r by congruence.
Qed.

(** An update of a rendition object that keeps its book and its
    [destroyed] flag changes nothing the invariant speaks of. *)
Lemma update_rendition_epub f r s :
  (∀ o, rd_book (f o) = rd_book o ∧ rd_destroyed (f o) = rd_destroyed o) →
  rendition_epub (update_rendition f r s) = rendition_epub s.
Proof.
  intros Hf. unfold rendition_epub.
  change (rendition (update_rendition f r s)) with (rendition s).
  destruct (rendition s) as [r'|]; simpl; [|done].
  destruct (decide (r = r')) as [->|Hne].
  - rewrite list_lookup_alter_eq.
    destruct (renditions s !! r') as [o|]; simpl; [|done].
    by destruct (Hf o) as [-> _].
  - by rewrite list_lookup_alter_ne.
Qed.

Lemma update_rendition_loading f r s0 s :
  (∀ o, rd_book (f o) = rd_book o ∧ rd_destroyed (f o) = rd_destroyed o) →
  loading s0 s → loading s0 (update_rendition f r s).
Proof.
  intros Hf [[Hb Hr] Hc]. split; [|exact Hc]. split; [exact Hb|].
  rewrite update_rendition_flags; [exact Hr|]. intros o. apply Hf.
Qed.

Lemma update_rendition_kept f r s0 s e :
  (∀ o, rd_book (f o) = rd_book o ∧ rd_destroyed (f o) = rd_destroyed o) →
  kept (s0 := s0) e s → kept (s0 := s0) e (update_rendition f r s).
Proof.
  intros Hf (Hl & He & Hb & Hu). split; [|split; [|split]].
  - by apply update_rendition_loading.
  - by rewrite update_rendition_epub.
  - exact Hb.
  - exact Hu.
Qed.

Lemma new_rendition_kept s0 s b e :
  loading s0 s → rendition s = None → book s = Some b →
  epub_of b s = Some e → unindexed s →
  let r := length (renditions s) in
  let sR := set_rendition (Some r) (snd (new_rendition b s)) in
  kept (s0 := s0) e sR ∧ rendition sR = Some r.
Proof.
  intros [[Hhb Hhr] Hc] Hrend Hbook Hepub Hu r sR.
  assert (renditions sR !! r =
          Some {| rd_book := b; rd_destroyed := false; rd_theme := false;
                  rd_on_rendered := false; rd_on_relocated := false;
                  rd_calls := [] |}) as Hlook.
  { subst sR r. simpl. by rewrite lookup_app_r, Nat.sub_diag by lia. }
  split; [|done]. split; [|split; [|split]].
  - split; [|exact Hc]. split; [exact Hhb|].
    rewrite Hrend in Hhr. apply held_make in Hhr.
    subst sR r. unfold rendition_flags in *.
    cbn [renditions rendition set_rendition new_rendition snd set_dom
         set_renditions].
    rewrite fmap_app. by rewrite length_fmap in Hhr.
  - by apply (rendition_epub_intro sR r _ e eq_refl Hlook).
  - by apply (book_epub_intro sR b e).
  - exact Hu.
Qed.

Lemma resume_ready_loading s0 file p s :
  loading s0 s → stage file (AwaitReady p) s →
  resumed s0 file (AwaitReady p)
    (resume {| task_file := file; task_await := AwaitReady p |} s).
Proof.
  intros Hl (e & Harr & Hret & -> & Hbe & Hrend & Hu).
  assert (∀ s', book_epub s' = Some e →
                (constructs file = false → idle s') ∧
                (constructs file = true → is_Some (book s'))) as Hcon
    by (intros s'; by apply held_book_settles).
  unfold resume. simpl. destruct (ready e) eqn:Hready.
  2:{ destruct (Hcon s Hbe). apply catch_resumed; [done| |done|done].
      by rewrite (loads_eq _ _ Harr), Hret, Hready. }
  destruct (book_epub_inv s e Hbe) as (b & o & Hbook & _ & _ & Hepub).
  unfold resume_ready. rewrite Hbook, Hepub.
  destruct (renderTo_returns e) eqn:H1.
  2:{ destruct (Hcon s Hbe). apply catch_resumed; [done| |done|done].
      rewrite (loads_eq _ _ Harr), Hret, Hready. unfold renders.
      by rewrite H1. }
  destruct (new_rendition_kept s0 s b e Hl Hrend Hbook Hepub Hu)
    as (HkR & HrR).
  unfold new_rendition in *. cbv beta iota zeta in *.
  cbn [fst snd] in *.
  rewrite (applyTheme_eq _ _ e HrR (proj1 (proj2 HkR))).
  set (r := length (renditions s)) in *.
  set (sR := set_rendition (Some r) _) in *.
  destruct (themes_default_returns e) eqn:H2.
  2:{ destruct (Hcon sR (proj1 (proj2 (proj2 HkR)))).
      apply catch_resumed; [apply HkR| |done|done].
      rewrite (loads_eq _ _ Harr), Hret, Hready. unfold renders.
      by rewrite H1, H2. }
  assert (kept (s0 := s0) e (theme_rendition r sR)) as H3
    by (apply update_rendition_kept; [by intros ?|done]).
  destruct (on_rendered_returns e) eqn:H4.
  2:{ destruct (Hcon _ (proj1 (proj2 (proj2 H3)))).
      apply catch_resumed; [apply H3| |done|done].
      rewrite (loads_eq _ _ Harr), Hret, Hready. unfold renders.
      by rewrite H1, H2, H4. }
  assert (kept (s0 := s0) e (listen_rendered r (theme_rendition r sR))) as H5
    by (apply update_rendition_kept; [by intros ?|done]).
  destruct (on_relocated_returns e) eqn:H6.
  2:{ destruct (Hcon _ (proj1 (proj2 (proj2 H5)))).
      apply catch_resumed; [apply H5| |done|done].
      rewrite (loads_eq _ _ Harr), Hret, Hready. unfold renders.
      by rewrite H1, H2, H4, H6. }
  assert (kept (s0 := s0) e
            (listen_relocated r (listen_rendered r (theme_rendition r sR))))
    as (Hl7 & He7 & Hb7 & Hu7)
    by (apply update_rendition_kept; [by intros ?|done]).
  split; [done|]. split; [exact Hl7|]. split; [|done].
  exists e. unfold renders. rewrite H1, H2, H4, H6.
  repeat (split; [done|]). done.
Qed.

Lemma renderToc_kept s0 e items s :
  kept (s0 := s0) e s → kept (s0 := s0) e (renderToc items s).
Proof.
  intros H. unfold renderToc. destruct items as [|x items]; [exact H|].
  cbv zeta. destruct (paint (x :: items) 0 _) as [labels fragment]. exact H.
Qed.

Lemma resume_navigation_loading s0 file p s :
  loading s0 s → stage file (AwaitNavigation p) s →
  resumed s0 file (AwaitNavigation p)
    (resume {| task_file := file; task_await := AwaitNavigation p |} s).
Proof.
  intros Hl (e & Harr & Hret & Hready & Hrend & -> & Hbe & Hre & Hu).
  destruct (held_book_settles file s e Harr Hret Hbe) as [Hc1 Hc2].
  unfold resume. cbn [task_await task_file].
  destruct (loaded_navigation e) as [toc|] eqn:Hnav.
  2:{ apply catch_resumed; [done| |done|done].
      by rewrite (loads_eq _ _ Harr), Hret, Hready, Hrend, Hnav. }
  cbv zeta.
  assert (kept (s0 := s0) e (renderToc (default [] toc) s)) as Hk
    by by apply renderToc_kept.
  destruct (rendition_epub_inv _ e (proj1 (proj2 Hk)))
    as (r & o & Hr & Ho & Hepub).
  rewrite Hr, Ho, Hepub.
  assert (kept (s0 := s0) e
            (call_rendition (CallDisplay None) r
               (renderToc (default [] toc) s))) as (Hl' & Hre' & Hbe' & Hu')
    by (apply update_rendition_kept; [by intros ?|done]).
  split; [done|]. split; [done|]. split; [|done].
  exists e. rewrite Hnav. repeat (split; [done|]). done.
Qed.

Lemma resume_display_loading s0 file p s :
  loading s0 s → stage file (AwaitDisplay p) s →
  resumed s0 file (AwaitDisplay p)
    (resume {| task_file := file; task_await := AwaitDisplay p |} s).
Proof.
  intros Hl (e & Harr & Hret & Hready & Hrend & [toc Hnav] & -> & Hbe & Hre
             & Hu).
  destruct (held_book_settles file s e Harr Hret Hbe) as [Hc1 Hc2].
  unfold resume. cbn [task_await task_file].
  destruct (display_resolves e) eqn:Hdisp.
  2:{ apply catch_resumed; [done| |done|done].
      by rewrite (loads_eq _ _ Harr), Hret, Hready, Hrend, Hnav, Hdisp. }
  destruct (book_epub_inv s e Hbe) as (b & o & Hbook & _ & _ & Hepub).
  rewrite Hbook, Hepub.
  split; [done|]. split; [done|]. split; [|done].
  exists e. rewrite Hnav. repeat (split; [done|]). done.
Qed.

Lemma resume_metadata_loading s0 file p s :
  loading s0 s → stage file (AwaitMetadata p) s →
  resumed s0 file (AwaitMetadata p)
    (resume {| task_file := file; task_await := AwaitMetadata p |} s).
Proof.
  intros Hl (e & Harr & Hret & Hready & Hrend & [toc Hnav] & Hdisp & ->
             & Hbe & Hre & Hu).
  destruct (held_book_settles file s e Harr Hret Hbe) as [Hc1 Hc2].
  unfold resume. cbn [task_await task_file].
  destruct (loaded_metadata e) as [metadata|] eqn:Hmeta.
  2:{ apply catch_resumed; [done| |done|done].
      by rewrite (loads_eq _ _ Harr), Hret, Hready, Hrend, Hnav, Hdisp, Hmeta. }
  cbv zeta.
  set (s1 := setMeta _ _ s).
  assert (kept (s0 := s0) e s1) as ([[Hhb Hhr] Hc] & Hre1 & Hbe1 & Hu1) by done.
  destruct (book_epub_inv s1 e Hbe1) as (b & o & Hbook & _ & _ & Hepub).
  rewrite Hbook, Hepub.
  assert (∀ o, bk_epub
                 {| bk_epub := bk_epub o; bk_destroyed := bk_destroyed o;
                    bk_locations_length := bk_locations_length o;
                    bk_generating := true |} = bk_epub o) as Hf by done.
  split; [done|]. split; [|split; [|done]].
  - split; [|exact Hc]. split; [|exact Hhr].
    unfold generate. by rewrite update_book_flags.
  - exists e. split; [done|]. split.
    { by rewrite (loads_eq _ _ Harr), Hret, Hready, Hrend, Hnav, Hdisp, Hmeta. }
    split; [done|]. split; [done|]. unfold generate. split.
    + by rewrite update_book_epub_of.
    + destruct (rendition_epub_inv s1 e Hre1) as (r & or & Hr & Hor & Hoe).
      apply (rendition_epub_intro _ r or e); [done|done|].
      by rewrite update_book_epub_of.
Qed.

Lemma resume_generate_loading s0 file b p s :
  loading s0 s → stage file (AwaitGenerate b p) s →
  resumed s0 file (AwaitGenerate b p)
    (resume {| task_file := file; task_await := AwaitGenerate b p |} s).
Proof.
  intros [[Hhb Hhr] Hc] (e & Harr & Hloads & -> & Hbook & Hepub & Hre).
  destruct (rendition_epub_inv s e Hre) as (r & or & Hr & _).
  unfold resume. cbn [task_await task_file].
  destruct (locations_generate e) as [n|] eqn:Hgen;
    (split; [|done]); unfold settled; rewrite Hloads, Harr;
    simpl (_ ≫= _); rewrite Hgen.
  - split.
    { split; [|exact Hhr].
      change (held (book_flags (resetBook s0)) (book_flags (generated n b s))
                (book s)).
      unfold generated. by rewrite update_book_flags. }
    split; [done|]. split; [by exists b|]. split; [by exists r|].
    split; [exact Hc|].
    unfold locations_length. change (book (complete _)) with (book s).
    rewrite Hbook. simpl. rewrite list_lookup_alter_eq.
    unfold epub_of in Hepub. by destruct (books s !! b).
  - split.
    { split; [|exact Hhr].
      change (held (book_flags (resetBook s0))
                (book_flags (generate_failed b s)) (book s)).
      unfold generate_failed. by rewrite update_book_flags. }
    split; [done|]. split; [by exists b|]. split; [by exists r|].
    simpl. by rewrite Hc.
Qed.

(** One resumption of a load that runs on its own keeps the invariant, and
    moves the call forward or ends it. *)
Lemma resume_loading s0 t s :
  loading s0 s → stage (task_file t) (task_await t) s →
  resumed s0 (task_file t) (task_await t) (resume t s).
Proof.
  destruct t as [file a]. cbn [task_file task_await].
  destruct a; intros Hl Hs.
  - by apply resume_arrayBuffer.
  - by apply resume_ready_loading.
  - by apply resume_navigation_loading.
  - by apply resume_display_loading.
  - by apply resume_metadata_loading.
  - by apply resume_generate_loading.
Qed.

(** ** A call of openBook running on its own *)

(** The listeners write the current label and the status, nothing else. *)
Lemma emit_writes r ev s :
  ∃ l d, emit r ev s = set_dom d (set_currentLabel l s).
Proof.
  assert (∃ l d, s = set_dom d (set_currentLabel l s)) as Hs
    by (exists (currentLabel s), (dom s); by destruct s).
  unfold emit. destruct (renditions s !! r) as [o|]; [|done].
  destruct ev as [h|location].
  - destruct (rd_on_rendered o); [|done]. unfold on_rendered, setStatus.
    by eexists _, _.
  - destruct (rd_on_relocated o); [|done].
    unfold on_relocated, updateProgress.
    destruct (percent location s); [|done]. unfold setStatus.
    exists (currentLabel s). eexists. by destruct s.
Qed.

(** What the library does on its own keeps the invariant. *)
Lemma fill_unindexed n b s : unindexed s → unindexed (fill n b s).
Proof.
  intros H b' o'. unfold fill, update_book. cbn [book books set_books].
  intros Hb. destruct (decide (b = b')) as [->|Hne].
  - rewrite list_lookup_alter_eq. destruct (books s !! b') as [o|] eqn:Ho; [|done].
    simpl. destruct (H b' o Hb Ho) as [Hl Hg]. rewrite Hg. by intros [= <-].
  - rewrite list_lookup_alter_ne by done. by apply H.
Qed.

Lemma fill_epub n o :
  bk_epub (if bk_generating o
           then {| bk_epub := bk_epub o; bk_destroyed := bk_destroyed o;
                   bk_locations_length := n; bk_generating := true |}
           else o) = bk_epub o ∧
  bk_destroyed (if bk_generating o
                then {| bk_epub := bk_epub o; bk_destroyed := bk_destroyed o;
                        bk_locations_length := n; bk_generating := true |}
                else o) = bk_destroyed o.
Proof. by destruct (bk_generating o). Qed.

Lemma fill_book_epub n b s : book_epub (fill n b s) = book_epub s.
Proof.
  unfold book_epub. change (book (fill n b s)) with (book s).
  destruct (book s) as [b'|]; [|done]. simpl. unfold fill.
  apply update_book_epub_of. intros o. apply fill_epub.
Qed.

Lemma fill_rendition_epub n b s : rendition_epub (fill n b s) = rendition_epub s.
Proof.
  unfold rendition_epub. change (rendition (fill n b s)) with (rendition s).
  destruct (rendition s) as [r|]; [|done]. simpl.
  change (renditions (fill n b s)) with (renditions s).
  destruct (renditions s !! r) as [o|]; [|done]. simpl. unfold fill.
  apply update_book_epub_of. intros o'. apply fill_epub.
Qed.

Lemma occur_loading ev s0 s : loading s0 s → loading s0 (occur ev s).
Proof.
  intros Hl. destruct ev as [r ev|b n]; simpl.
  - by destruct (emit_writes r ev s) as (l & d & ->).
  - destruct Hl as [[Hhb Hhr] Hc]. split; [|exact Hc]. split; [|exact Hhr].
    unfold fill. rewrite update_book_flags; [done|]. intros o. apply fill_epub.
Qed.

Lemma occur_stage ev file a s : stage file a s → stage file a (occur ev s).
Proof.
  intros Hs. destruct ev as [r ev|b n]; simpl.
  - destruct (emit_writes r ev s) as (l & d & ->). by destruct a.
  - destruct a as [p|p|p|p|p|b' p]; simpl in *.
    + exact Hs.
    + destruct Hs as (e & ? & ? & ? & ? & ? & ?). exists e.
      rewrite fill_book_epub. repeat (split; [done|]). by apply fill_unindexed.
    + destruct Hs as (e & ? & ? & ? & ? & ? & ? & ? & ?). exists e.
      rewrite fill_book_epub, fill_rendition_epub.
      repeat (split; [done|]). by apply fill_unindexed.
    + destruct Hs as (e & ? & ? & ? & ? & ? & ? & ? & ? & ?). exists e.
      rewrite fill_book_epub, fill_rendition_epub.
      repeat (split; [done|]). by apply fill_unindexed.
    + destruct Hs as (e & ? & ? & ? & ? & ? & ? & ? & ? & ? & ?). exists e.
      rewrite fill_book_epub, fill_rendition_epub.
      repeat (split; [done|]). by apply fill_unindexed.
    + destruct Hs as (e & ? & ? & ? & ? & He & ?). exists e.
      rewrite fill_rendition_epub. do 4 (split; [done|]). split; [|done].
      unfold fill. rewrite update_book_epub_of; [done|].
      intros o. apply fill_epub.
Qed.

Lemma occur_all_loading evs s0 s :
  loading s0 s → loading s0 (occur_all evs s).
Proof.
  revert s. induction evs as [|ev evs IH]; intros s Hl; [done|].
  simpl. by apply IH, occur_loading.
Qed.

Lemma occur_all_stage evs file a s :
  stage file a s → stage file a (occur_all evs s).
Proof.
  revert s. induction evs as [|ev evs IH]; intros s Hs; [done|].
  simpl. by apply IH, occur_stage.
Qed.

Lemma rank_le a : rank a ≤ 5.
Proof. destruct a; simpl; lia. Qed.

Lemma settle_resumed s0 sched :
  ∀ t s,
    loading s0 s → stage (task_file t) (task_await t) s →
    match settle t sched s with
    | (s', Some t') =>
        task_file t' = task_file t ∧ loading s0 s' ∧
        stage (task_file t) (task_await t') s' ∧
        rank (task_await t') = rank (task_await t) + length sched
    | (s', None) =>
        settled s0 (task_file t) s' ∧
        (loads (task_file t) = true →
         6 ≤ rank (task_await t) + length sched)
    end.
Proof.
  induction sched as [|evs sched IH]; intros t s Hl Hs; simpl.
  - split; [done|]. split; [done|]. split; [done|]. lia.
  - pose proof (resume_loading s0 t (occur_all evs s)
                  (occur_all_loading evs s0 s Hl)
                  (occur_all_stage evs _ _ s Hs)) as H.
    destruct (resume t _) as [s1 [t1|]].
    2:{ destruct H as [H Hrank]. split; [done|]. intros Hloads.
        rewrite (Hrank Hloads). lia. }
    destruct H as (Hf & Hl1 & Hs1 & Hrank).
    rewrite <- Hf in Hs1. specialize (IH t1 s1 Hl1 Hs1).
    destruct (settle t1 sched s1) as [s2 [t2|]].
    + rewrite Hf, Hrank in IH. destruct IH as (? & ? & ? & ->).
      split; [done|]. split; [done|]. split; [done|]. lia.
    + rewrite Hf, Hrank in IH. destruct IH as [H1 H2]. split; [done|].
      intros Hloads. specialize (H2 Hloads). lia.
Qed.

Lemma load_resumed file sched s :
  match load file sched s with
  | (s', Some t') =>
      task_file t' = file ∧ loading s s' ∧ stage file (task_await t') s' ∧
      rank (task_await t') = length sched
  | (s', None) => settled s file s' ∧ (loads file = true → 6 ≤ length sched)
  end.
Proof.
  unfold load.
  pose proof (openBook_loading file s) as H.
  destruct (openBook file s) as [s1 t].
  destruct H as (Hf & Hl & Hs & Hrank & _).
  rewrite <- Hf in Hs. pose proof (settle_resumed s sched t s1 Hl Hs) as H.
  destruct (settle t sched s1) as [s2 [t2|]].
  - rewrite Hf, Hrank in H. exact H.
  - by rewrite Hf, Hrank in H.
Qed.

(** Six resumptions end the call. *)
Lemma load_settles file sched s :
  6 ≤ length sched →
  ∃ s', load file sched s = (s', None) ∧ settled s file s'.
Proof.
  intros Hlen. pose proof (load_resumed file sched s) as H.
  destruct (load file sched s) as [s' [t'|]]; [|exists s'; by destruct H].
  destruct H as (_ & _ & _ & Hrank).
  pose proof (rank_le (task_await t')). lia.
Qed.

(** The ownership of the library's objects holds when the page is loaded
    and is kept by everything the page and the library do between two
    loads, by [resetBook], and by a load that runs to its end on its
    own. *)
Lemma update_rendition_owned f r s :
  (∀ o, rd_book (f o) = rd_book o ∧ rd_destroyed (f o) = rd_destroyed o) →
  owned s → owned (update_rendition f r s).
Proof.
  intros Hf Hown. apply owned_intro.
  - intros b Hb. by apply (owned_book s b Hown).
  - intros r' Hr. apply (owned_rendition s r' Hown).
    rewrite live_renditions_flags in *.
    rewrite update_rendition_flags in Hr; [done|]. intros o. apply Hf.
Qed.

Lemma owned_kept :
  (∀ stored, owned (initial_state stored)) ∧
  ∀ s, owned s →
    (∀ r ev, owned (emit r ev s)) ∧
    (∀ n b, owned (fill n b s)) ∧
    (∀ c, owned (step_button c s)) ∧
    (∀ key, owned (keydown key s)) ∧
    (∀ target, owned (toc_link_click target s)) ∧
    (∀ payload, owned (updateAuthUI (set_session payload s))) ∧
    owned (resetBook s) ∧
    (∀ file sched, 6 ≤ length sched → owned (fst (load file sched s))).
Proof.
  split; [intros stored; split; constructor|].
  intros s Hown.
  assert (∀ c r, owned (call_rendition c r s)) as Hcall
    by (intros c r; by apply update_rendition_owned).
  split; [|split; [|split; [|split; [|split; [|split; [|split]]]]]].
  - intros r ev. by destruct (emit_writes r ev s) as (l & d & ->).
  - intros n b. apply owned_intro.
    + intros b' Hb. apply (owned_book s b' Hown).
      rewrite live_books_flags in *. unfold fill in Hb.
      rewrite update_book_flags in Hb; [done|]. intros o. apply fill_epub.
    + intros r Hr. by apply (owned_rendition s r Hown).
  - intros c. unfold step_button, guardAuth.
    destruct (session s); [|done]. destruct (rendition s); [|done].
    apply Hcall.
  - intros key. unfold keydown.
    destruct (rendition s) as [r|]; [|done]. destruct (session s); [|done].
    repeat case_bool_decide; try done; try apply Hcall.
    apply update_rendition_owned; [done|apply Hcall].
  - intros target. unfold toc_link_click. destruct (rendition s); [|done].
    apply Hcall.
  - done.
  - destruct (resetBook_owned s Hown) as [Hb Hr].
    split; [rewrite Hb|rewrite Hr]; constructor.
  - intros file sched Hlen.
    destruct (load_settles file sched s Hlen) as (s' & -> & Hset).
    apply (holding_owned s); [done|apply Hset].
Qed.

(** C1, as the code has it.  When a step of the load fails, the call
    ends with the status "unable to load epub" and the error logged.  Of
    the handles that existed before the call, [resetBook] has destroyed
    the two the variables referred to and no other: all the live ones,
    when every live handle was referred to.  The handles made during the
    failed call are not released by the catch block: they are live and
    they stay in [book] and [rendition], until the next [resetBook] (the
    next [openBook], or logout) destroys them.  The session is Idle after
    the call exactly when the failure precedes the construction of the
    book object. *)
Theorem openBook_failure
  (file : File) (sched : list (list LibraryEvent)) (s : State) :
  loads file = false → 6 ≤ length sched →
  ∃ s',
    load file sched s = (s', None) ∧
    statusEl (dom s') = js "unable to load epub" ∧
    (∃ e, console s' = console s ++ [console_error e]) ∧
    (∀ b, b < length (books s) →
          (b ∈ live_books s' ↔ b ∈ live_books s ∧ book s ≠ Some b)) ∧
    (∀ r, r < length (renditions s) →
          (r ∈ live_renditions s' ↔
           r ∈ live_renditions s ∧ rendition s ≠ Some r)) ∧
    (owned s →
     (∀ b, b < length (books s) → b ∉ live_books s') ∧
     (∀ r, r < length (renditions s) → r ∉ live_renditions s')) ∧
    (∀ b, length (books s) ≤ b → b < length (books s') →
          b ∈ live_books s' ∧ book s' = Some b) ∧
    (∀ r, length (renditions s) ≤ r → r < length (renditions s') →
          r ∈ live_renditions s' ∧ rendition s' = Some r) ∧
    (constructs file = true →
     ∃ b, book s' = Some b ∧ length (books s) ≤ b ∧ b ∈ live_books s') ∧
    (idle s' ↔ constructs file = false) ∧
    (∀ b, length (books s) ≤ b → b ∉ live_books (resetBook s')) ∧
    (∀ r, length (renditions s) ≤ r → r ∉ live_renditions (resetBook s')) ∧
    idle (resetBook s').
Proof.
  intros Hloads Hlen.
  destruct (load_settles file sched s Hlen) as (s' & Hload & Hset).
  exists s'. unfold settled in Hset. rewrite Hloads in Hset.
  destruct Hset as (Hh & Hstatus & Hlog & Hidle & Hbook).
  destruct (holding_books s s' Hh) as (_ & Hbo & Hbn & Hbv).
  destruct (holding_renditions s s' Hh) as (_ & Hro & Hrn & Hrv).
  destruct (resetBook_releases s') as (Hb' & Hr' & Hidle' & _).
  split; [done|]. split; [done|]. split; [done|]. split; [done|].
  split; [done|]. split.
  { intros Hown. split.
    - intros b Hb [H1 H2]%Hbo; [|done]. by apply H2, owned_book.
    - intros r Hr [H1 H2]%Hro; [|done]. by apply H2, owned_rendition. }
  split; [done|]. split; [done|]. split.
  { intros Hc. destruct (Hbook Hc) as [b Hb]. exists b.
    destruct (Hbv b Hb) as (? & ? & ?). done. }
  split.
  { split; [|done]. intros [Hb _]. destruct (constructs file); [|done].
    destruct (Hbook eq_refl) as [b Hb2]. congruence. }
  split.
  { intros b Hle [Hlive Hne]%Hb'. apply Hne.
    apply Hbn; [done|]. apply elem_of_live_books in Hlive.
    destruct (books s' !! b) eqn:E; [|done]. by apply lookup_lt_Some in E. }
  split; [|done].
  intros r Hle [Hlive Hne]%Hr'. apply Hne.
  apply Hrn; [done|]. apply elem_of_live_renditions in Hlive.
  destruct (renditions s' !! r) eqn:E; [|done]. by apply lookup_lt_Some in E.
Qed.

(** While the call stays suspended it writes neither the status nor the
    current label. *)
Lemma renderToc_displayed items s :
  statusEl (dom (renderToc items s)) = statusEl (dom s) ∧
  currentLabel (renderToc items s) = currentLabel s.
Proof.
  unfold renderToc. destruct items as [|x items]; [done|].
  cbv zeta. by destruct (paint (x :: items) 0 _).
Qed.

Lemma resume_pending_status t s s' t' :
  resume t s = (s', Some t') →
  statusEl (dom s') = statusEl (dom s) ∧ currentLabel s' = currentLabel s.
Proof.
  destruct t as [file a].
  unfold resume, resume_ready, applyTheme, new_book, new_rendition.
  cbn [task_await task_file]. cbv zeta.
  destruct a as [[buffer|]|[]|[toc|]|[]|[metadata|]|b [n|]];
    try destruct (renderToc_displayed (default [] toc) s) as [H1 H2];
    repeat case_match; intros ?; simplify_eq; done.
Qed.

Lemma settle_quiet_status n :
  ∀ t s s' t',
    settle t (replicate n []) s = (s', Some t') →
    statusEl (dom s') = statusEl (dom s).
Proof.
  induction n as [|n IH]; intros t s s' t'; simpl.
  - by intros [= <- <-].
  - destruct (resume t s) as [s1 [t1|]] eqn:E; [|done].
    intros H. apply IH in H. rewrite H.
    by apply (resume_pending_status t s s1 t1).
Qed.

(** C3, as the code has it.  [openBook] awaits the generation of the
    location index as the last step of the load.  A resumption that
    leaves the call suspended never writes the status.  In a load that
    runs on its own and of which every step succeeds, after the five
    earlier resumptions the call is suspended on the generation, with
    the status still "loading epub..." when no listener has run; the
    status of readiness is written by the resumption that follows the
    settling of the generation, fulfilled or rejected.  A rejection is
    logged as a warning, not as an error; the code leaves the index as the
    library has left it, and no percentage is reported exactly as long as
    its length is 0. *)
Theorem generation_is_awaited
  (file : File) (e : Epub) (sched : list (list LibraryEvent))
  (evs : list LibraryEvent) (s : State) :
  arrayBuffer file = Some e → loads file = true →
  length sched = 5 →
  (∀ t s1 s2 t', resume t s1 = (s2, Some t') →
                 statusEl (dom s2) = statusEl (dom s1)) ∧
  ∃ s5 b,
    let t := {| task_file := file;
                task_await := AwaitGenerate b (locations_generate e) |} in
    load file sched s = (s5, Some t) ∧
    (sched = replicate 5 [] → statusEl (dom s5) = js "loading epub...") ∧
    console s5 = console s ∧
    ∃ s6,
      resume t (occur_all evs s5) = (s6, None) ∧
      statusEl (dom s6) = js "use arrows, nav, or scroll freely" ∧
      match locations_generate e with
      | Some n => console s6 = console s
      | None =>
          console s6 =
            console s ++ [console_warn (js "locations unavailable")
                            (Rejected "book.locations.generate")] ∧
          locations_length s6 = locations_length (occur_all evs s5) ∧
          ∀ location,
            percent location s6 = None ↔ locations_length s6 = 0
      end.
Proof.
  intros Harr Hloads Hlen.
  split; [intros t s1 s2 t' H; by apply (resume_pending_status t s1 s2 t')|].
  pose proof (load_resumed file sched s) as H.
  destruct (load file sched s) as [s5 [t|]] eqn:Hload.
  2:{ destruct H as [_ H]. specialize (H Hloads). lia. }
  destruct H as (Hf & Hl & Hs & Hrank).
  destruct t as [file' a]. simpl in Hf, Hs, Hrank. subst file'.
  destruct a as [| | | | |b p]; simpl in Hrank; try lia.
  pose proof Hs as (e' & Harr' & _ & -> & Hbook & Hepub & Hre).
  assert (e' = e) as -> by congruence.
  exists s5, b. cbv zeta. split; [done|]. split.
  { intros ->. unfold load in Hload.
    pose proof (openBook_loading file s) as H0.
    destruct (openBook file s) as [s1 t1].
    destruct H0 as (_ & _ & _ & _ & _ & Hst).
    apply settle_quiet_status in Hload. by rewrite Hload. }
  split; [apply Hl|].
  pose proof (resume_generate_loading s file b (locations_generate e)
                (occur_all evs s5) (occur_all_loading evs s s5 Hl)
                (occur_all_stage evs _ _ s5 Hs)) as H.
  destruct (resume _ _) as [s6 [t6|]] eqn:E.
  { unfold resume in E. simpl in E.
    by destruct (locations_generate e). }
  exists s6. split; [done|]. destruct H as [H _].
  unfold settled in H. rewrite Hloads, Harr in H. simpl (_ ≫= _) in H.
  destruct H as (_ & Hstatus & _ & _ & H). split; [done|].
  destruct (locations_generate e) as [n|]; [by destruct H|].
  split; [done|]. split; [|intros location; apply percent_unavailable].
  unfold resume in E. cbn [task_await] in E. injection E as <-.
  change (locations_length (complete (log _ ?x))) with (locations_length x).
  unfold generate_failed. by apply update_book_locations_length.
Qed.

(** C2, as the code has it.  When a book is opened while another one is
    active, [resetBook] calls [destroy()] on the rendition and the book
    the variables refer to before the new load starts.  When the new load
    runs on its own to its end, these two are not live after it; the
    variables refer to objects the new load has made, which are live; and
    a live object is one of these or one that was live before and that no
    variable referred to, of which there is none when every live object
    was referred to.  Neither the listeners nor the resumptions of
    [openBook] compare a generation. *)
Theorem book_switch_releases
  (fileB : File) (sched : list (list LibraryEvent))
  (s : State) (rA bA : handle) :
  rendition s = Some rA → book s = Some bA →
  rA ∈ live_renditions s → bA ∈ live_books s →
  6 ≤ length sched →
  (rA ∉ live_renditions (fst (openBook fileB s))) ∧
  (bA ∉ live_books (fst (openBook fileB s))) ∧
  ∃ s',
    load fileB sched s = (s', None) ∧
    (rA ∉ live_renditions s') ∧ (bA ∉ live_books s') ∧
    (∀ r, rendition s' = Some r →
          length (renditions s) ≤ r ∧ r ∈ live_renditions s') ∧
    (∀ b, book s' = Some b → length (books s) ≤ b ∧ b ∈ live_books s') ∧
    (loads fileB = true → is_Some (rendition s') ∧ is_Some (book s')) ∧
    (∀ r, r ∈ live_renditions s' →
          rendition s' = Some r ∨ (r ∈ live_renditions s ∧ r ≠ rA)) ∧
    (∀ b, b ∈ live_books s' →
          book s' = Some b ∨ (b ∈ live_books s ∧ b ≠ bA)) ∧
    (owned s →
     (∀ r, r ∈ live_renditions s' → rendition s' = Some r) ∧
     (∀ b, b ∈ live_books s' → book s' = Some b)).
Proof.
  intros HrA HbA HlrA HlbA Hlen.
  destruct (resetBook_releases s) as (Hb0 & Hr0 & _).
  split; [|split].
  { change (live_renditions (fst (openBook fileB s)))
      with (live_renditions (resetBook s)).
    intros [_ H]%Hr0. done. }
  { change (live_books (fst (openBook fileB s)))
      with (live_books (resetBook s)).
    intros [_ H]%Hb0. done. }
  destruct (load_settles fileB sched s Hlen) as (s' & Hload & Hset).
  exists s'. split; [done|].
  destruct Hset as (Hh & Hfin).
  destruct (holding_books s s' Hh) as (_ & Hbo & Hbn & Hbv).
  destruct (holding_renditions s s' Hh) as (_ & Hro & Hrn & Hrv).
  assert (rA < length (renditions s)) as HltA.
  { apply elem_of_live_renditions in HlrA.
    destruct (renditions s !! rA) eqn:E; [|done].
    by apply lookup_lt_Some in E. }
  assert (bA < length (books s)) as HltB.
  { apply elem_of_live_books in HlbA.
    destruct (books s !! bA) eqn:E; [|done].
    by apply lookup_lt_Some in E. }
  assert (∀ r, r ∈ live_renditions s' →
               rendition s' = Some r ∨ (r ∈ live_renditions s ∧ r ≠ rA))
    as Hlr.
  { intros r Hr. destruct (decide (r < length (renditions s))) as [Hlt|Hge].
    - right. apply Hro in Hr as [Hr Hne]; [|done]. split; [done|congruence].
    - left. apply Hrn; [lia|]. apply elem_of_live_renditions in Hr.
      destruct (renditions s' !! r) eqn:E; [|done].
      by apply lookup_lt_Some in E. }
  assert (∀ b, b ∈ live_books s' →
               book s' = Some b ∨ (b ∈ live_books s ∧ b ≠ bA)) as Hlb.
  { intros b Hb. destruct (decide (b < length (books s))) as [Hlt|Hge].
    - right. apply Hbo in Hb as [Hb Hne]; [|done]. split; [done|congruence].
    - left. apply Hbn; [lia|]. apply elem_of_live_books in Hb.
      destruct (books s' !! b) eqn:E; [|done].
      by apply lookup_lt_Some in E. }
  split; [intros [_ H]%Hro; done|].
  split; [intros [_ H]%Hbo; done|].
  split; [intros r Hr; destruct (Hrv r Hr) as (? & ? & ?); done|].
  split; [intros b Hb; destruct (Hbv b Hb) as (? & ? & ?); done|].
  split.
  { intros Hloads. rewrite Hloads in Hfin.
    by destruct Hfin as (_ & ? & ? & _). }
  split; [done|]. split; [done|].
  intros Hown. split.
  - intros r Hr. destruct (Hlr r Hr) as [?|[H1 H2]]; [done|].
    apply (owned_rendition s r Hown) in H1. congruence.
  - intros b Hb. destruct (Hlb b Hb) as [?|[H1 H2]]; [done|].
    apply (owned_book s b Hown) in H1. congruence.
Qed.

(** In the model of the library, where the index of a book is empty until
    [generate] is called on it: in a load that runs on its own the length
    is 0 at every suspension that precedes the call of [generate]. *)
Lemma load_unindexed file sched s0 s t :
  load file sched s0 = (s, Some t) → rank (task_await t) ≤ 4 →
  locations_length s = 0.
Proof.
  intros Hload Hrank.
  pose proof (load_resumed file sched s0) as H. rewrite Hload in H.
  destruct H as (_ & _ & Hs & _).
  destruct (task_await t) as [p|p|p|p|p|b p]; simpl in Hs, Hrank.
  - destruct Hs as (_ & Hb & _). unfold locations_length. by rewrite Hb.
  - destruct Hs as (e & _ & _ & _ & _ & _ & Hu). by apply unindexed_length.
  - destruct Hs as (e & _ & _ & _ & _ & _ & _ & _ & Hu).
    by apply unindexed_length.
  - destruct Hs as (e & _ & _ & _ & _ & _ & _ & _ & _ & Hu).
    by apply unindexed_length.
  - destruct Hs as (e & _ & _ & _ & _ & _ & _ & _ & _ & _ & Hu).
    by apply unindexed_length.
  - lia.
Qed.

(** C8, as the code has it.  [updateProgress] reports no number, and
    leaves the page as it is, exactly when there is no book or [length()]
    of its location index is 0, whatever the location.  It does not ask
    whether the index has been built to its end: for a book whose index
    is being generated and holds locations already, a number is
    reported. *)
Theorem percent_unavailable_without_index
  (location : Location) (s : State) :
  (percent location s = None ↔ locations_length s = 0) ∧
  (locations_length s = 0 → updateProgress location s = s) ∧
  (∀ b o, book s = Some b → books s !! b = Some o →
          bk_generating o = true → bk_locations_length o ≠ 0 →
          percent location s =
          Some (Math_round
                  (multiply (locations_percentageFromCfi (bk_epub o)
                               (start_cfi location)) (Number_of_Z 100)))).
Proof.
  split; [apply percent_unavailable|]. split.
  - intros H. apply (percent_unavailable location) in H.
    unfold updateProgress. by rewrite H.
  - intros b o Hb Ho _ Hlen. by apply (percent_available location s b o).
Qed.

(** [resetBook] touches neither the session nor the storage. *)
Lemma resetBook_kept s :
  session (resetBook s) = session s ∧
  localStorage (resetBook s) = localStorage s.
Proof.
  unfold resetBook. simpl.
  destruct (rendition s); simpl; destruct (book s); done.
Qed.

Lemma display_kept status title author s :
  session (setStatus status (setMeta title author s)) = session s ∧
  localStorage (setStatus status (setMeta title author s)) = localStorage s.
Proof. done. Qed.

(** ** The authorisation gate *)


(** ** The persisted session *)

Section AuthProperties.

Variable JSON_stringify : SessionPayload → jsstring.
Variable JSON_parse : jsstring → option (option SessionPayload).

Lemma persistSession_persisted payload s :
  session_persisted JSON_stringify (persistSession JSON_stringify payload s) ∧
  session (persistSession JSON_stringify payload s) = payload.
Proof.
  unfold session_persisted, persistSession.
  destruct payload as [p|]; simpl.
  - by rewrite lookup_insert_eq.
  - by rewrite lookup_delete_eq.
Qed.

(** C10.  After [persistSession], with a payload or with null, after
    either outcome of the revalidation in [bootstrapSession] (of a stored
    session, and of a stored null), after a stored entry that does not
    parse, and after logout, the entry of localStorage under the session
    key is the serialisation of the variable [session] when that is not
    null, and is absent when it is null. *)
Theorem session_mirrored_in_storage :
  (∀ payload s,
      let s' := persistSession JSON_stringify payload s in
      session s' = payload ∧
      localStorage s' !! SESSION_KEY = JSON_stringify <$> payload) ∧
  (∀ parsed response s,
      let s' :=
        bootstrapSession_resume JSON_stringify (Some parsed) response s in
      session s' =
        (fun u => {| token := token parsed; user := u |}) <$> response ∧
      localStorage s' !! SESSION_KEY = JSON_stringify <$> session s') ∧
  (∀ response s,
      let s' := bootstrapSession_resume JSON_stringify None response s in
      session s' = None ∧ localStorage s' !! SESSION_KEY = None) ∧
  (∀ s stored,
      localStorage s !! SESSION_KEY = Some stored → stored ≠ [] →
      JSON_parse stored = None →
      let s' := fst (bootstrapSession JSON_stringify JSON_parse s) in
      session s' = None ∧ localStorage s' !! SESSION_KEY = None) ∧
  (∀ s,
      let s' := logout JSON_stringify s in
      session s' = None ∧ localStorage s' !! SESSION_KEY = None) ∧
  (∀ s, session_persisted JSON_stringify s →
        (is_Some (localStorage s !! SESSION_KEY) ↔ is_Some (session s))).
Proof.
  split; [|split; [|split; [|split; [|split]]]].
  - intros payload s s'. subst s'.
    destruct (persistSession_persisted payload s) as [H1 H2].
    split; [done|]. unfold session_persisted in H1. by rewrite H1, H2.
  - intros parsed response s s'. subst s'. unfold bootstrapSession_resume.
    destruct response as [u|];
      match goal with
      | |- context [persistSession _ ?p s] =>
          destruct (persistSession_persisted p s) as [H1 H2]
      end; by rewrite H2.
  - intros response s s'. subst s'. unfold bootstrapSession_resume.
    destruct (persistSession_persisted None s) as [H1 H2].
    unfold session_persisted in H1. rewrite H2 in H1.
    by destruct response.
  - intros s stored Hst Hne Hparse s'. subst s'. unfold bootstrapSession.
    rewrite Hst. destruct stored as [|c stored]; [done|].
    rewrite Hparse. simpl. by rewrite lookup_delete_eq.
  - intros s s'. subst s'. unfold logout. cbv zeta.
    destruct (persistSession_persisted None s) as [H1 H2].
    destruct (resetBook_kept (persistSession JSON_stringify None s))
      as [H3 H4].
    destruct (display_kept (js "signed out") (js "no book loaded") None
                (resetBook (persistSession JSON_stringify None s)))
      as [H5 H6].
    rewrite H5, H6, H3, H4, H2. split; [done|].
    unfold session_persisted in H1. by rewrite H1, H2.
  - intros s H. unfold session_persisted in H. rewrite H.
    by rewrite fmap_is_Some.
Qed.

End AuthProperties.

(** * The properties on the examples *)

(** C1, against the claim as the specification states it: after a load
    that has failed at the first display, the book object and the
    rendition made during the attempt are still live, still held in
    [book] and [rendition], and the rendition is still in the viewer; the
    session is not Idle, and the status is not the text the
    specification quotes. *)
Lemma failed_load_keeps_handles :
  loads failing_file = false ∧
  snd (load failing_file quiet signed_in) = None ∧
  book after_failure = Some 0 ∧ rendition after_failure = Some 0 ∧
  live_books after_failure = [0] ∧ live_renditions after_failure = [0] ∧
  viewerEl (dom after_failure) = [0] ∧
  ¬ idle after_failure ∧
  statusEl (dom after_failure) = js "unable to load epub" ∧
  statusEl (dom after_failure) ≠ js "unable to load book".
Proof.
  split; [vm_compute; reflexivity|]. split; [vm_compute; reflexivity|].
  split; [vm_compute; reflexivity|]. split; [vm_compute; reflexivity|].
  split; [vm_compute; reflexivity|]. split; [vm_compute; reflexivity|].
  split; [vm_compute; reflexivity|]. split.
  - intros [H _]. vm_compute in H. discriminate H.
  - split; [vm_compute; reflexivity|].
    intros H. vm_compute in H. discriminate H.
Qed.

Lemma openBook_failure_witness :
  loads failing_file = false ∧ 6 ≤ length quiet ∧
  ∃ s',
    load failing_file quiet signed_in = (s', None) ∧
    statusEl (dom s') = js "unable to load epub" ∧
    (∃ e, console s' = console signed_in ++ [console_error e]) ∧
    (∀ b, b < length (books signed_in) →
          (b ∈ live_books s' ↔ b ∈ live_books signed_in ∧ book signed_in ≠ Some b)) ∧
    (∀ r, r < length (renditions signed_in) →
          (r ∈ live_renditions s' ↔
           r ∈ live_renditions signed_in ∧ rendition signed_in ≠ Some r)) ∧
    (owned signed_in →
     (∀ b, b < length (books signed_in) → b ∉ live_books s') ∧
     (∀ r, r < length (renditions signed_in) → r ∉ live_renditions s')) ∧
    (∀ b, length (books signed_in) ≤ b → b < length (books s') →
          b ∈ live_books s' ∧ book s' = Some b) ∧
    (∀ r, length (renditions signed_in) ≤ r → r < length (renditions s') →
          r ∈ live_renditions s' ∧ rendition s' = Some r) ∧
    (constructs failing_file = true →
     ∃ b, book s' = Some b ∧ length (books signed_in) ≤ b ∧ b ∈ live_books s') ∧
    (idle s' ↔ constructs failing_file = false) ∧
    (∀ b, length (books signed_in) ≤ b → b ∉ live_books (resetBook s')) ∧
    (∀ r, length (renditions signed_in) ≤ r → r ∉ live_renditions (resetBook s')) ∧
    idle (resetBook s').
Proof.
  assert (6 ≤ length quiet) as Hlen by (simpl; lia).
  split; [vm_compute; reflexivity|]. split; [exact Hlen|].
  exact (openBook_failure failing_file quiet signed_in eq_refl Hlen).
Defined.

(** C2, against the claim as the specification states it.  In
    [superseding] the load of the second file has returned, and the call
    for the first file is still suspended on the bytes of its file.  When
    that call, superseded, runs on, it overwrites what the newer load has
    put on the page: the meta line, the navigation panel, the variables
    [book] and [rendition]; the rendition of the newer book stays live,
    and in the viewer, without a variable that refers to it; and the
    rendition the superseded call has made writes the label and the
    status when it emits. *)
Lemma superseded_load_writes :
  pending superseding =
    [{| task_file := demo_file;
        task_await := AwaitArrayBuffer (Some demo_epub) |}] ∧
  displayed (st superseding) =
    (js "idle", js "use arrows, nav, or scroll freely", js "Other") ∧
  rendition (st superseding) = Some 0 ∧ book (st superseding) = Some 0 ∧
  pending superseded = [] ∧
  displayed (st superseded) =
    (js "idle", js "use arrows, nav, or scroll freely", js "A Book / Ann") ∧
  displayed (st superseded) ≠ displayed (st superseding) ∧
  tocEl (dom (st superseded)) ≠ tocEl (dom (st superseding)) ∧
  rendition (st superseded) = Some 1 ∧ book (st superseded) = Some 1 ∧
  live_renditions (st superseded) = [0; 1] ∧
  live_books (st superseded) = [0; 1] ∧
  viewerEl (dom (st superseded)) = [0; 1] ∧
  ¬ owned (st superseded) ∧
  displayed (st (step (emits 1 (rendered (js "ch1.xhtml"))) superseded)) =
    (js "Section 1.1", js "Section 1.1", js "A Book / Ann") ∧
  displayed (st (step (emits 1 (rendered (js "ch1.xhtml"))) superseded)) ≠
    displayed (st superseded).
Proof.
  split; [vm_compute; reflexivity|]. split; [vm_compute; reflexivity|].
  split; [vm_compute; reflexivity|]. split; [vm_compute; reflexivity|].
  split; [vm_compute; reflexivity|]. split; [vm_compute; reflexivity|].
  split; [intros H; vm_compute in H; discriminate H|].
  split; [intros H; vm_compute in H; discriminate H|].
  split; [vm_compute; reflexivity|]. split; [vm_compute; reflexivity|].
  split; [vm_compute; reflexivity|]. split; [vm_compute; reflexivity|].
  split; [vm_compute; reflexivity|]. split.
  { intros [H _]. vm_compute in H. inversion H as [|? ? H1 _].
    discriminate H1. }
  split; [vm_compute; reflexivity|].
  intros H. vm_compute in H. discriminate H.
Qed.

Lemma book_switch_releases_witness :
  rendition demo_ready = Some 0 ∧ book demo_ready = Some 0 ∧
  0 ∈ live_renditions demo_ready ∧ 0 ∈ live_books demo_ready ∧
  6 ≤ length quiet ∧
  (0 ∉ live_renditions (fst (openBook other_file demo_ready))) ∧
  (0 ∉ live_books (fst (openBook other_file demo_ready))) ∧
  ∃ s',
    load other_file quiet demo_ready = (s', None) ∧
    (0 ∉ live_renditions s') ∧ (0 ∉ live_books s') ∧
    (∀ r, rendition s' = Some r →
          length (renditions demo_ready) ≤ r ∧ r ∈ live_renditions s') ∧
    (∀ b, book s' = Some b → length (books demo_ready) ≤ b ∧ b ∈ live_books s') ∧
    (loads other_file = true → is_Some (rendition s') ∧ is_Some (book s')) ∧
    (∀ r, r ∈ live_renditions s' →
          rendition s' = Some r ∨ (r ∈ live_renditions demo_ready ∧ r ≠ 0)) ∧
    (∀ b, b ∈ live_books s' →
          book s' = Some b ∨ (b ∈ live_books demo_ready ∧ b ≠ 0)) ∧
    (owned demo_ready →
     (∀ r, r ∈ live_renditions s' → rendition s' = Some r) ∧
     (∀ b, b ∈ live_books s' → book s' = Some b)).
Proof.
  assert (rendition demo_ready = Some 0) as H1 by (vm_compute; reflexivity).
  assert (book demo_ready = Some 0) as H2 by (vm_compute; reflexivity).
  assert (0 ∈ live_renditions demo_ready) as Hr by (vm_compute; constructor).
  assert (0 ∈ live_books demo_ready) as Hb by (vm_compute; constructor).
  assert (6 ≤ length quiet) as Hlen by (simpl; lia).
  split; [exact H1|]. split; [exact H2|]. split; [exact Hr|].
  split; [exact Hb|]. split; [exact Hlen|].
  exact (book_switch_releases other_file quiet demo_ready 0 0
           H1 H2 Hr Hb Hlen).
Defined.

(** C3, against the claim as the specification states it: with the
    generation of the location index requested and not yet settled, the
    call is suspended and the status is still "loading epub...", not the
    status of readiness. *)
Lemma ready_waits_for_generation :
  snd (load demo_file (replicate 5 []) signed_in) = Some demo_generating ∧
  statusEl (dom generating) = js "loading epub..." ∧
  statusEl (dom generating) ≠ js "use arrows, nav, or scroll freely".
Proof.
  split; [vm_compute; reflexivity|]. split; [vm_compute; reflexivity|].
  intros H. vm_compute in H. discriminate H.
Qed.

Lemma generation_is_awaited_witness :
  arrayBuffer unindexed_file = Some unindexed_epub ∧
  loads unindexed_file = true ∧
  length (replicate 5 ([] : list LibraryEvent)) = 5 ∧
  (∀ t s1 s2 t', resume t s1 = (s2, Some t') →
                 statusEl (dom s2) = statusEl (dom s1)) ∧
  ∃ s5 b,
    let t := {| task_file := unindexed_file;
                task_await := AwaitGenerate b (locations_generate unindexed_epub) |} in
    load unindexed_file (replicate 5 []) signed_in = (s5, Some t) ∧
    (replicate 5 ([] : list LibraryEvent) = replicate 5 [] →
     statusEl (dom s5) = js "loading epub...") ∧
    console s5 = console signed_in ∧
    ∃ s6,
      resume t (occur_all [filled 0 7] s5) = (s6, None) ∧
      statusEl (dom s6) = js "use arrows, nav, or scroll freely" ∧
      match locations_generate unindexed_epub with
      | Some n => console s6 = console signed_in
      | None =>
          console s6 =
            console signed_in ++ [console_warn (js "locations unavailable")
                            (Rejected "book.locations.generate")] ∧
          locations_length s6 = locations_length (occur_all [filled 0 7] s5) ∧
          ∀ location,
            percent location s6 = None ↔ locations_length s6 = 0
      end.
Proof.
  split; [reflexivity|]. split; [vm_compute; reflexivity|].
  split; [reflexivity|].
  exact (generation_is_awaited unindexed_file unindexed_epub
           (replicate 5 []) [filled 0 7] signed_in eq_refl eq_refl eq_refl).
Defined.

(** C4, against the claim as the specification states it: the book is
    loaded, its location index could not be built, the current label is
    "idle"; a "relocated" event leaves the status of readiness in place
    and does not publish the label. *)
Lemma relocated_without_percentage_keeps_status :
  renditions unindexed_ready !! 0 = Some demo_rendition ∧
  percent demo_location unindexed_ready = None ∧
  currentLabel (emit 0 (relocated demo_location) unindexed_ready) = js "idle" ∧
  statusEl (dom (emit 0 (relocated demo_location) unindexed_ready)) =
    js "use arrows, nav, or scroll freely" ∧
  statusEl (dom (emit 0 (relocated demo_location) unindexed_ready)) ≠
    currentLabel (emit 0 (relocated demo_location) unindexed_ready).
Proof.
  split; [vm_compute; reflexivity|]. split; [vm_compute; reflexivity|].
  split; [vm_compute; reflexivity|]. split; [vm_compute; reflexivity|].
  intros H. vm_compute in H. discriminate H.
Qed.

Lemma relocated_status_witness :
  renditions demo_ready !! 0 = Some demo_rendition ∧
  rd_on_relocated demo_rendition = true ∧
  match percent demo_location demo_ready with
  | Some pct =>
      emit 0 (relocated demo_location) demo_ready =
      setStatus ((if bool_decide (currentLabel demo_ready = [])
                  then js "reading" else currentLabel demo_ready)
                 ++ js " / " ++ Number_toString pct ++ js "%") demo_ready
  | None => emit 0 (relocated demo_location) demo_ready = demo_ready
  end.
Proof.
  split; [vm_compute; reflexivity|]. split; [vm_compute; reflexivity|].
  exact (relocated_status 0 demo_rendition demo_location demo_ready
           eq_refl eq_refl).
Defined.

(** C5, against the claim as the specification states it: at the
    fractional position 0.5005 the percentage is 50, not 51. *)
Lemma percent_of_0_5005_is_50 :
  locations_percentageFromCfi (bk_epub demo_book) (start_cfi demo_location) =
    position 5005 10000 ∧
  (real (position 5005 10000) - (5005 # 10000) < 1 # 10 ^ 16)%Q ∧
  ((5005 # 10000) - real (position 5005 10000) < 1 # 10 ^ 16)%Q ∧
  books demo_ready !! 0 = Some demo_book ∧
  percent demo_location demo_ready = Some (int 50) ∧
  percent demo_location demo_ready ≠ Some (int 51) ∧
  statusEl (dom (emit 0 (relocated demo_location) demo_ready)) =
    js "idle / 50%".
Proof.
  split; [vm_compute; reflexivity|]. split; [vm_compute; reflexivity|].
  split; [vm_compute; reflexivity|]. split; [vm_compute; reflexivity|].
  split; [vm_compute; reflexivity|].
  split; [|vm_compute; reflexivity].
  intros H. vm_compute in H. discriminate H.
Qed.

Lemma percent_rounds_to_nearest_witness :
  book demo_ready = Some 0 ∧ books demo_ready !! 0 = Some demo_book ∧
  bk_locations_length demo_book ≠ 0 ∧
  let x := locations_percentageFromCfi (bk_epub demo_book) (start_cfi demo_location) in
  let product := multiply x (Number_of_Z 100) in
  percent demo_location demo_ready = Some (Math_round product) ∧
  (finite product = true →
   ∃ pct : Z,
     Math_round product = int pct ∧
     (real product - (1 # 2) < inject_Z pct ∧
      inject_Z pct <= real product + (1 # 2))%Q ∧
     ((0 <= real product)%Q →
      pct = round_half_away_from_zero (real product))) ∧
  (valid x = true → finite x = true → (0 <= real x)%Q → (real x <= 1)%Q →
   ∃ pct : Z, Math_round product = int pct ∧ (0 ≤ pct ≤ 100)%Z) ∧
  (x = position 5005 10000 → Math_round product = int 50) ∧
  (x = position 505 1000 → Math_round product = int 51) ∧
  (x = position 75 1000 →
   Math_round product = int 8 ∧
   Qfloor (real x * 100 + (1 # 2)) = 7%Z).
Proof.
  assert (bk_locations_length demo_book ≠ 0) as Hlen by (simpl; lia).
  split; [vm_compute; reflexivity|]. split; [vm_compute; reflexivity|].
  split; [exact Hlen|].
  exact (percent_rounds_to_nearest demo_location demo_ready 0 demo_book
           eq_refl eq_refl Hlen).
Defined.

Lemma label_index_last_writer_wins_witness :
  mkNavItem (js "n1") (js "ch1.xhtml") (js " Chapter 1 ")
    (Some [mkNavItem (js "n2") (js "ch1.xhtml#s1") (js "  Section 1.1 ")
             None])
    ∈ preorder demo_toc ∧
  cleanHref (js "ch1.xhtml#p4") = js "ch1.xhtml" ∧
  last_visit (js "ch1.xhtml") demo_toc =
    Some (mkNavItem (js "n2") (js "ch1.xhtml#s1") (js "  Section 1.1 ")
            None) ∧
  resolve (renderToc demo_toc signed_in) (js "ch1.xhtml#p4") =
    Some (js "Section 1.1") ∧
  ∃ w v, last_visit (js "ch1.xhtml") demo_toc = Some w ∧
         resolve (renderToc demo_toc signed_in) (js "ch1.xhtml#p4") =
           Some v ∧
         trimmed_of (label w) v.
Proof.
  split; [simpl; constructor|]. split; [vm_compute; reflexivity|].
  split; [vm_compute; reflexivity|]. split; [vm_compute; reflexivity|].
  refine (label_index_last_writer_wins demo_toc signed_in
            (mkNavItem (js "n1") (js "ch1.xhtml") (js " Chapter 1 ")
               (Some [mkNavItem (js "n2") (js "ch1.xhtml#s1")
                        (js "  Section 1.1 ") None]))
            (js "ch1.xhtml#p4") _ eq_refl).
  simpl. constructor.
Defined.



(** C8, against the claim as the specification states it: the call of
    [openBook] is suspended on the generation of the location index, the
    index is not built to its end, the library has put ten locations in
    it; a "relocated" event then reports a number. *)
Lemma percent_reported_while_generating :
  snd (load other_file (replicate 5 []) signed_in) =
    Some {| task_file := other_file; task_await := AwaitGenerate 0 (Some 3) |} ∧
  bk_generating <$> books other_generating !! 0 = Some true ∧
  locations_length other_generating = 0 ∧
  bk_generating <$> books (fill 10 0 other_generating) !! 0 = Some true ∧
  locations_length (fill 10 0 other_generating) = 10 ∧
  percent demo_location (fill 10 0 other_generating) = Some (int 0) ∧
  percent demo_location (fill 10 0 other_generating) ≠ None ∧
  statusEl (dom (emit 0 (relocated demo_location)
                   (fill 10 0 other_generating))) = js "idle / 0%".
Proof.
  split; [vm_compute; reflexivity|]. split; [vm_compute; reflexivity|].
  split; [vm_compute; reflexivity|]. split; [vm_compute; reflexivity|].
  split; [vm_compute; reflexivity|]. split; [vm_compute; reflexivity|].
  split; [|vm_compute; reflexivity].
  intros H. vm_compute in H. discriminate H.
Qed.

(** * Further properties of the page *)

(** ** cleanHref, cleanText and setMeta *)

Lemma split_first_no_sep sep s : sep ∉ split_first sep s.
Proof.
  induction s as [|c t IH]; simpl; [apply not_elem_of_nil|].
  destruct (N.eqb_spec c sep) as [->|Hne]; [apply not_elem_of_nil|].
  apply not_elem_of_cons. by split.
Qed.

Lemma split_first_prefix sep s : split_first sep s `prefix_of` s.
Proof.
  induction s as [|c t IH]; simpl; [done|].
  destruct (c =? sep)%N; [apply prefix_nil|]. by apply prefix_cons.
Qed.

Lemma split_first_app sep a b :
  sep ∉ a → split_first sep (a ++ sep :: b) = a.
Proof.
  induction a as [|c t IH]; simpl; intros Ha.
  - by rewrite N.eqb_refl.
  - apply not_elem_of_cons in Ha as [Hc Ht].
    destruct (N.eqb_spec c sep) as [->|_]; [done|]. by rewrite IH.
Qed.

Lemma split_first_all sep s : sep ∉ s → split_first sep s = s.
Proof.
  induction s as [|c t IH]; simpl; intros Hs; [done|].
  apply not_elem_of_cons in Hs as [Hc Ht].
  destruct (N.eqb_spec c sep) as [->|_]; [done|]. by rewrite IH.
Qed.

(** X1.  [cleanHref] keeps what stands before the first '#': its result
    is a prefix of the href and holds no '#'; an href without '#' is
    returned as it is, and cleaning twice is cleaning once. *)
Theorem cleanHref_strips_fragment (h : jsstring) :
  (35%N ∉ cleanHref h) ∧
  cleanHref h `prefix_of` h ∧
  (35%N ∉ h → cleanHref h = h) ∧
  (∀ a b, h = a ++ 35%N :: b → 35%N ∉ a → cleanHref h = a) ∧
  cleanHref (cleanHref h) = cleanHref h.
Proof.
  unfold cleanHref. split; [apply split_first_no_sep|].
  split; [apply split_first_prefix|]. split; [apply split_first_all|].
  split; [intros a b -> Ha; by apply split_first_app|].
  apply split_first_all, split_first_no_sep.
Qed.

Lemma split_pop_from_sep sep cur s :
  sep ∉ cur → sep ∉ split_pop_from sep cur s.
Proof.
  revert cur. induction s as [|c t IH]; intros cur Hcur; simpl; [done|].
  destruct (N.eqb_spec c sep) as [->|Hne].
  - apply IH, not_elem_of_nil.
  - apply IH. rewrite elem_of_app, list_elem_of_singleton. intros [H|H]; done.
Qed.

Lemma replace_dash_underscore_elem s c :
  c ∈ replace_dash_underscore s →
  c ≠ 45%N ∧ c ≠ 95%N ∧ (c = 32%N ∨ c ∈ s).
Proof.
  unfold replace_dash_underscore. rewrite list_elem_of_In, in_map_iff.
  intros (d & Hd & Hin). apply list_elem_of_In in Hin.
  destruct (N.eqb_spec d 45) as [E1|H1]; simpl in Hd; [by subst c; auto|].
  destruct (N.eqb_spec d 95) as [E2|H2]; simpl in Hd; [by subst c; auto|].
  subst c. auto.
Qed.

Lemma replace_extension_prefix s : replace_extension s `prefix_of` s.
Proof.
  induction s as [|c t IH]; simpl; [done|].
  destruct (_ && _); [apply prefix_nil|]. by apply prefix_cons.
Qed.

(** X2.  Whatever the value, [cleanText] returns a string without '/',
    '-' or '_' and without white space at either end.  A name that is
    only an extension, like ".epub", gives the empty string. *)
Theorem cleanText_tidy (v : jsstring) :
  (47%N ∉ cleanText v) ∧ (45%N ∉ cleanText v) ∧ (95%N ∉ cleanText v) ∧
  trimmed (cleanText v) ∧
  (∀ ext, v = 46%N :: ext → 46%N ∉ ext → 47%N ∉ ext → ext ≠ [] →
          cleanText v = []).
Proof.
  assert (∀ c, c ∈ cleanText v →
               c ≠ 45%N ∧ c ≠ 95%N ∧ (c = 32%N ∨ c ∈ split_pop 47 v)) as H.
  { intros c Hc. unfold cleanText in Hc. apply trim_elem in Hc.
    apply replace_dash_underscore_elem.
    apply (elem_of_prefix _ _ _ Hc), replace_extension_prefix. }
  split.
  { intros Hc. destruct (H _ Hc) as (_ & _ & [?|Hin]); [done|].
    revert Hin. apply split_pop_from_sep, not_elem_of_nil. }
  split; [intros Hc; by destruct (H _ Hc) as (? & _)|].
  split; [intros Hc; by destruct (H _ Hc) as (_ & ? & _)|].
  split; [apply trim_trimmed|].
  intros ext -> Hdot Hslash Hne. unfold cleanText, split_pop.
  rewrite (split_pop_from_no_sep 47 [] (46%N :: ext)).
  - simpl app. change (replace_dash_underscore (46%N :: ext))
      with ([] ++ 46%N :: replace_dash_underscore ext).
    rewrite replace_extension_strip; [done| |by destruct ext].
    by apply replace_dash_underscore_no_dot.
  - apply not_elem_of_cons. by split.
Qed.

(** X3.  [setMeta] shows the title alone when the author is missing,
    empty or made of white space only, and "title / author" otherwise,
    with the author as it was passed; it writes nothing but the meta
    line. *)
Theorem setMeta_author (title_ : jsstring) (author : option jsstring)
  (s : State) :
  setMeta title_ author s =
  set_dom
    (set_metaEl
       match author with
       | Some a => if forallb is_space a then title_
                   else title_ ++ js " / " ++ a
       | None => title_
       end (dom s)) s.
Proof.
  unfold setMeta. destruct author as [[|c a]|]; [done| |done].
  destruct (forallb is_space (c :: a)) eqn:Hsp.
  - apply trim_nil in Hsp. by rewrite Hsp.
  - destruct (trim (c :: a)) as [|d t] eqn:Ht; [|done].
    apply trim_nil in Ht. congruence.
Qed.

(** ** The navigation panel and the label index *)

Lemma paint_items_buttons depth items :
  Forall (fun item => ∀ d acc,
            snd (paint_item d item acc) =
            snd acc ++ (toc_link <$> preorder_item_at d item)) items →
  ∀ acc, snd (fold_left (fun a i => paint_item depth i a) items acc) =
         snd acc ++ (toc_link <$> flat_map (preorder_item_at depth) items).
Proof.
  induction 1 as [|item items Hitem _ IH]; intros acc; simpl.
  - by rewrite app_nil_r.
  - by rewrite IH, Hitem, fmap_app, app_assoc.
Qed.

Lemma paint_item_buttons item :
  ∀ depth acc,
    snd (paint_item depth item acc) =
    snd acc ++ (toc_link <$> preorder_item_at depth item).
Proof.
  induction item as [i h l sub IH] using NavItem_ind. intros depth acc.
  destruct sub as [[|x items]|]; try done.
  cbn [paint_item preorder_item_at].
  rewrite (paint_items_buttons (S depth) (x :: items) IH).
  cbn [snd]. by rewrite <- app_assoc.
Qed.

Lemma preorder_item_at_nodes item :
  ∀ depth, snd <$> preorder_item_at depth item = preorder_item item.
Proof.
  induction item as [i h l sub IH] using NavItem_ind. intros depth.
  cbn [preorder_item_at preorder_item]. rewrite fmap_cons. f_equal.
  destruct sub as [items|]; [|done]. simpl in IH.
  induction IH as [|x items Hx _ IHitems]; [done|].
  simpl. by rewrite fmap_app, Hx, IHitems.
Qed.

(** X4.  [renderToc] shows one button per node of the table of contents:
    in the pre-order of the label index, indented by the depth of the
    node, with the label as written and, as target, the href with its
    fragment; for an empty table it shows the note on continuous
    scrolling and leaves the label index as it is. *)
Theorem renderToc_buttons (items : list NavItem) (s : State) :
  tocEl (dom (renderToc items s)) =
    match items with
    | [] => [TocEmpty (js "continuous scroll / no markers yet")]
    | _ => toc_link <$> preorder_at 0 items
    end ∧
  snd <$> preorder_at 0 items = preorder items ∧
  (items = [] → navLabels (renderToc items s) = navLabels s).
Proof.
  split; [|split; [|by intros ->]].
  - unfold renderToc. destruct items as [|x items]; [done|].
    cbv zeta. destruct (paint (x :: items) 0 _) as [labels fragment] eqn:E.
    simpl. change fragment with (snd (labels, fragment)). rewrite <- E.
    unfold paint. rewrite paint_items_buttons; [done|].
    apply Forall_forall. intros item _ d a. apply paint_item_buttons.
  - unfold preorder_at, preorder.
    induction items as [|x items IH]; [done|].
    simpl. by rewrite fmap_app, preorder_item_at_nodes, IH.
Qed.

(** X5.  Built on an empty map, as [openBook] builds it after
    [resetBook], the label index holds exactly the hrefs of the table of
    contents without their fragments: no key holds a '#', no other
    reference resolves, and every label stored is trimmed. *)
Theorem label_index_keys (items : list NavItem) (s : State) (k : jsstring) :
  navLabels s = ∅ →
  (is_Some (navLabels (renderToc items s) !! k) ↔
   ∃ n, n ∈ preorder items ∧ cleanHref (href n) = k) ∧
  (∀ v, navLabels (renderToc items s) !! k = Some v →
        (35%N ∉ k) ∧ trimmed v).
Proof.
  intros Hempty. rewrite renderToc_navLabels, fold_store_lookup, Hempty.
  rewrite lookup_empty.
  destruct (last _) as [w|] eqn:Hlast.
  - apply last_Some in Hlast as [l' Hl'].
    assert (w ∈ filter (fun n => cleanHref (href n) = k) (preorder items))
      as Hw by (rewrite Hl'; apply elem_of_app; right; by left).
    apply list_elem_of_filter in Hw as [Hk Hw].
    split; [split; [by exists w|by eexists]|].
    intros v [= <-]. split; [|apply trim_trimmed].
    rewrite <- Hk. apply split_first_no_sep.
  - split; [|done]. split; [by intros [? ?]|].
    intros (n & Hn & Hk). apply last_None in Hlast.
    assert (n ∈ filter (fun n => cleanHref (href n) = k) (preorder items))
      as Hin by by apply list_elem_of_filter.
    rewrite Hlast in Hin. by apply elem_of_nil in Hin.
Qed.

(** X6.  When a rendition with the listener reports a section after the
    table of contents has been rendered on an empty map: the current
    label becomes the trimmed label of the last node with that reference,
    or, when no node has it, the humanized reference; the status shows
    the same text; and a fragment on the reported href changes nothing. *)
Theorem rendered_label
  (r : handle) (o : RenditionObj) (items : list NavItem) (h : jsstring)
  (s : State) :
  navLabels s = ∅ → renditions s !! r = Some o → rd_on_rendered o = true →
  let s' := emit r (rendered h) (renderToc items s) in
  currentLabel s' =
    match last_visit (cleanHref h) items with
    | Some w => trim (label w)
    | None => cleanText (cleanHref h)
    end ∧
  statusEl (dom s') = currentLabel s' ∧
  (∀ a frag, h = a ++ 35%N :: frag → 35%N ∉ a →
             emit r (rendered a) (renderToc items s) = s').
Proof.
  intros Hempty Hr Hon s'.
  assert (renditions (renderToc items s) !! r = Some o) as Hr'.
  { unfold renderToc. destruct items as [|x items]; [done|].
    cbv zeta. by destruct (paint (x :: items) 0 _). }
  subst s'. unfold emit. rewrite Hr', Hon. unfold on_rendered.
  split; [|split; [done|]].
  - cbn [currentLabel setStatus set_dom set_currentLabel].
    rewrite renderToc_navLabels, fold_store_lookup, Hempty, lookup_empty.
    unfold last_visit. by destruct (last _).
  - intros a frag -> Ha. unfold cleanHref.
    by rewrite (split_first_app 35 a frag Ha), (split_first_all 35 a Ha).
Qed.

(** X7.  [resetBook] is idempotent: called on the state it has left, it
    changes nothing.  It leaves no handle in [book] or [rendition], an
    empty label index, the label "idle", an empty navigation panel and
    viewer; it writes neither the status nor the meta line, and touches
    neither the session, the storage nor the console. *)
Theorem resetBook_idempotent (s : State) :
  resetBook (resetBook s) = resetBook s ∧
  idle (resetBook s) ∧
  navLabels (resetBook s) = ∅ ∧ currentLabel (resetBook s) = js "idle" ∧
  tocEl (dom (resetBook s)) = [] ∧ viewerEl (dom (resetBook s)) = [] ∧
  statusEl (dom (resetBook s)) = statusEl (dom s) ∧
  metaEl (dom (resetBook s)) = metaEl (dom s) ∧
  session (resetBook s) = session s ∧
  localStorage (resetBook s) = localStorage s ∧
  console (resetBook s) = console s.
Proof.
  unfold resetBook, idle. destruct s as [se b r nl cl d ls co bs rs].
  simpl. destruct r as [r|], b as [b|]; simpl; repeat split; done.
Qed.

(** ** Choosing a file, and the keyboard *)

Lemma find_first {A} (P : A → bool) (l : list A) (x : A) :
  List.find P l = Some x →
  ∃ before after, l = before ++ x :: after ∧ P x = true ∧
                  Forall (fun y => P y = false) before.
Proof.
  induction l as [|y l IH]; simpl; [done|].
  destruct (P y) eqn:Hy.
  - intros [= ->]. by exists [], l.
  - intros H. destruct (IH H) as (before & after & -> & Hx & Hb).
    exists (y :: before), after. repeat split; [done|]. by constructor.
Qed.

Lemma find_none {A} (P : A → bool) (l : list A) :
  List.find P l = None → Forall (fun y => P y = false) l.
Proof.
  induction l as [|y l IH]; simpl; [constructor|].
  destruct (P y) eqn:Hy; [done|]. intros H. constructor; auto.
Qed.

(** X8.  With a session, [pickAndOpen] opens one file of the list: the
    first whose name ends in ".epub", whatever the case of the letters,
    and the first file of the list when no name does.  Without files
    (null, or an empty list) it does nothing at all. *)
Theorem pickAndOpen_choice
  (files : list File) (p : SessionPayload) (s : State) :
  session s = Some p →
  pickAndOpen None s = (s, None) ∧
  pickAndOpen (Some []) s = (s, None) ∧
  (files ≠ [] →
   ∃ before chosen after,
     files = before ++ chosen :: after ∧
     Forall (fun f => is_epub f = false) before ∧
     (is_epub chosen = true ∨
      before = [] ∧ Forall (fun f => is_epub f = false) after) ∧
     pickAndOpen (Some files) s =
       (fst (openBook chosen s), Some (snd (openBook chosen s)))).
Proof.
  intros Hs. unfold pickAndOpen, guardAuth. rewrite Hs.
  split; [done|]. split; [done|].
  destruct files as [|first rest]; [done|]. intros _.
  fold (is_epub).
  change (fun f : File => endsWith (toLowerCase (name f)) (js ".epub"))
    with is_epub.
  destruct (List.find is_epub (first :: rest)) as [f|] eqn:Hfind.
  - destruct (find_first _ _ _ Hfind) as (before & after & Hl & Hf & Hb).
    exists before, f, after. split; [done|]. split; [done|].
    split; [by left|]. simpl. by destruct (openBook f s).
  - apply find_none in Hfind. exists [], first, rest.
    split; [done|]. split; [constructor|]. split.
    + right. split; [done|]. by inversion Hfind.
    + simpl. by destruct (openBook first s).
Qed.

(** X9.  The keyboard: without a session or without a rendition a key
    does nothing, and no message is shown; with both, the three keys of
    the previous page make one call of [prev()], the four keys of the
    next page one call of [next()], never both, and any other key does
    nothing. *)
Theorem keydown_keys (key : jsstring) (s : State) :
  (session s = None ∨ rendition s = None → keydown key s = s) ∧
  (∀ r p, rendition s = Some r → session s = Some p →
     keydown key s =
       if bool_decide (key ∈ [js "ArrowLeft"; js "ArrowUp"; js "PageUp"])
       then call_rendition CallPrev r s
       else if bool_decide (key ∈ [js "ArrowRight"; js "ArrowDown";
                                   js "PageDown"; js " "])
            then call_rendition CallNext r s
            else s).
Proof.
  unfold keydown. split.
  - intros [H|H]; rewrite H; [by destruct (rendition s)|done].
  - intros r p -> ->. case_bool_decide as Hnext; [|done].
    case_bool_decide as Hprev; [|done]. exfalso.
    rewrite !elem_of_cons, elem_of_nil in Hprev.
    rewrite !elem_of_cons, elem_of_nil in Hnext.
    destruct Hprev as [->|[->|[->|?]]]; [| | |done];
      destruct Hnext as [H|[H|[H|[H|?]]]]; try done; discriminate H.
Qed.

(** ** A load that succeeds *)

Lemma emit_status r ev s :
  ∃ l t, emit r ev s = setStatus t (set_currentLabel l s).
Proof.
  assert (∃ l t, s = setStatus t (set_currentLabel l s)) as Hs
    by (exists (currentLabel s), (statusEl (dom s));
        by destruct s as [? ? ? ? ? [] ? ? ? ?]).
  unfold emit. destruct (renditions s !! r) as [o|]; [|done].
  destruct ev as [h|location].
  - destruct (rd_on_rendered o); [|done]. unfold on_rendered.
    by eexists _, _.
  - destruct (rd_on_relocated o); [|done].
    unfold on_relocated, updateProgress.
    destruct (percent location s); [|done].
    exists (currentLabel s). eexists. by destruct s.
Qed.

Lemma update_book_progress f b file e n s :
  (∀ o, bk_epub (f o) = bk_epub o ∧ bk_destroyed (f o) = bk_destroyed o) →
  progress file e n s → progress file e n (update_book f b s).
Proof.
  intros Hf (P1 & P2 & P3 & P4 & P5).
  split; [|done]. intros Hn.
  destruct (P1 Hn) as (b' & o & Hb & Ho & Hoe & Hod).
  unfold update_book. cbn [book books set_books].
  destruct (decide (b = b')) as [->|Hne].
  - exists b', (f o). split; [exact Hb|].
    rewrite list_lookup_alter_eq, Ho. split; [reflexivity|].
    by destruct (Hf o) as [-> ->].
  - exists b', o. by rewrite list_lookup_alter_ne.
Qed.

Lemma occur_progress ev file e n s :
  progress file e n s → progress file e n (occur ev s).
Proof.
  intros Hp. destruct ev as [r ev|b k]; simpl.
  - by destruct (emit_status r ev s) as (l & t & ->).
  - apply update_book_progress; [|done]. intros o. apply fill_epub.
Qed.

Lemma occur_all_progress evs file e n s :
  progress file e n s → progress file e n (occur_all evs s).
Proof.
  revert s. induction evs as [|ev evs IH]; intros s Hp; [done|].
  simpl. by apply IH, occur_progress.
Qed.

Lemma occur_fileInput ev s :
  fileInput_value (dom (occur ev s)) = fileInput_value (dom s).
Proof.
  destruct ev as [r ev|b k]; simpl; [|done].
  by destruct (emit_status r ev s) as (l & t & ->).
Qed.

Lemma loads_flags file e :
  arrayBuffer file = Some e → loads file = true →
  ePub_returns e = true ∧ ready e = true ∧ renderTo_returns e = true ∧
  themes_default_returns e = true ∧ on_rendered_returns e = true ∧
  on_relocated_returns e = true ∧
  (∃ toc, loaded_navigation e = Some toc) ∧ display_resolves e = true ∧
  (∃ metadata, loaded_metadata e = Some metadata).
Proof.
  intros Harr. unfold loads. rewrite Harr. rewrite !andb_true_iff.
  intros [[[[[[[[Ha Hb] Hc] Hd] Hf] Hg] Hn] Hdisp] Hm].
  destruct (loaded_navigation e) as [toc|]; [|done].
  destruct (loaded_metadata e) as [metadata|]; [|done].
  repeat split; eauto.
Qed.

Lemma renderToc_writes items s :
  renderToc items s =
    set_dom (dom (renderToc items s))
      (set_navLabels (navLabels (renderToc items s)) s) ∧
  metaEl (dom (renderToc items s)) = metaEl (dom s) ∧
  fileInput_value (dom (renderToc items s)) = fileInput_value (dom s).
Proof.
  unfold renderToc. destruct items as [|x items].
  - by destruct s.
  - cbv zeta. destruct (paint (x :: items) 0 _) as [labels fragment].
    by destruct s.
Qed.

Lemma progress_le file e n m s :
  progress file e n s → n ≤ m → 3 ≤ n → m ≤ 4 → progress file e m s.
Proof.
  intros (H1 & H2 & H3 & H4 & H5) Hnm Hn Hm.
  split; [intros _; apply H1; lia|]. split; [intros _; apply H2; lia|].
  split; [intros ?; lia|]. split; [intros _; apply H4; lia|].
  intros ?; lia.
Qed.

Lemma meta_text_set file metadata s :
  metaEl (dom (setMeta
                 match trim <$> title metadata with
                 | Some ((_ :: _) as t) => t
                 | _ => cleanText (name file)
                 end (trim <$> creator metadata) s)) =
  meta_text file metadata.
Proof.
  unfold meta_text, setMeta. cbn [metaEl dom set_dom set_metaEl].
  destruct (creator metadata) as [c|]; [|done].
  cbn [fmap option_fmap option_map].
  destruct (trim c) as [|x t] eqn:E; [done|].
  by rewrite <- E, trim_idem, E.
Qed.

Lemma resume_progress s0 file e a s :
  loading s0 s → stage file a s →
  arrayBuffer file = Some e → loads file = true →
  progress file e (rank a) s →
  match resume {| task_file := file; task_await := a |} s with
  | (s', Some t') => progress file e (rank (task_await t')) s'
  | (s', None) => progress file e 5 s' ∧ fileInput_value (dom s') = []
  end.
Proof.
  intros Hl Hs Harr Hloads Hp.
  destruct (loads_flags file e Harr Hloads)
    as (Fa & Fb & Fc & Fd & Ff & Fg & [toc Fn] & Fdisp & [metadata Fm]).
  pose proof Hp as (P1 & P2 & P3 & P4 & P5).
  unfold resume. cbn [task_await task_file].
  destruct a as [p|p|p|p|p|b p]; simpl in Hs; cbn [rank] in *.
  - (* the bytes have been read *)
    destruct Hs as (-> & Hbook & Hrend). rewrite Harr, Fa.
    unfold new_book. cbn [rank task_await].
    split; [|split; [intros ?; lia|split; [intros _; by apply P3; lia|]]].
    + intros _. eexists _, _. cbn [book books set_book set_books].
      split; [done|]. by rewrite lookup_app_r, Nat.sub_diag by lia.
    + split; intros ?; lia.
  - (* the book is ready *)
    destruct Hs as (e' & Harr' & _ & -> & Hbe & Hrend & Hu).
    assert (e' = e) as -> by congruence. rewrite Fb.
    destruct (book_epub_inv s e Hbe) as (b & o & Hbook & Ho & Hoe & Hepub).
    unfold resume_ready. rewrite Hbook, Hepub, Fc.
    destruct (new_rendition_kept s0 s b e Hl Hrend Hbook Hepub Hu)
      as ((_ & HeR & _) & HrR).
    unfold new_rendition in *. cbv beta iota zeta in *. cbn [fst snd] in *.
    rewrite (applyTheme_eq _ _ e HrR HeR), Fd, Ff, Fg. cbn [rank task_await].
    split; [|split; [|split; [intros _; by apply P3; lia|]]].
    + intros _. by apply P1; lia.
    + intros _. exists b, (length (renditions s)). eexists.
      split; [exact Hbook|]. split; [reflexivity|].
      split.
      { cbn [renditions listen_relocated listen_rendered theme_rendition
             update_rendition set_renditions set_rendition set_dom].
        rewrite !list_lookup_alter_eq.
        rewrite lookup_app_r, Nat.sub_diag by lia. reflexivity. }
      done.
    + split; intros ?; lia.
  - (* the table of contents has arrived *)
    destruct Hs as (e' & Harr' & _ & _ & _ & -> & Hbe & Hre & _).
    assert (e' = e) as -> by congruence. rewrite Fn. cbv zeta.
    destruct (renderToc_writes (default [] toc) s) as (Hw & _).
    destruct (P2 ltac:(lia)) as (b & r & o & Hbook & Hrend & Ho & Hob & Hflags).
    destruct (book_epub_inv s e Hbe) as (b' & ob & Hbook' & _ & _ & Hepub).
    assert (b' = b) as -> by congruence.
    assert (navLabels (renderToc (default [] toc) s) =
            fold_left store (preorder (toc_of e)) ∅) as Hnav.
    { rewrite renderToc_navLabels, (P3 ltac:(lia)). unfold toc_of.
      rewrite Fn. by destruct toc. }
    revert Hnav. rewrite Hw. intros Hnav.
    cbn [rendition renditions set_dom set_navLabels].
    rewrite Hrend, Ho, Hob. unfold epub_of at 1.
    cbn [books set_dom set_navLabels]. fold (epub_of b s). rewrite Hepub.
    cbn [rank task_await].
    split; [intros _; by apply P1; lia|].
    split; [|split; [intros ?; lia|split; [|intros ?; lia]]].
    + intros _. exists b, r. eexists. split; [exact Hbook|].
      split; [exact Hrend|]. split.
      { cbn [renditions call_rendition update_rendition set_renditions
             set_dom set_navLabels].
        rewrite list_lookup_alter_eq, Ho. reflexivity. }
      split; [exact Hob|exact Hflags].
    + intros _. split; [exact Hnav|]. exists r. eexists.
      split; [exact Hrend|]. split.
      * cbn [renditions call_rendition update_rendition set_renditions
             set_dom set_navLabels].
        rewrite list_lookup_alter_eq, Ho. reflexivity.
      * cbn [rd_calls]. apply elem_of_app. right. by left.
  - (* the first display is done *)
    destruct Hs as (e' & Harr' & _ & _ & _ & _ & -> & Hbe & Hre & _).
    assert (e' = e) as -> by congruence. rewrite Fdisp.
    destruct (book_epub_inv s e Hbe) as (b & o & Hbook & _ & _ & Hepub).
    rewrite Hbook, Hepub. cbn [rank task_await].
    apply (progress_le file e 3 4 s Hp); lia.
  - (* the metadata have arrived *)
    destruct Hs as (e' & Harr' & _ & _ & _ & _ & _ & -> & Hbe & Hre & _).
    assert (e' = e) as -> by congruence. rewrite Fm. cbv zeta.
    destruct (book_epub_inv s e Hbe) as (b & o & Hbook & _ & _ & Hepub).
    set (s1 := setMeta _ _ s).
    change (book s1) with (book s). rewrite Hbook.
    change (epub_of b s1) with (epub_of b s). rewrite Hepub.
    cbn [rank task_await]. apply update_book_progress; [done|].
    split; [intros _; by apply P1; lia|].
    split; [intros _; by apply P2; lia|].
    split; [intros ?; lia|]. split; [intros _; by apply P4; lia|].
    intros _ metadata' Hm'. assert (metadata' = metadata) as -> by congruence.
    apply meta_text_set.
  - (* the generation of the location index has settled *)
    destruct Hs as (e' & Harr' & _ & -> & Hbook & Hepub & Hre).
    assert (e' = e) as -> by congruence.
    destruct (locations_generate e) as [n|]; (split; [|done]).
    + assert (progress file e 5 (generated n b s)) as Hp'
        by (apply update_book_progress; done).
      exact Hp'.
    + assert (progress file e 5 (generate_failed b s)) as Hp'
        by (apply update_book_progress; done).
      exact Hp'.
Qed.

Lemma resetBook_navLabels s : navLabels (resetBook s) = ∅.
Proof.
  unfold resetBook. simpl. by destruct (rendition s); simpl; destruct (book s).
Qed.

Lemma settle_progress s0 file e sched :
  arrayBuffer file = Some e → loads file = true →
  ∀ a s,
    loading s0 s → stage file a s → progress file e (rank a) s →
    match settle {| task_file := file; task_await := a |} sched s with
    | (s', Some t') => progress file e (rank (task_await t')) s'
    | (s', None) => progress file e 5 s' ∧ fileInput_value (dom s') = []
    end.
Proof.
  intros Harr Hloads.
  induction sched as [|evs sched IH]; intros a s Hl Hs Hp; [done|].
  cbn [settle]. set (s1 := occur_all evs s).
  assert (loading s0 s1) as Hl1 by by apply occur_all_loading.
  assert (stage file a s1) as Hs1 by by apply occur_all_stage.
  assert (progress file e (rank a) s1) as Hp1 by by apply occur_all_progress.
  pose proof (resume_progress s0 file e a s1 Hl1 Hs1 Harr Hloads Hp1) as H.
  pose proof (resume_loading s0 {| task_file := file; task_await := a |} s1
                Hl1 Hs1) as H'.
  destruct (resume _ s1) as [s2 [[file' a']|]]; [|exact H].
  destruct H' as (Hf & Hl2 & Hs2 & _). simpl in Hf, Hs2, H. subst file'.
  by apply IH.
Qed.

(** X10.  A load of which every step succeeds, with whatever the library
    does in between and whatever state it is started in, ends with: the
    status of readiness, the meta line made of the title and the creator,
    the file input cleared, the label index of the book's table of
    contents; a book object of the file, live, made by this call; a
    rendition of that book, live, made by this call, themed, with both
    listeners and its first display requested.  The live
    objects are these two and the ones that were live before and that the
    variables did not refer to: none, when every live object was referred
    to.  Nothing was logged but the warning of a failed generation. *)
Theorem openBook_success
  (file : File) (e : Epub) (metadata : Metadata)
  (sched : list (list LibraryEvent)) (s : State) :
  arrayBuffer file = Some e → loads file = true →
  loaded_metadata e = Some metadata → 6 ≤ length sched →
  ∃ s' b r ob or,
    load file sched s = (s', None) ∧
    statusEl (dom s') = js "use arrows, nav, or scroll freely" ∧
    metaEl (dom s') = meta_text file metadata ∧
    fileInput_value (dom s') = [] ∧
    navLabels s' = fold_left store (preorder (toc_of e)) ∅ ∧
    book s' = Some b ∧ books s' !! b = Some ob ∧
    bk_epub ob = e ∧ bk_destroyed ob = false ∧
    rendition s' = Some r ∧ renditions s' !! r = Some or ∧
    rd_book or = b ∧ rd_destroyed or = false ∧ rd_theme or = true ∧
    rd_on_rendered or = true ∧ rd_on_relocated or = true ∧
    CallDisplay None ∈ rd_calls or ∧
    (∀ b', b' ∈ live_books s' ↔
           b' = b ∨ (b' ∈ live_books s ∧ book s ≠ Some b')) ∧
    (∀ r', r' ∈ live_renditions s' ↔
           r' = r ∨ (r' ∈ live_renditions s ∧ rendition s ≠ Some r')) ∧
    (owned s → (∀ b', b' ∈ live_books s' ↔ b' = b) ∧
               (∀ r', r' ∈ live_renditions s' ↔ r' = r)) ∧
    length (books s) ≤ b ∧ length (renditions s) ≤ r ∧
    (console s' = console s ∨
     console s' = console s ++
                  [console_warn (js "locations unavailable")
                                (Rejected "book.locations.generate")]).
Proof.
  intros Harr Hloads Hmeta Hlen.
  destruct (load_settles file sched s Hlen) as (s' & Hload & Hset).
  pose proof (openBook_loading file s) as H0.
  pose proof (settle_progress s file e sched Harr Hloads) as Hprog.
  unfold load in Hload. unfold openBook in *. cbv zeta in *.
  destruct H0 as (_ & Hl & Hs & _).
  cbn [task_await] in Hs.
  specialize (Hprog _ _ Hl Hs). rewrite Hload in Hprog.
  destruct Hprog as [(P1 & P2 & _ & P4 & P5) Hfile].
  { split; [intros ?; simpl in *; lia|]. split; [intros ?; simpl in *; lia|].
    split; [intros _|split; intros ?; simpl in *; lia].
    apply resetBook_navLabels. }
  destruct (P1 ltac:(lia)) as (b & ob & Hb & Hob & Hoe & Hod).
  destruct (P2 ltac:(lia)) as (b' & r & or & Hb' & Hr & Hor & Hrb & Hrd & Hflags).
  assert (b' = b) as -> by congruence.
  destruct (P4 ltac:(lia)) as (Hnav & r' & or' & Hr' & Hor' & Hcall).
  assert (r' = r) as -> by congruence.
  assert (or' = or) as -> by congruence.
  destruct Hset as (Hhold & Hfin). rewrite Hloads, Harr in Hfin.
  simpl (_ ≫= _) in Hfin. destruct Hfin as (Hstatus & _ & _ & Hgen).
  destruct (holding_books s s' Hhold) as (_ & Hbold & Hbnew & Hbvar).
  destruct (holding_renditions s s' Hhold) as (_ & Hrold & Hrnew & Hrvar).
  destruct (Hbvar b Hb) as (Hble & _ & Hbl).
  destruct (Hrvar r Hr) as (Hrle & _ & Hrl).
  assert (∀ b', b' ∈ live_books s' ↔
                b' = b ∨ (b' ∈ live_books s ∧ book s ≠ Some b')) as Hbooks.
  { intros b'. split.
    - intros Hin. destruct (decide (b' < length (books s))) as [Hlt|Hge].
      + right. by apply Hbold.
      + left. pose proof Hin as Hin'. apply elem_of_live_books in Hin'.
        destruct (books s' !! b') eqn:E; [|done].
        apply lookup_lt_Some in E.
        destruct (Hbnew b' ltac:(lia) E) as [_ Hv]. congruence.
    - intros [->|Hin]; [done|]. apply Hbold; [|done].
      destruct Hin as [Hin _]. apply elem_of_live_books in Hin.
      destruct (books s !! b') eqn:E; [|done]. by apply lookup_lt_Some in E. }
  assert (∀ r', r' ∈ live_renditions s' ↔
                r' = r ∨ (r' ∈ live_renditions s ∧ rendition s ≠ Some r'))
    as Hrends.
  { intros r'. split.
    - intros Hin. destruct (decide (r' < length (renditions s))) as [Hlt|Hge].
      + right. by apply Hrold.
      + left. pose proof Hin as Hin'. apply elem_of_live_renditions in Hin'.
        destruct (renditions s' !! r') eqn:E; [|done].
        apply lookup_lt_Some in E.
        destruct (Hrnew r' ltac:(lia) E) as [_ Hv]. congruence.
    - intros [->|Hin]; [done|]. apply Hrold; [|done].
      destruct Hin as [Hin _]. apply elem_of_live_renditions in Hin.
      destruct (renditions s !! r') eqn:E; [|done].
      by apply lookup_lt_Some in E. }
  exists s', b, r, ob, or.
  split; [done|]. split; [done|]. split; [by apply P5; [lia|]|].
  split; [done|]. split; [done|]. split; [done|]. split; [done|].
  split; [done|]. split; [done|].
  split; [done|]. split; [done|]. split; [done|]. split; [done|].
  destruct Hflags as (? & ? & ?).
  split; [done|]. split; [done|]. split; [done|]. split; [done|].
  split; [exact Hbooks|]. split; [exact Hrends|].
  split.
  { intros Hown. split.
    - intros b'. rewrite Hbooks. split; [|by left].
      intros [?|[Hin Hne]]; [done|]. by apply (owned_book s b' Hown) in Hin.
    - intros r'. rewrite Hrends. split; [|by left].
      intros [?|[Hin Hne]]; [done|].
      by apply (owned_rendition s r' Hown) in Hin. }
  split; [done|]. split; [done|].
  destruct (locations_generate e); [left; by destruct Hgen|by right].
Qed.

(** ** What is in flight does not look at the session *)

(** X11.  Neither a resumption of [openBook] nor a listener consults the
    session: with another session, or with none, they do the same to the
    rest of the state.  A load started before a logout goes on after it,
    and a rendition still reports sections to a signed-out page. *)
Theorem in_flight_ignores_session
  (payload : option SessionPayload) (s : State) :
  (∀ t, resume t (set_session payload s) =
        (set_session payload (fst (resume t s)), snd (resume t s))) ∧
  (∀ r ev, emit r ev (set_session payload s) =
           set_session payload (emit r ev s)).
Proof.
  split.
  - intros [file a].
    unfold resume, resume_ready, applyTheme, new_book, new_rendition,
      renderToc, epub_of, catch, complete, finally, log, setStatus, setMeta,
      call_rendition, theme_rendition, listen_rendered, listen_relocated,
      update_rendition, generated.
    destruct a as [[buffer|]|[]|[toc|]|[]|[metadata|]|b' [n|]];
      cbv zeta; project;
      repeat (case_match; project); simplify_eq; reflexivity.
  - intros r ev.
    unfold emit, on_rendered, on_relocated, updateProgress, percent,
      setStatus.
    project. repeat (case_match; project); simplify_eq; reflexivity.
Qed.

(** ** Signing in and out *)

Section SessionProperties.

Variable JSON_stringify : SessionPayload → jsstring.
Variable JSON_parse : jsstring → option (option SessionPayload).

Lemma resetBook_clears s :
  navLabels (resetBook s) = ∅ ∧ currentLabel (resetBook s) = js "idle" ∧
  tocEl (dom (resetBook s)) = [] ∧ viewerEl (dom (resetBook s)) = [] ∧
  controls_disabled (dom (resetBook s)) = controls_disabled (dom s).
Proof.
  unfold resetBook. destruct s as [se b r nl cl d ls co bs rs].
  simpl. by destruct r as [r|], b as [b|].
Qed.

Lemma persistSession_writes payload s :
  ∃ d, persistSession JSON_stringify payload s =
       set_dom d (set_localStorage
                    (localStorage (persistSession JSON_stringify payload s))
                    (set_session payload s)) ∧
       statusEl d = statusEl (dom s) ∧ metaEl d = metaEl (dom s) ∧
       tocEl d = tocEl (dom s) ∧ viewerEl d = viewerEl (dom s) ∧
       controls_disabled d = negb (bool_decide (is_Some payload)) ∧
       authMessage d = (if bool_decide (is_Some payload)
                        then js "reader unlocked"
                        else js "sign in to unlock the reader").
Proof.
  unfold persistSession, updateAuthUI. destruct payload as [p|]; cbv zeta;
    project; eexists; (split; [reflexivity|done]).
Qed.

(** X12.  Logout ends the reading session as well, whatever book was
    open: the book and the rendition the variables referred to are
    destroyed and the variables are null; the objects that stay live are
    the ones that were live and that the variables did not refer to, so
    none when every live object was referred to; the label index, the
    navigation panel and the viewer are empty, the label is "idle", the
    page says "no book loaded" and "signed out", the controls are
    disabled, and nothing was logged. *)
Theorem logout_tears_down (s : State) :
  let s' := logout JSON_stringify s in
  idle s' ∧
  (∀ b, b ∈ live_books s' ↔ b ∈ live_books s ∧ book s ≠ Some b) ∧
  (∀ r, r ∈ live_renditions s' ↔
        r ∈ live_renditions s ∧ rendition s ≠ Some r) ∧
  (owned s → live_books s' = [] ∧ live_renditions s' = []) ∧
  navLabels s' = ∅ ∧ currentLabel s' = js "idle" ∧
  tocEl (dom s') = [] ∧ viewerEl (dom s') = [] ∧
  metaEl (dom s') = js "no book loaded" ∧
  statusEl (dom s') = js "signed out" ∧
  controls_disabled (dom s') = true ∧
  console s' = console s.
Proof.
  intros s'. subst s'. unfold logout. cbv zeta.
  destruct (persistSession_writes None s) as (d & Hp & _ & _ & _ & _ & Hc & _).
  set (s1 := persistSession JSON_stringify None s) in *.
  assert (owned s → owned s1) as Hown1 by (rewrite Hp; by intros ?).
  assert (live_books s1 = live_books s ∧ book s1 = book s ∧
          live_renditions s1 = live_renditions s ∧
          rendition s1 = rendition s) as (Hlb & Hvb & Hlr & Hvr)
    by by rewrite Hp.
  assert (console s1 = console s) as Hco by by rewrite Hp.
  assert (controls_disabled (dom s1) = true) as Hcd by by rewrite Hp.
  destruct (resetBook_releases s1) as (Hb & Hr & Hidle & _ & _ & Hco' & _).
  pose proof (resetBook_owned s1) as Hnone.
  clearbody s1.
  split; [exact Hidle|].
  split; [intros b; rewrite <- Hlb, <- Hvb; exact (Hb b)|].
  split; [intros r; rewrite <- Hlr, <- Hvr; exact (Hr r)|].
  split; [intros Hown; exact (Hnone (Hown1 Hown))|].
  destruct (resetBook_clears s1) as (Hn & Hcl & Ht & Hv & Hd).
  split; [exact Hn|]. split; [exact Hcl|]. split; [exact Ht|].
  split; [exact Hv|]. split; [done|]. split; [done|].
  split; [|by rewrite <- Hco, <- Hco'].
  rewrite <- Hcd, <- Hd. done.
Qed.

(** X13.  On start, a stored session that parses is applied before the
    server has confirmed it: the controls are enabled at once, with the
    storage as it was; when the revalidation then fails, the session is
    dropped and the controls are disabled again.  Without a stored entry,
    or with an empty one, the session and the storage stay as they are
    and no request is to be made. *)
Theorem bootstrap_is_optimistic (s : State) (stored : jsstring)
  (parsed : SessionPayload) :
  localStorage s !! SESSION_KEY = Some stored → stored ≠ [] →
  JSON_parse stored = Some (Some parsed) →
  let s1 := fst (bootstrapSession JSON_stringify JSON_parse s) in
  let s2 := bootstrapSession_resume JSON_stringify (Some parsed) None s1 in
  snd (bootstrapSession JSON_stringify JSON_parse s) = Some (Some parsed) ∧
  session s1 = Some parsed ∧ controls_disabled (dom s1) = false ∧
  userGreeting (dom s1) = js "hello, " ++ displayName (user parsed) ∧
  localStorage s1 = localStorage s ∧
  session s2 = None ∧ controls_disabled (dom s2) = true ∧
  userGreeting (dom s2) = js "guest mode" ∧
  (∀ s0, localStorage s0 !! SESSION_KEY = None ∨
         localStorage s0 !! SESSION_KEY = Some [] →
         snd (bootstrapSession JSON_stringify JSON_parse s0) = None ∧
         session (fst (bootstrapSession JSON_stringify JSON_parse s0)) =
           session s0 ∧
         localStorage (fst (bootstrapSession JSON_stringify JSON_parse s0)) =
           localStorage s0).
Proof.
  intros Hst Hne Hparse s1 s2. subst s1 s2. unfold bootstrapSession.
  rewrite Hst. destruct stored as [|c stored]; [done|]. rewrite Hparse.
  cbn [fst snd]. unfold bootstrapSession_resume, persistSession, updateAuthUI.
  cbv zeta. project.
  do 8 (split; [done|]).
  intros s0 [H|H]; unfold bootstrapSession; rewrite H; done.
Qed.

(** X14.  The outcome of a login or a registration.  A success stores
    the session, in the variable and in the storage, enables the controls
    and shows the message of success; a failure shows the message of the
    error as auth message and as status, and leaves the session and the
    storage as they were, so that a user who was signed in stays signed
    in.  Neither touches the book that is open. *)
Theorem auth_outcome (done_ : jsstring)
  (result : SessionPayload + jsstring) (s : State) :
  let s' := auth_settled JSON_stringify done_ result s in
  match result with
  | inl data =>
      session s' = Some data ∧
      localStorage s' !! SESSION_KEY = Some (JSON_stringify data) ∧
      controls_disabled (dom s') = false ∧
      authMessage (dom s') = done_ ∧ statusEl (dom s') = statusEl (dom s)
  | inr message =>
      session s' = session s ∧ localStorage s' = localStorage s ∧
      controls_disabled (dom s') = controls_disabled (dom s) ∧
      authMessage (dom s') = message ∧ statusEl (dom s') = message
  end ∧
  book s' = book s ∧ rendition s' = rendition s ∧
  navLabels s' = navLabels s ∧ currentLabel s' = currentLabel s ∧
  books s' = books s ∧ renditions s' = renditions s ∧
  metaEl (dom s') = metaEl (dom s) ∧ tocEl (dom s') = tocEl (dom s).
Proof.
  intros s'. subst s'. unfold auth_settled, persistSession, updateAuthUI,
    setStatus.
  destruct result as [data|message]; cbv zeta; project.
  - split; [|done]. split; [done|]. split; [|done].
    apply lookup_insert_eq.
  - done.
Qed.

End SessionProperties.

(** ** Requests and forms *)

Lemma strip_start_id s :
  (∀ c, head s = Some c → is_http_space c = false) → strip_start s = s.
Proof.
  destruct s as [|c t]; [done|]. intros H. simpl. by rewrite (H c).
Qed.

Lemma normalize_bearer (t : jsstring) :
  t ≠ [] → (∀ c, last t = Some c → is_http_space c = false) →
  normalize (js "Bearer " ++ t) = js "Bearer " ++ t.
Proof.
  intros Ht Hlast. unfold normalize.
  rewrite (strip_start_id (js "Bearer " ++ t))
    by (intros c Hc; vm_compute in Hc; by injection Hc as <-).
  rewrite strip_start_id; [apply rev_involutive|].
  intros c Hc. apply Hlast.
  rewrite rev_is_reverse, reverse_app in Hc.
  rewrite <- (reverse_involutive t), last_reverse.
  destruct (reverse t) as [|d r] eqn:Hr; [|exact Hc].
  apply (f_equal reverse) in Hr. by rewrite reverse_involutive in Hr.
Qed.

Lemma Headers_set_json (headers : gmap jsstring jsstring) :
  Headers_set (js "content-type") (js "application/json") headers =
  Some (<[js "content-type" := js "application/json"]> headers).
Proof.
  unfold Headers_set.
  assert (normalize (js "application/json") = js "application/json") as ->
    by (vm_compute; reflexivity).
  assert (is_byte_string (js "application/json") &&
          is_header_value (js "application/json") = true) as ->
    by (vm_compute; reflexivity).
  reflexivity.
Qed.

Lemma is_byte_string_bearer (t : jsstring) :
  is_byte_string (js "Bearer " ++ t) = is_byte_string t.
Proof.
  unfold is_byte_string. rewrite forallb_app.
  assert (forallb (fun c => (c <=? 255)%N) (js "Bearer ") = true) as ->
    by (vm_compute; reflexivity).
  reflexivity.
Qed.

(** X15.  The request [callApi] hands to [fetch].  Without a non-empty
    session token a request is always made; with one, a request is made
    exactly when the token is a byte string and "Bearer " followed by it,
    stripped of HTTP white space at its ends, holds no NUL, line feed or
    carriage return: otherwise [callApi] rejects before [fetch] runs.  In
    a request made, Authorization is that stripped value when the session
    holds a non-empty token, replacing what the caller passed, and what
    the caller passed otherwise; Content-Type is what the caller passed,
    and "application/json" only when the caller passed none and the body
    is not empty; every other header, the method and the body go through
    and the address is the base followed by the path.  The stripped value
    is "Bearer " and the token itself when the token does not end in HTTP
    white space. *)
Theorem callApi_headers (VITE_API_BASE : option jsstring) (path : jsstring)
  (init : RequestInit) (s : State) :
  let tok := default [] (token <$> session s) in
  let bearer := js "Bearer " ++ tok in
  let signed := truthy (token <$> session s) in
  (is_Some (callApi_request VITE_API_BASE path init s) ↔
   (signed = true →
    is_byte_string tok = true ∧ is_header_value (normalize bearer) = true)) ∧
  (∀ request, callApi_request VITE_API_BASE path init s = Some request →
     req_headers request !! js "authorization" =
       (if signed then Some (normalize bearer)
        else init_headers init !! js "authorization") ∧
     req_headers request !! js "content-type" =
       match init_headers init !! js "content-type" with
       | Some given => Some given
       | None => if truthy (init_body init) then Some (js "application/json")
                 else None
       end ∧
     (∀ k, k ≠ js "authorization" → k ≠ js "content-type" →
           req_headers request !! k = init_headers init !! k) ∧
     req_url request =
       default (js "http://localhost:4000") VITE_API_BASE ++ path ∧
     req_method request = init_method init ∧
     req_body request = init_body init) ∧
  (signed = true → (∀ c, last tok = Some c → is_http_space c = false) →
   normalize bearer = bearer).
Proof.
  intros tok bearer signed.
  assert (js "content-type" ≠ js "authorization") as Hne
    by (intros H; vm_compute in H; discriminate H).
  unfold callApi_request. cbv zeta.
  set (typed := truthy (init_body init) &&
         negb (bool_decide (is_Some (init_headers init !! js "content-type")))).
  assert ((if typed
           then Headers_set (js "content-type") (js "application/json")
                  (init_headers init)
           else Some (init_headers init)) =
          Some (if typed
                then <[js "content-type" := js "application/json"]>
                       (init_headers init)
                else init_headers init)) as ->
    by (destruct typed; [apply Headers_set_json|done]).
  cbn [mbind option_bind]. fold tok. fold bearer. fold signed.
  set (headers := if typed then _ else _).
  assert (headers !! js "content-type" =
          match init_headers init !! js "content-type" with
          | Some given => Some given
          | None => if truthy (init_body init)
                    then Some (js "application/json") else None
          end) as Htyped.
  { subst headers typed.
    destruct (init_headers init !! js "content-type") as [given|] eqn:Hct.
    - rewrite bool_decide_eq_true_2 by by eexists.
      rewrite andb_false_r. exact Hct.
    - rewrite bool_decide_eq_false_2 by by intros [? ?].
      rewrite andb_true_r. destruct (truthy (init_body init)); [|done].
      by rewrite lookup_insert_eq. }
  assert (∀ k, k ≠ js "content-type" →
               headers !! k = init_headers init !! k) as Hother.
  { intros k Hk. subst headers. destruct typed; [|done].
    by rewrite lookup_insert_ne. }
  split; [|split].
  - destruct signed; [|split; [done|by eexists]].
    unfold Headers_set.
    change (is_byte_string bearer) with (is_byte_string (js "Bearer " ++ tok)).
    rewrite is_byte_string_bearer.
    destruct (is_byte_string tok), (is_header_value (normalize bearer));
      cbn [andb mbind option_bind]; split;
      try (intros _; by eexists); try (intros [? ?]; done);
      try (intros H; by destruct H); by intros _.
  - intros request. destruct signed.
    + unfold Headers_set.
      destruct (is_byte_string bearer && is_header_value (normalize bearer));
        [|done].
      cbn [mbind option_bind]. intros [= <-].
      cbn [req_headers req_url req_method req_body].
      rewrite lookup_insert_eq, lookup_insert_ne, Htyped by done.
      do 2 (split; [done|]). split; [|done].
      intros k Ha Hc. rewrite lookup_insert_ne by done. by apply Hother.
    + cbn [mbind option_bind]. intros [= <-].
      cbn [req_headers req_url req_method req_body].
      rewrite Htyped. split; [by apply Hother|]. split; [done|].
      split; [|done]. intros k _ Hc. by apply Hother.
  - intros Hsigned Hlast. apply normalize_bearer; [|done].
    intros Htok. subst signed tok. destruct (session s) as [p|]; [|done].
    simpl in Htok, Hsigned. by rewrite Htok in Hsigned.
Qed.

(** X16.  What [callApi] makes of the answer.  An answer that is not ok
    never returns: it throws an Error with the [message] of the body when
    that is a string, with "request failed" when the body has no such
    message or is not JSON, and fails with a TypeError on the body null.
    An answer that is ok never throws, even when its body is not JSON:
    [{}] is returned then.  A rejected [fetch] is passed on. *)
Theorem callApi_outcome {T : Type} (fetched : jsstring + Response T) :
  match fetched with
  | inl error => callApi_settle fetched = inl (api_fetch error)
  | inr response =>
      if ok response then
        ∃ parsed, callApi_settle fetched = inr parsed ∧
                  (body response = body_unparseable → parsed = parsed_empty) ∧
                  (∀ m v, body response = body_value m v →
                          parsed = parsed_value v)
      else
        ∃ error, callApi_settle fetched = inl error ∧
                 (∀ m v, body response = body_value (Some m) v →
                         error = api_Error m) ∧
                 (body response = body_unparseable ∨
                  (∃ v, body response = body_value None v) →
                  error = api_Error (js "request failed")) ∧
                 (body response = body_null → error = api_TypeError)
  end.
Proof.
  destruct fetched as [error|[o b]]; [done|]. unfold callApi_settle.
  cbn [ok body]. destruct o.
  - eexists. split; [reflexivity|]. split.
    + by intros ->.
    + by intros m v ->.
  - eexists. split; [reflexivity|]. split; [by intros m v ->|].
    split; [|by intros ->]. intros [->|[v ->]]; done.
Qed.

Lemma formToPayload_lookup (entries : list (jsstring * jsstring))
  (payload : gmap jsstring jsstring) (k : jsstring) :
  fold_left
    (fun payload e =>
       if bool_decide (fst e = js "__proto__") then payload
       else <[fst e := trim (snd e)]> payload)
    entries payload !! k =
  match last (filter (fun e => fst e = k) entries) with
  | Some e => if bool_decide (k = js "__proto__") then payload !! k
              else Some (trim (snd e))
  | None => payload !! k
  end.
Proof.
  induction entries as [|e entries IH] using rev_ind; [done|].
  rewrite fold_left_app, filter_app, last_app. simpl.
  rewrite filter_cons, filter_nil.
  destruct (decide (fst e = k)) as [<-|Hne]; simpl.
  - case_bool_decide; [|by rewrite lookup_insert_eq].
    rewrite IH. by destruct (last _).
  - destruct (bool_decide (fst e = js "__proto__"));
      rewrite ?lookup_insert_ne by done; exact IH.
Qed.

(** X17.  [formToPayload] holds one value per field name: the value of
    the last entry of that name, trimmed; so every value it holds has no
    white space at either end.  A name without entry is absent, and so is
    the name [__proto__] whatever the form holds. *)
Theorem formToPayload_trimmed
  (entries : list (jsstring * jsstring)) (k : jsstring) :
  formToPayload entries !! k =
    (if bool_decide (k = js "__proto__") then None
     else (fun e => trim (snd e)) <$>
            last (filter (fun e => fst e = k) entries)) ∧
  (∀ v, formToPayload entries !! k = Some v → trimmed v ∧ trim v = v) ∧
  (is_Some (formToPayload entries !! k) ↔
   k ∈ (fst <$> entries) ∧ k ≠ js "__proto__").
Proof.
  unfold formToPayload. rewrite formToPayload_lookup, lookup_empty.
  split; [by destruct (last _); case_bool_decide|]. split.
  - intros v Hv. destruct (last _) as [e|]; [|done].
    case_bool_decide; [done|].
    injection Hv as <-. split; [apply trim_trimmed|apply trim_idem].
  - destruct (last _) as [e|] eqn:Hlast.
    + assert (k ∈ (fst <$> entries)) as Hk.
      { apply last_Some in Hlast as [l' Hl'].
        assert (e ∈ filter (fun e => fst e = k) entries) as He
          by (rewrite Hl'; apply elem_of_app; right; by left).
        apply list_elem_of_filter in He as [<- He].
        apply list_elem_of_fmap. by exists e. }
      case_bool_decide; split; try done; by intros [_ ?].
    + split; [by intros [? ?]|]. intros [Hk _].
      apply list_elem_of_fmap in Hk as (e & -> & He).
      apply last_None in Hlast.
      assert (e ∈ filter (fun e' => fst e' = fst e) entries) as Hin
        by by apply list_elem_of_filter.
      rewrite Hlast in Hin. by apply elem_of_nil in Hin.
Qed.

Section BootstrapProperties.

Variable JSON_stringify : SessionPayload → jsstring.
Variable JSON_parse : jsstring → option (option SessionPayload).

(** X18.  The request that revalidates a stored session at start, made
    with the parsed session already in place: a GET of "/api/auth/me"
    whose only header is Authorization, holding "Bearer " and the stored
    token; no header at all when the stored token is empty.  When the
    stored token cannot be put in a header, no request is made, and the
    rejection drops the session and removes the stored entry. *)
Theorem bootstrap_request (VITE_API_BASE : option jsstring) (s : State)
  (stored : jsstring) (parsed : SessionPayload) :
  localStorage s !! SESSION_KEY = Some stored → stored ≠ [] →
  JSON_parse stored = Some (Some parsed) →
  let s1 := fst (bootstrapSession JSON_stringify JSON_parse s) in
  let sent :=
    callApi_request VITE_API_BASE (js "/api/auth/me")
      {| init_method := None; init_body := None; init_headers := ∅ |} s1 in
  let s2 := bootstrapSession_resume JSON_stringify (Some parsed) None s1 in
  (∀ request, sent = Some request →
     req_url request = API_BASE VITE_API_BASE ++ js "/api/auth/me" ∧
     req_method request = None ∧ req_body request = None ∧
     req_headers request =
       match token parsed with
       | [] => ∅
       | _ => {[ js "authorization" :=
                   normalize (js "Bearer " ++ token parsed) ]}
       end) ∧
  (sent = None →
   token parsed ≠ [] ∧
   (is_byte_string (token parsed) = false ∨
    is_header_value (normalize (js "Bearer " ++ token parsed)) = false) ∧
   session s2 = None ∧ localStorage s2 !! SESSION_KEY = None).
Proof.
  intros Hst Hne Hparse s1 sent s2.
  assert (session s1 = Some parsed) as Hs1.
  { subst s1. unfold bootstrapSession. rewrite Hst.
    destruct stored; [done|]. by rewrite Hparse. }
  assert (session s2 = None ∧ localStorage s2 !! SESSION_KEY = None) as Hs2.
  { subst s2. unfold bootstrapSession_resume, persistSession, updateAuthUI.
    cbv zeta. project. split; [done|]. apply lookup_delete_eq. }
  subst sent. unfold callApi_request. cbv zeta.
  cbn [init_headers init_body init_method truthy andb mbind option_bind].
  rewrite Hs1. change (default [] (token <$> Some parsed)) with (token parsed).
  change (token <$> Some parsed) with (Some (token parsed)).
  destruct (token parsed) as [|c t] eqn:Ht; cbn [truthy].
  - cbn [mbind option_bind]. split; [|done]. by intros request [= <-].
  - unfold Headers_set.
    rewrite is_byte_string_bearer.
    destruct (is_byte_string (c :: t)) eqn:Hb;
      [destruct (is_header_value (normalize (js "Bearer " ++ c :: t))) eqn:Hv|];
      cbn [andb mbind option_bind].
    + split; [|done]. intros request [= <-].
      cbn [req_url req_method req_body req_headers].
      by rewrite insert_empty.
    + split; [done|]. intros _. split; [done|]. split; [by right|done].
    + split; [done|]. intros _. split; [done|]. split; [by left|done].
Qed.

(** X19.  A stored entry that parses to null.  The session is null and
    the page is the one of a guest; the entry is still in the storage
    while the request of "/api/auth/me" is made, which carries no header;
    whatever the answer, the session stays null and the entry is removed
    when the call resumes (on a success, reading [parsed.token] throws). *)
Theorem bootstrap_null (VITE_API_BASE : option jsstring) (s : State)
  (stored : jsstring) :
  localStorage s !! SESSION_KEY = Some stored → stored ≠ [] →
  JSON_parse stored = Some None →
  let s1 := fst (bootstrapSession JSON_stringify JSON_parse s) in
  snd (bootstrapSession JSON_stringify JSON_parse s) = Some None ∧
  session s1 = None ∧ localStorage s1 = localStorage s ∧
  controls_disabled (dom s1) = true ∧
  userGreeting (dom s1) = js "guest mode" ∧
  callApi_request VITE_API_BASE (js "/api/auth/me")
    {| init_method := None; init_body := None; init_headers := ∅ |} s1 =
    Some {| req_url := API_BASE VITE_API_BASE ++ js "/api/auth/me";
            req_method := None; req_body := None; req_headers := ∅ |} ∧
  ∀ response,
    let s2 := bootstrapSession_resume JSON_stringify None response s1 in
    session s2 = None ∧ localStorage s2 !! SESSION_KEY = None ∧
    controls_disabled (dom s2) = true.
Proof.
  intros Hst Hne Hparse s1. subst s1. unfold bootstrapSession.
  rewrite Hst. destruct stored as [|c stored]; [done|]. rewrite Hparse.
  cbn [fst snd]. unfold updateAuthUI. cbv zeta. project.
  do 6 (split; [done|]).
  intros response.
  unfold bootstrapSession_resume, persistSession, updateAuthUI.
  destruct response; cbv zeta; project;
    (split; [done|]); (split; [apply lookup_delete_eq|done]).
Qed.

End BootstrapProperties.

(** ** The further properties on the examples *)

Lemma label_index_keys_witness :
  navLabels signed_in = ∅ ∧
  (is_Some (navLabels (renderToc demo_toc signed_in) !! js "ch1.xhtml") ↔
   ∃ n, n ∈ preorder demo_toc ∧ cleanHref (href n) = js "ch1.xhtml") ∧
  (∀ v, navLabels (renderToc demo_toc signed_in) !! js "ch1.xhtml" = Some v →
        (35%N ∉ js "ch1.xhtml") ∧ trimmed v).
Proof.
  assert (navLabels signed_in = ∅) as H by reflexivity.
  split; [exact H|].
  exact (label_index_keys demo_toc signed_in (js "ch1.xhtml") H).
Defined.

Lemma rendered_label_witness :
  navLabels unpainted = ∅ ∧ renditions unpainted !! 0 = Some demo_rendition ∧
  rd_on_rendered demo_rendition = true ∧
  currentLabel (emit 0 (rendered (js "ch1.xhtml#s1"))
                  (renderToc demo_toc unpainted)) =
    match last_visit (cleanHref (js "ch1.xhtml#s1")) demo_toc with
    | Some w => trim (label w)
    | None => cleanText (cleanHref (js "ch1.xhtml#s1"))
    end ∧
  currentLabel (emit 0 (rendered (js "ch1.xhtml#s1"))
                  (renderToc demo_toc unpainted)) = js "Section 1.1".
Proof.
  assert (navLabels unpainted = ∅) as He by reflexivity.
  assert (renditions unpainted !! 0 = Some demo_rendition) as Hr
    by (vm_compute; reflexivity).
  split; [exact He|]. split; [exact Hr|]. split; [reflexivity|].
  split; [|vm_compute; reflexivity].
  apply (rendered_label 0 demo_rendition demo_toc (js "ch1.xhtml#s1")
           unpainted He Hr eq_refl).
Defined.

Lemma pickAndOpen_choice_witness :
  session signed_in = Some demo_session ∧
  [notes_file; demo_file] ≠ [] ∧
  ∃ before chosen after,
    [notes_file; demo_file] = before ++ chosen :: after ∧
    Forall (fun f => is_epub f = false) before ∧
    (is_epub chosen = true ∨
     before = [] ∧ Forall (fun f => is_epub f = false) after) ∧
    pickAndOpen (Some [notes_file; demo_file]) signed_in =
      (fst (openBook chosen signed_in), Some (snd (openBook chosen signed_in))).
Proof.
  assert (session signed_in = Some demo_session) as Hs
    by (vm_compute; reflexivity).
  assert ([notes_file; demo_file] ≠ []) as Hne by discriminate.
  split; [exact Hs|]. split; [exact Hne|].
  exact (proj2 (proj2 (pickAndOpen_choice [notes_file; demo_file]
                         demo_session signed_in Hs)) Hne).
Defined.

Lemma openBook_success_witness :
  arrayBuffer demo_file = Some demo_epub ∧
  loads demo_file = true ∧ loaded_metadata demo_epub = Some demo_metadata ∧
  6 ≤ length quiet ∧
  ∃ s' b r,
    load demo_file quiet signed_in = (s', None) ∧
    statusEl (dom s') = js "use arrows, nav, or scroll freely" ∧
    metaEl (dom s') = meta_text demo_file demo_metadata ∧
    navLabels s' = fold_left store (preorder (toc_of demo_epub)) ∅ ∧
    book s' = Some b ∧ rendition s' = Some r ∧
    (∀ b', b' ∈ live_books s' ↔
           b' = b ∨ (b' ∈ live_books signed_in ∧ book signed_in ≠ Some b')) ∧
    (∀ r', r' ∈ live_renditions s' ↔
           r' = r ∨ (r' ∈ live_renditions signed_in ∧
                     rendition signed_in ≠ Some r')).
Proof.
  assert (loads demo_file = true) as Hloads by (vm_compute; reflexivity).
  assert (6 ≤ length quiet) as Hlen by (simpl; lia).
  split; [reflexivity|]. split; [exact Hloads|].
  split; [reflexivity|]. split; [exact Hlen|].
  destruct (openBook_success demo_file demo_epub demo_metadata quiet
              signed_in eq_refl Hloads eq_refl Hlen)
    as (s' & b & r & ob & or & H1 & H2 & H3 & _ & H5 & H6 & _ & _ & _ &
        H11 & _ & _ & _ & _ & _ & _ & _ & H19 & H20 & _).
  exists s', b, r. repeat (split; [assumption|]). exact H20.
Defined.

Lemma bootstrap_is_optimistic_witness :
  localStorage returning !! SESSION_KEY = Some (js "stored") ∧
  js "stored" ≠ [] ∧
  session (fst (bootstrapSession token (fun _ => Some (Some demo_session))
                  returning)) = Some demo_session ∧
  controls_disabled
    (dom (fst (bootstrapSession token (fun _ => Some (Some demo_session))
                 returning))) = false ∧
  session (bootstrapSession_resume token (Some demo_session) None
             (fst (bootstrapSession token (fun _ => Some (Some demo_session))
                     returning))) = None.
Proof.
  assert (localStorage returning !! SESSION_KEY = Some (js "stored")) as Hst
    by (vm_compute; reflexivity).
  assert (js "stored" ≠ []) as Hne by discriminate.
  split; [exact Hst|]. split; [exact Hne|].
  destruct (bootstrap_is_optimistic token (fun _ => Some (Some demo_session))
              returning (js "stored") demo_session Hst Hne eq_refl)
    as (_ & H2 & H3 & _ & _ & H6 & _).
  split; [exact H2|]. split; [exact H3|exact H6].
Defined.

Lemma bootstrap_request_witness :
  localStorage returning !! SESSION_KEY = Some (js "stored") ∧
  js "stored" ≠ [] ∧
  ∀ request,
    callApi_request None (js "/api/auth/me")
      {| init_method := None; init_body := None; init_headers := ∅ |}
      (fst (bootstrapSession token (fun _ => Some (Some demo_session)) returning)) =
    Some request →
    req_url request = API_BASE None ++ js "/api/auth/me" ∧
    req_method request = None ∧ req_body request = None ∧
    req_headers request =
      {[ js "authorization" := normalize (js "Bearer " ++ js "t0k3n") ]}.
Proof.
  assert (localStorage returning !! SESSION_KEY = Some (js "stored")) as Hst
    by (vm_compute; reflexivity).
  assert (js "stored" ≠ []) as Hne by discriminate.
  split; [exact Hst|]. split; [exact Hne|].
  exact (proj1 (bootstrap_request token (fun _ => Some (Some demo_session)) None
                  returning (js "stored") demo_session Hst Hne eq_refl)).
Defined.

Lemma bootstrap_null_witness :
  localStorage returning !! SESSION_KEY = Some (js "stored") ∧
  js "stored" ≠ [] ∧
  session (fst (bootstrapSession token (fun _ => Some None) returning)) =
    None ∧
  localStorage (fst (bootstrapSession token (fun _ => Some None) returning))
    = localStorage returning ∧
  ∀ response,
    localStorage
      (bootstrapSession_resume token None response
         (fst (bootstrapSession token (fun _ => Some None) returning)))
      !! SESSION_KEY = None.
Proof.
  assert (localStorage returning !! SESSION_KEY = Some (js "stored")) as Hst
    by (vm_compute; reflexivity).
  assert (js "stored" ≠ []) as Hne by discriminate.
  split; [exact Hst|]. split; [exact Hne|].
  destruct (bootstrap_null token (fun _ => Some None) None
              returning (js "stored") Hst Hne eq_refl)
    as (_ & H2 & H3 & _ & _ & _ & H7).
  split; [exact H2|]. split; [exact H3|].
  intros response. apply (H7 response).
Defined.
